(** * webidl2: tokeniser, attribute/operation/interface productions and the
      dictionary analyses of the validator, as a shallow embedding.

    JavaScript strings are sequences of UTF-16 code units; a code unit is
    modelled as a binary natural number and a string as a list of them.
    JavaScript numbers that can become negative ([index]) are [Z]; cursor
    positions into strings and arrays are [nat]. *)

From Stdlib Require Import NArith ZArith Lia String Ascii List Bool.
From stdpp Require Import base option list gmap.
Import ListNotations.

Local Open Scope nat_scope.

Abbreviation jsstring := (list N).

(** A source literal, written as a Rocq string. *)
Definition js (s : string) : jsstring :=
  map N_of_ascii (list_ascii_of_string s).

Fixpoint jsstring_eqb (a b : jsstring) : bool :=
  match a, b with
  | [], [] => true
  | x :: a', y :: b' => N.eqb x y && jsstring_eqb a' b'
  | _, _ => false
  end.

(** [Array.prototype.includes] on an array of strings. *)
Definition includes (l : list jsstring) (v : jsstring) : bool :=
  existsb (jsstring_eqb v) l.

(** [String.prototype.startsWith(p, pos)] once the string is cut at [pos]. *)
Fixpoint startsWith (s p : jsstring) : bool :=
  match p, s with
  | [], _ => true
  | x :: p', y :: s' => N.eqb x y && startsWith s' p'
  | _ :: _, [] => false
  end.

(** ** Regular expressions

    The matcher follows the ECMAScript backtracking semantics: a matcher
    takes the rest of the input and a continuation, alternatives are tried
    left to right, star is greedy and an iteration of star that consumes
    nothing is a failure (RepeatMatcher), a lookahead is tried once and the
    position is restored. None of the tokeniser's expressions looks behind
    the cursor, so the input is the suffix that starts at [lastIndex]. *)
Module Regex.

Inductive regex : Type :=
| Eps
| Chr (p : N -> bool)
| Seq (r1 r2 : regex)
| Alt (r1 r2 : regex)
| Star (r : regex)
| Look (r : regex).

Definition Plus (r : regex) : regex := Seq r (Star r).
(** [r?] for an [r] that cannot match the empty string. *)
Definition Opt (r : regex) : regex := Alt r Eps.

(** RepeatMatcher with [min = 0] and no upper bound: [m] is the matcher of
    the repeated expression, [n] bounds the number of iterations (each one
    consumes at least one code unit, so the length of the input is enough). *)
Fixpoint star_loop {A : Type}
    (m : jsstring -> (jsstring -> option A) -> option A)
    (k : jsstring -> option A) (n : nat) (s : jsstring) {struct n} : option A :=
  match n with
  | O => k s
  | S n' =>
      match m s (fun s' => if length s' <? length s then star_loop m k n' s' else None) with
      | Some x => Some x
      | None => k s
      end
  end.

Fixpoint rmatch {A : Type} (r : regex) (s : jsstring)
    (k : jsstring -> option A) {struct r} : option A :=
  match r with
  | Eps => k s
  | Chr p =>
      match s with
      | c :: s' => if p c then k s' else None
      | [] => None
      end
  | Seq r1 r2 => rmatch r1 s (fun s1 => rmatch r2 s1 k)
  | Alt r1 r2 =>
      match rmatch r1 s k with
      | Some x => Some x
      | None => rmatch r2 s k
      end
  | Star r1 => star_loop (fun s0 k0 => rmatch r1 s0 k0) k (length s) s
  | Look r1 =>
      match rmatch r1 s (fun _ => Some tt) with
      | Some _ => k s
      | None => None
      end
  end.

(** Can the expression only match a non-empty string? (syntactic check) *)
Fixpoint consumes (r : regex) : bool :=
  match r with
  | Eps => false
  | Chr _ => true
  | Seq r1 r2 => consumes r1 || consumes r2
  | Alt r1 r2 => consumes r1 && consumes r2
  | Star _ => false
  | Look _ => false
  end.

(** [re.lastIndex = lastIndex; re.exec(str)] for a sticky expression: the
    matched text [result[0]] and the new [re.lastIndex]. *)
Definition exec (re : regex) (str : jsstring) (lastIndex : nat)
    : option (jsstring * nat) :=
  let s := skipn lastIndex str in
  match rmatch re s Some with
  | Some rest =>
      let n := length s - length rest in
      Some (firstn n s, lastIndex + n)
  | None => None
  end.

(** [re.test(c)] for a one-character class without the sticky flag. *)
Definition test (p : N -> bool) (c : option N) : bool :=
  match c with Some c => p c | None => false end.

End Regex.
Import Regex.

(** ** Character classes of the tokeniser *)
Definition in_range (lo hi c : N) : bool := N.leb lo c && N.leb c hi.
Definition ch (x c : N) : bool := N.eqb x c.

Definition digit (c : N) : bool := in_range 48 57 c.
Definition octal (c : N) : bool := in_range 48 55 c.
Definition digit19 (c : N) : bool := in_range 49 57 c.
Definition upper (c : N) : bool := in_range 65 90 c.
Definition lower (c : N) : bool := in_range 97 122 c.
Definition alpha (c : N) : bool := upper c || lower c.
Definition hexdigit (c : N) : bool :=
  digit c || in_range 65 70 c || in_range 97 102 c.
(** [\t\n\r ] *)
Definition space (c : N) : bool := ch 9 c || ch 10 c || ch 13 c || ch 32 c.
(** [.]: anything but a line terminator (LF, CR, U+2028, U+2029). *)
Definition dot (c : N) : bool :=
  negb (ch 10 c || ch 13 c || ch 8232 c || ch 8233 c).
(** [0-9A-Z_a-z-] *)
Definition identchar (c : N) : bool :=
  digit c || upper c || ch 95 c || lower c || ch 45 c.
(** [-0-9.A-Z_a-z] *)
Definition wordstart (c : N) : bool :=
  ch 45 c || digit c || ch 46 c || upper c || ch 95 c || lower c.
(** other: [^\t\n\r 0-9A-Za-z] *)
Definition otherchar (c : N) : bool :=
  negb (space c || digit c || upper c || lower c).

Definition exponent : regex :=
  Seq (Chr (fun c => ch 69 c || ch 101 c))
      (Seq (Opt (Chr (fun c => ch 45 c || ch 43 c))) (Plus (Chr digit))).

(** decimal: -?(?=[0-9]*\.|[0-9]+[eE])(([0-9]+\.[0-9]*|[0-9]*\.[0-9]+)([Ee][-+]?[0-9]+)?|[0-9]+[Ee][-+]?[0-9]+) *)
Definition re_decimal : regex :=
  Seq (Opt (Chr (ch 45)))
   (Seq (Look (Alt (Seq (Star (Chr digit)) (Chr (ch 46)))
                   (Seq (Plus (Chr digit)) (Chr (fun c => ch 101 c || ch 69 c)))))
        (Alt (Seq (Alt (Seq (Plus (Chr digit)) (Seq (Chr (ch 46)) (Star (Chr digit))))
                       (Seq (Star (Chr digit)) (Seq (Chr (ch 46)) (Plus (Chr digit)))))
                  (Opt exponent))
             (Seq (Plus (Chr digit)) exponent))).

(** integer: -?(0([Xx][0-9A-Fa-f]+|[0-7]* )|[1-9][0-9]* ), written here with a
    space before each closing parenthesis that follows a star. *)
Definition re_integer : regex :=
  Seq (Opt (Chr (ch 45)))
      (Alt (Seq (Chr (ch 48))
                (Alt (Seq (Chr (fun c => ch 88 c || ch 120 c)) (Plus (Chr hexdigit)))
                     (Star (Chr octal))))
           (Seq (Chr digit19) (Star (Chr digit)))).

(** identifier: [_-]?[A-Za-z][0-9A-Z_a-z-]* *)
Definition re_identifier : regex :=
  Seq (Opt (Chr (fun c => ch 95 c || ch 45 c)))
      (Seq (Chr alpha) (Star (Chr identchar))).

(** string: a double quote (code unit 34), any run of other code units, a
    double quote. *)
Definition re_string : regex :=
  Seq (Chr (ch 34)) (Seq (Star (Chr (fun c => negb (ch 34 c)))) (Chr (ch 34))).

(** whitespace: [\t\n\r ]+ *)
Definition re_whitespace : regex := Plus (Chr space).

(** comment: one or more of: a slash, then either a slash and the rest of
    the line, or a star, a run of (a non-star, or a star and a non-slash), a
    star and a slash; then any run of [\t\n\r ]. *)
Definition re_comment : regex :=
  Plus (Seq (Chr (ch 47))
        (Seq (Alt (Seq (Chr (ch 47)) (Star (Chr dot)))
                  (Seq (Chr (ch 42))
                       (Seq (Star (Alt (Chr (fun c => negb (ch 42 c)))
                                       (Seq (Chr (ch 42)) (Chr (fun c => negb (ch 47 c))))))
                            (Seq (Chr (ch 42)) (Chr (ch 47))))))
             (Star (Chr space)))).

(** other: [^\t\n\r 0-9A-Za-z] *)
Definition re_other : regex := Chr otherchar.

(** The keys of [tokenRe]. *)
Inductive reName : Set :=
  decimal | integer | identifier | string_ | whitespace | comment | other.

Definition reName_str (t : reName) : jsstring :=
  match t with
  | decimal => js "decimal"
  | integer => js "integer"
  | identifier => js "identifier"
  | string_ => js "string"
  | whitespace => js "whitespace"
  | comment => js "comment"
  | other => js "other"
  end.

Definition tokenRe (t : reName) : regex :=
  match t with
  | decimal => re_decimal
  | integer => re_integer
  | identifier => re_identifier
  | string_ => re_string
  | whitespace => re_whitespace
  | comment => re_comment
  | other => re_other
  end.

Definition typeNameKeywords : list jsstring :=
  map js ["ArrayBuffer"; "DataView"; "Int8Array"; "Int16Array"; "Int32Array";
          "Uint8Array"; "Uint16Array"; "Uint32Array"; "Uint8ClampedArray";
          "Float32Array"; "Float64Array"; "any"; "object"; "symbol"]%string.

Definition stringTypes : list jsstring :=
  map js ["ByteString"; "DOMString"; "USVString"]%string.

Definition argumentNameKeywords : list jsstring :=
  map js ["async"; "attribute"; "callback"; "const"; "constructor"; "deleter";
          "dictionary"; "enum"; "getter"; "includes"; "inherit"; "interface";
          "iterable"; "maplike"; "namespace"; "partial"; "required"; "setlike";
          "setter"; "static"; "stringifier"; "typedef"; "unrestricted"]%string.

Definition nonRegexTerminals : list jsstring :=
  map js ["-Infinity"; "FrozenArray"; "Infinity"; "NaN"; "Promise"; "boolean";
          "byte"; "double"; "false"; "float"; "long"; "mixin"; "null"; "octet";
          "optional"; "or"; "readonly"; "record"; "sequence"; "short"; "true";
          "unsigned"; "void"]%string
  ++ argumentNameKeywords ++ stringTypes ++ typeNameKeywords.

Definition punctuations : list jsstring :=
  map js ["("; ")"; ","; "..."; ":"; ";"; "<"; "="; ">"; "?"; "["; "]"; "{"; "}"]%string.

Definition reserved : list jsstring :=
  map js ["_constructor"; "toString"; "_toString"]%string.

(** [unescape] of productions/helpers. *)
Definition unescape (identifier : jsstring) : jsstring :=
  match identifier with
  | 95%N :: rest => rest
  | _ => identifier
  end.

(** ** The tokeniser *)

(** [TokeniserToken]: [line] and [index] are optional in the source, the
    [eof] token is pushed without them. *)
Record TokeniserToken : Type := mkToken {
  type : jsstring;
  value : jsstring;
  trivia : jsstring;
  line : option Z;
  index : option Z
}.

(** Modelled from the spec: [syntaxError] of lib/error is not among the
    sources. The error object carries the raw message it was given as
    [bareMessage] and the token vector; the token position and the current
    node it was given are kept as they were passed (the decorated message,
    the context window and the line are computed from them). *)
Record SyntaxErrorData : Type := syntaxError {
  err_tokens : list TokeniserToken;
  err_position : nat;
  err_current : option nat;
  bareMessage : jsstring
}.

(** The exceptions that the modelled code throws, or runs into. *)
Inductive exn : Type :=
| WebIDLParseError (e : SyntaxErrorData)
| Error (message : jsstring)
| TypeError.

(** What a JavaScript function can end with: a value or a thrown exception.
    [OutOfFuel] is the model's own: a bounded loop or recursion ran out of
    steps. *)
Inductive completion (A : Type) : Type :=
| Normal (a : A)
| Throw (e : exn)
| OutOfFuel.
Arguments Normal {A} a.
Arguments Throw {A} e.
Arguments OutOfFuel {A}.

#[export] Instance completion_ret : MRet completion := fun A a => Normal a.
#[export] Instance completion_bind : MBind completion := fun A B f c =>
  match c with
  | Normal a => f a
  | Throw e => Throw e
  | OutOfFuel => OutOfFuel
  end.

(** [Array.prototype.pop]: the last element (if any) and the shortened array. *)
Definition pop {A} (l : list A) : option A * list A :=
  (last l, removelast l).

Definition reservedMessage (v : jsstring) : jsstring :=
  unescape v ++ js " is a reserved identifier and must not be used.".

(** The local variables of [tokenise]. *)
Record state : Type := mkState {
  tokens : list TokeniserToken;
  lastCharIndex : nat;
  cur_trivia : jsstring;
  cur_line : Z;
  cur_index : Z
}.

Section Tokenise.
Variable str : jsstring.

Definition push (t : TokeniserToken) (st : state) : state :=
  mkState (tokens st ++ [t]) (lastCharIndex st) (cur_trivia st) (cur_line st) (cur_index st).

Definition flushTrivia (st : state) : state :=
  mkState (tokens st) (lastCharIndex st) [] (cur_line st) (cur_index st).

(** The inner function [attemptTokenMatch]: the result is [re.lastIndex], or
    [None] for [-1]. *)
Definition attemptTokenMatch (ty : reName) (noFlushTrivia : bool) (st : state)
    : option nat * state :=
  match exec (tokenRe ty) str (lastCharIndex st) with
  | Some (result0, lastIndex) =>
      let st := push (mkToken (reName_str ty) result0 (cur_trivia st)
                        (Some (cur_line st)) (Some (cur_index st))) st in
      (Some lastIndex, if noFlushTrivia then st else flushTrivia st)
  | None => (None, st)
  end.

(** Number of matches of [/\n/g]. *)
Definition newlines (s : jsstring) : Z :=
  Z.of_nat (length (filter (fun c => N.eqb c 10) s)).

(** The first branch chain: whitespace, or a comment after a slash. *)
Definition triviaAttempt (nextChar : option N) (st : state) : option nat * state :=
  if test space nextChar then attemptTokenMatch whitespace true st
  else if test (ch 47) nextChar then attemptTokenMatch comment true st
  else (None, st).

(** After a successful identifier match: reserved identifiers throw, known
    terminals get their own name as [type]. [token] is the last token of the
    vector, and the assignment to [token.type] changes it in the vector. *)
Definition identifierCheck (result : option nat) (st : state)
    : completion (option nat * state) :=
  let lastIndex := pred (length (tokens st)) in
  let token := tokens st !! lastIndex in
  match result with
  | Some _ =>
      match token with
      | Some token =>
          if includes reserved (value token) then
            Throw (WebIDLParseError
                     (syntaxError (tokens st) lastIndex None (reservedMessage (value token))))
          else if includes nonRegexTerminals (value token) then
            let token' := mkToken (value token) (value token) (trivia token)
                            (line token) (index token) in
            Normal (result, mkState (<[lastIndex := token']> (tokens st)) (lastCharIndex st)
                              (cur_trivia st) (cur_line st) (cur_index st))
          else Normal (result, st)
      | None => Throw TypeError
      end
  | None => Normal (result, st)
  end.

(** The second branch chain. *)
Definition tokenAttempt (nextChar : option N) (result : option nat) (st : state)
    : completion (option nat * state) :=
  match result with
  | Some _ =>
      match pop (tokens st) with
      | (Some popped, rest) =>
          let currentTrivia := value popped in
          Normal (result,
                  mkState rest (lastCharIndex st) (cur_trivia st ++ currentTrivia)
                    (cur_line st + newlines currentTrivia) (cur_index st - 1))
      | (None, _) => Throw TypeError
      end
  | None =>
      if test wordstart nextChar then
        let '(result, st) := attemptTokenMatch decimal false st in
        let '(result, st) :=
          match result with
          | None => attemptTokenMatch integer false st
          | Some _ => (result, st)
          end in
        match result with
        | None =>
            let '(result, st) := attemptTokenMatch identifier false st in
            identifierCheck result st
        | Some _ => Normal (result, st)
        end
      else if test (ch 34) nextChar then Normal (attemptTokenMatch string_ false st)
      else Normal (None, st)
  end.

(** The loop over [punctuations], run on every iteration. *)
Definition punctuationAttempt (result : option nat) (st : state) : option nat * state :=
  match find (startsWith (skipn (lastCharIndex st) str)) punctuations with
  | Some punctuation =>
      let st := push (mkToken punctuation punctuation (cur_trivia st)
                        (Some (cur_line st)) (Some (cur_index st))) st in
      let lastCharIndex' := lastCharIndex st + length punctuation in
      (Some lastCharIndex',
       mkState (tokens st) lastCharIndex' [] (cur_line st) (cur_index st))
  | None => (result, st)
  end.

(** One turn of the [while] loop. *)
Definition iteration (st : state) : completion state :=
  let nextChar := str !! lastCharIndex st in
  let '(result, st) := triviaAttempt nextChar st in
  '(result, st) ← tokenAttempt nextChar result st;
  let '(result, st) := punctuationAttempt result st in
  let '(result, st) :=
    match result with
    | None => attemptTokenMatch other false st
    | Some _ => (result, st)
    end in
  match result with
  | None => Throw (Error (js "Token stream not progressing"))
  | Some result =>
      Normal (mkState (tokens st) result (cur_trivia st) (cur_line st) (cur_index st + 1))
  end.

Definition eof (st : state) : TokeniserToken :=
  mkToken (js "eof") [] (cur_trivia st) None None.

Fixpoint loop (fuel : nat) (st : state) : completion (list TokeniserToken) :=
  if lastCharIndex st <? length str then
    match fuel with
    | O => OutOfFuel
    | S fuel' => st' ← iteration st; loop fuel' st'
    end
  else Normal (tokens st ++ [eof st]).

Definition initial : state := mkState [] 0 [] 1 0.

(** Every turn of the loop moves the cursor forward (shown below), so the
    length of the input bounds the number of turns. *)
Definition tokenise : completion (list TokeniserToken) :=
  loop (length str) initial.

End Tokenise.

(** ** The token cursor (class [Tokeniser]) *)

Record Tokeniser : Type := mkTokeniser {
  source : list TokeniserToken;
  position : nat;
  current : option nat
}.

(** [new Tokeniser(idl)] *)
Definition newTokeniser (idl : jsstring) : completion Tokeniser :=
  src ← tokenise idl; Normal (mkTokeniser src 0 None).

Definition error {A} (this : Tokeniser) (message : jsstring) : completion A :=
  Throw (WebIDLParseError (syntaxError (source this) (position this) (current this) message)).

Definition probe (this : Tokeniser) (ty : jsstring) : bool :=
  (position this <? length (source this)) &&
  match source this !! position this with
  | Some t => jsstring_eqb (type t) ty
  | None => false
  end.

(** [consume(...candidates)]: the token and the moved cursor, or nothing. *)
Fixpoint consume (this : Tokeniser) (candidates : list jsstring)
    : option TokeniserToken * Tokeniser :=
  match candidates with
  | [] => (None, this)
  | ty :: rest =>
      if probe this ty then
        (source this !! position this,
         mkTokeniser (source this) (S (position this)) (current this))
      else consume this rest
  end.

Definition unconsume (this : Tokeniser) (position : nat) : Tokeniser :=
  mkTokeniser (source this) position (current this).

(** ** Syntax tree nodes

    The classes [Type], [SimpleExtendedAttribute], [ExtendedAttributes] and
    [Container] are declared in files that are not among the sources; the
    records below hold the properties that the modelled code reads or
    writes. Object identity (used as [Map] key) is a number. *)

Record SimpleExtendedAttribute : Type := mkExtAttr {
  ea_name : jsstring;                        (* extAttr.name *)
  ea_tokens_name : TokeniserToken;           (* extAttr.tokens.name *)
  ea_tokens_separator : option TokeniserToken
}.

(** [ExtendedAttributes] is an array with a [tokens] property. *)
Record ExtendedAttributes : Type := mkExtAttrs {
  ea_items : list SimpleExtendedAttribute;
  ea_open : option TokeniserToken;
  ea_close : option TokeniserToken
}.

(** [Type]: [idlType] is the name for a named type; for a union or generic
    type the getter gives the array of subtypes, which is no key of
    [defs.unique], and the field is [None]. *)
#[local] Set Warnings "-register-all".
Inductive IdlType : Type := mkType {
  ty_id : nat;
  generic : jsstring;
  union : bool;
  nullable : bool;
  idlType : option jsstring;
  subtype : list IdlType;
  ty_extAttrs : option ExtendedAttributes
}.

(** The assignment [ret.extAttrs = extAttrs] on a type. *)
Definition set_extAttrs (ty : IdlType) (ea : ExtendedAttributes) : IdlType :=
  mkType (ty_id ty) (generic ty) (union ty) (nullable ty) (idlType ty)
         (subtype ty) (Some ea).

(** A member of a definition, as the validator reads it: [type],
    [tokens.base], and [required] (absent, so falsy, on anything but a
    dictionary field). *)
Record Member : Type := mkMember {
  member_type : jsstring;
  member_tokens_base : option TokeniserToken;
  required : bool
}.

(** A top-level definition as the analyses read it ([dict: any]): [type],
    and, where the class has them, [idlType] (typedef), [inheritance] and
    [members] (containers). [def_id] is the identity of the object. *)
Record Def : Type := mkDef {
  def_id : nat;
  def_type : jsstring;
  def_idlType : option IdlType;
  inheritance : option jsstring;
  members : option (list Member)
}.

Record IdlTypeDictionary : Type := mkIdlTypeDictionary {
  reference : IdlType;
  dictionary : Def
}.

(** [defs.cache]: two [Map]s keyed by definition object. A key can be absent,
    present with [undefined] (indeterminate), or present with a result. *)
Record Cache : Type := mkCache {
  typedefIncludesDictionary : gmap nat (option IdlTypeDictionary);
  dictionaryIncludesRequiredField : gmap nat (option bool)
}.

(** [Definitions]: the part of the index that the analyses use. *)
Record Definitions : Type := mkDefinitions {
  unique : gmap jsstring Def;
  cache : Cache
}.

(** Modelled from the spec: [validationError] of lib/error is not among
    the sources. A diagnostic carries the token it is bound to, its
    kind ([ruleName]), the message and an optional autofix. The autofix is a
    closure over the node to edit; here it is a thunk that gives the edited
    node of type [N]. *)
Record Diagnostic (N : Type) : Type := validationError {
  diag_token : option TokeniserToken;
  ruleName : jsstring;
  diag_message : jsstring;
  autofix : option (unit -> completion N)
}.
Arguments validationError {N} _ _ _ _.
Arguments diag_token {N} _.
Arguments ruleName {N} _.
Arguments diag_message {N} _.
Arguments autofix {N} _.

(** ** productions/helpers: [type_with_extended_attributes] and
    productions/attribute: [Attribute.parse]

    [ExtendedAttributes.parse] and [Type.parse] are not among the sources;
    they are parameters: parsers that move the cursor and may throw. *)
Module Attribute.

Record TokenDictionary : Type := mkTokens {
  special : option TokeniserToken;
  readonly : option TokeniserToken;
  base : option TokeniserToken;
  name : option TokeniserToken;
  termination : option TokeniserToken
}.

Record Attribute : Type := mkAttribute {
  tokens : TokenDictionary;
  idlType : IdlType
}.

(** The getter [special]. *)
Definition get_special (tokens_special : option TokeniserToken) : jsstring :=
  match tokens_special with
  | None => []
  | Some t => value t
  end.

(** The options object of [parse], with its defaults. *)
Record Options : Type := mkOptions {
  opt_special : option TokeniserToken;
  opt_noInherit : bool;
  opt_readonly : bool
}.
Definition defaultOptions : Options := mkOptions None false false.

Section Parse.
Variable ExtendedAttributes_parse :
  Tokeniser -> completion (ExtendedAttributes * Tokeniser).
Variable Type_parse :
  Tokeniser -> jsstring -> completion (option IdlType * Tokeniser).

Definition type_with_extended_attributes (tokeniser : Tokeniser) (typeName : jsstring)
    : completion (option IdlType * Tokeniser) :=
  '(extAttrs, tokeniser) ← ExtendedAttributes_parse tokeniser;
  '(ret, tokeniser) ← Type_parse tokeniser typeName;
  match ret with
  | Some ret => Normal (Some (set_extAttrs ret extAttrs), tokeniser)
  | None => Normal (None, tokeniser)
  end.

(** [x || tokeniser.error(message)] *)
Definition orError {A} (x : option A) (tokeniser : Tokeniser) (message : jsstring)
    : completion A :=
  match x with
  | Some a => Normal a
  | None => error tokeniser message
  end.

Definition genericMessage (g : jsstring) : jsstring :=
  js "Attributes cannot accept " ++ g ++ js " types".

(** [parse], up to and including [tokens.base = tokeniser.consume("attribute")]:
    the token dictionary so far and the cursor. *)
Definition parseHead (tokeniser : Tokeniser) (opts : Options)
    : completion (TokenDictionary * Tokeniser) :=
  let tokens_special := opt_special opts in
  let '(tokens_special, tokeniser) :=
    if negb (bool_decide (is_Some (opt_special opts))) && negb (opt_noInherit opts)
    then consume tokeniser [js "inherit"]
    else (tokens_special, tokeniser) in
  _ ← (if jsstring_eqb (get_special tokens_special) (js "inherit")
          && probe tokeniser (js "readonly")
       then error tokeniser (js "Inherited attributes cannot be read-only")
       else Normal tt);
  let '(tokens_readonly, tokeniser) := consume tokeniser [js "readonly"] in
  _ ← (if opt_readonly opts && negb (bool_decide (is_Some tokens_readonly))
          && probe tokeniser (js "attribute")
       then error tokeniser (js "Attributes must be readonly in this context")
       else Normal tt);
  let '(tokens_base, tokeniser) := consume tokeniser [js "attribute"] in
  Normal (mkTokens tokens_special tokens_readonly tokens_base None None, tokeniser).

Definition parse (tokeniser : Tokeniser) (opts : Options)
    : completion (option Attribute * Tokeniser) :=
  let start_position := position tokeniser in
  '(tokens0, tokeniser) ← parseHead tokeniser opts;
  match base tokens0 with
  | None => Normal (None, unconsume tokeniser start_position)
  | Some _ =>
      '(ty, tokeniser) ← type_with_extended_attributes tokeniser (js "attribute-type");
      ret_idlType ← orError ty tokeniser (js "Attribute lacks a type");
      _ ← (if jsstring_eqb (generic ret_idlType) (js "sequence")
              || jsstring_eqb (generic ret_idlType) (js "record")
           then error tokeniser (genericMessage (generic ret_idlType))
           else Normal tt);
      let '(tokens_name, tokeniser) :=
        consume tokeniser [js "identifier"; js "async"; js "required"] in
      _ ← orError tokens_name tokeniser (js "Attribute lacks a name");
      let '(tokens_termination, tokeniser) := consume tokeniser [js ";"] in
      _ ← orError tokens_termination tokeniser (js "Unterminated attribute, expected `;`");
      Normal (Some (mkAttribute
                      (mkTokens (special tokens0) (readonly tokens0) (base tokens0)
                                tokens_name tokens_termination)
                      ret_idlType),
              tokeniser)
  end.

End Parse.
End Attribute.

(** ** productions/operation: [Operation.validate]

    A generator is modelled by the list of what it yields, in order. The
    validators of the return type and of the arguments are not among the
    sources; they are parameters. *)
Module Operation.

Record TokenDictionary : Type := mkTokens {
  special : option TokeniserToken;
  name : option TokeniserToken;
  open : option TokeniserToken;
  close : option TokeniserToken;
  termination : option TokeniserToken
}.

Record Operation (Argument : Type) : Type := mkOperation {
  tokens : TokenDictionary;
  idlType : option IdlType;
  arguments : list Argument
}.
Arguments mkOperation {Argument} _ _ _.
Arguments tokens {Argument} _.
Arguments idlType {Argument} _.
Arguments arguments {Argument} _.

Section Validate.
Context {Argument : Type}.
Variable Type_validate : Definitions -> IdlType -> list (Diagnostic (Operation Argument)).
Variable Argument_validate : Definitions -> Argument -> list (Diagnostic (Operation Argument)).

(** The getter [name]. *)
Definition get_name (this : Operation Argument) : jsstring :=
  match name (tokens this) with
  | None => []
  | Some name => unescape (value name)
  end.

(** The getter [special]. *)
Definition get_special (this : Operation Argument) : jsstring :=
  match special (tokens this) with
  | None => []
  | Some special => value special
  end.

Definition incompleteMessage : jsstring :=
  js "Regular or static operations must have both a return type and an identifier.".

(** [!this.name && ["", "static"].includes(this.special)] *)
Definition incomplete (this : Operation Argument) : bool :=
  jsstring_eqb (get_name this) [] && includes [[]; js "static"] (get_special this).

Definition validate (defs : Definitions) (this : Operation Argument)
    : list (Diagnostic (Operation Argument)) :=
  (if incomplete this
   then [validationError (open (tokens this)) (js "incomplete-op") incompleteMessage None]
   else [])
  ++ match idlType this with
     | Some ty => Type_validate defs ty
     | None => []
     end
  ++ flat_map (Argument_validate defs) (arguments this).

End Validate.
End Operation.

(** ** productions/interface: [Interface.validate], and
    productions/helpers: [autofixAddExposedWindow] *)
Module Interface.

Record TokenDictionary : Type := mkTokens {
  partial : option TokeniserToken;
  base : option TokeniserToken;
  name : option TokeniserToken
}.

Record Interface : Type := mkInterface {
  tokens : TokenDictionary;
  extAttrs : ExtendedAttributes;
  members : list Member
}.

(** Modelled from the spec: the getter [partial] is declared by [Container],
    which is not among the sources; [partial] is one of the token roles, and
    a definition is partial when it holds that token. *)
Definition get_partial (this : Interface) : bool :=
  bool_decide (is_Some (partial (tokens this))).

(** The [\s] class of JavaScript. *)
Definition jsWhiteSpace (c : N) : bool :=
  in_range 9 13 c || ch 32 c || ch 160 c || ch 5760 c || in_range 8192 8202 c
  || ch 8232 c || ch 8233 c || ch 8239 c || ch 8287 c || ch 12288 c || ch 65279 c.

(** The last element of [str.split("\n")]. *)
Fixpoint lastLine (s : jsstring) : jsstring :=
  match s with
  | [] => []
  | c :: s' => if N.eqb c 10 then lastLine s' else
      if existsb (N.eqb 10) s' then lastLine s' else s
  end.

Fixpoint takeWhile (p : N -> bool) (s : jsstring) : jsstring :=
  match s with
  | c :: s' => if p c then c :: takeWhile p s' else []
  | [] => []
  end.

Definition getLastIndentation (s : jsstring) : jsstring :=
  takeWhile jsWhiteSpace (lastLine s).

Definition set_trivia (t : TokeniserToken) (trivia' : jsstring) : TokeniserToken :=
  mkToken (type t) (value t) trivia' (line t) (index t).

Section Validate.
Variable SimpleExtendedAttribute_parse :
  Tokeniser -> completion (option SimpleExtendedAttribute * Tokeniser).
Variable ExtendedAttributes_parse :
  Tokeniser -> completion (ExtendedAttributes * Tokeniser).
(** The autofix of the [constructor-member] rule; no property stated here
    depends on what it edits, it is kept as a parameter. *)
Variable autofixConstructor :
  Interface -> SimpleExtendedAttribute -> unit -> completion Interface.
Variable ExtendedAttributes_validate :
  Definitions -> ExtendedAttributes -> list (Diagnostic Interface).
(** [super.validate] of [Container]. *)
Variable Container_validate : Definitions -> Interface -> list (Diagnostic Interface).
Variable checkInterfaceMemberDuplication :
  Definitions -> Interface -> list (Diagnostic Interface).

(** What calling the closure returned by [autofixAddExposedWindow(def)] does
    to [def]. *)
Definition autofixAddExposedWindow (def : Interface) (_ : unit) : completion Interface :=
  match ea_items (extAttrs def) with
  | existing :: others =>
      tokeniser ← newTokeniser (js "Exposed=Window,");
      '(exposed, tokeniser) ← SimpleExtendedAttribute_parse tokeniser;
      match exposed with
      | None => Throw TypeError
      | Some exposed =>
          let '(separator, tokeniser) := consume tokeniser [js ","] in
          let exposed := mkExtAttr (ea_name exposed) (ea_tokens_name exposed) separator in
          let nameTok := ea_tokens_name existing in
          let existing :=
            if test jsWhiteSpace (head (trivia nameTok)) then existing
            else mkExtAttr (ea_name existing)
                           (set_trivia nameTok (32%N :: trivia nameTok))
                           (ea_tokens_separator existing) in
          Normal (mkInterface (tokens def)
                    (mkExtAttrs (exposed :: existing :: others)
                                (ea_open (extAttrs def)) (ea_close (extAttrs def)))
                    (members def))
      end
  | [] =>
      tokeniser ← newTokeniser (js "[Exposed=Window]");
      '(parsed, _) ← ExtendedAttributes_parse tokeniser;
      match base (tokens def), ea_open parsed with
      | Some baseTok, Some openTok =>
          let trivia0 := trivia baseTok in
          Normal (mkInterface
                    (mkTokens (partial (tokens def))
                              (Some (set_trivia baseTok (10%N :: getLastIndentation trivia0)))
                              (name (tokens def)))
                    (mkExtAttrs (ea_items parsed) (Some (set_trivia openTok trivia0))
                                (ea_close parsed))
                    (members def))
      | _, _ => Throw TypeError
      end
  end.

Definition named (n : string) (extAttr : SimpleExtendedAttribute) : bool :=
  jsstring_eqb (ea_name extAttr) (js n).

Definition exposedMessage : jsstring :=
  js "Interfaces must have `[Exposed]` extended attribute. To fix, add, for example, `[Exposed=Window]`. Please also consider carefully if your interface should also be exposed in a Worker scope. Refer to the [WebIDL spec section on Exposed](https://heycam.github.io/webidl/#Exposed) for more information.".

Definition constructorMessage : jsstring :=
  js "Constructors should now be represented as a `constructor()` operation on the interface instead of `[Constructor]` extended attribute. Refer to the [WebIDL spec section on constructor operations](https://heycam.github.io/webidl/#idl-constructors) for more information.".

(** The condition of the [require-exposed] rule. *)
Definition lacksExposed (this : Interface) : bool :=
  negb (get_partial this)
  && forallb (fun extAttr => negb (named "Exposed" extAttr)) (ea_items (extAttrs this))
  && forallb (fun extAttr => negb (named "NoInterfaceObject" extAttr)) (ea_items (extAttrs this)).

Definition validate (defs : Definitions) (this : Interface) : list (Diagnostic Interface) :=
  ExtendedAttributes_validate defs (extAttrs this)
  ++ (if lacksExposed this
      then [validationError (name (tokens this)) (js "require-exposed") exposedMessage
              (Some (autofixAddExposedWindow this))]
      else [])
  ++ map (fun constructor =>
            validationError (Some (ea_tokens_name constructor)) (js "constructor-member")
              constructorMessage (Some (autofixConstructor this constructor)))
         (filter (fun extAttr => named "Constructor" extAttr) (ea_items (extAttrs this)))
  ++ (if existsb (named "Global") (ea_items (extAttrs this))
      then
        map (fun named0 =>
               validationError (Some (ea_tokens_name named0)) (js "no-constructible-global")
                 (js "Interfaces marked as `[Global]` cannot have named constructors.") None)
            (filter (fun extAttr => named "NamedConstructor" extAttr) (ea_items (extAttrs this)))
        ++ map (fun named0 =>
                  validationError (member_tokens_base named0) (js "no-constructible-global")
                    (js "Interfaces marked as `[Global]` cannot have constructors.") None)
               (filter (fun member => jsstring_eqb (member_type member) (js "constructor"))
                       (members this))
      else [])
  ++ Container_validate defs this
  ++ (if negb (get_partial this) then checkInterfaceMemberDuplication defs this else []).

End Validate.
End Interface.

(** ** validators/helpers: [idlTypeIncludesDictionary] and
    [dictionaryIncludesRequiredField]

    Both functions update the caches of [defs]; the updated [defs] is
    returned with the result. A result is a JavaScript value that can be
    [undefined], which is [None]. The recursion is bounded by [fuel]; the
    entry points below compute a bound that is shown to be enough. *)
Module Helpers.

Definition set_typedefIncludesDictionary (def : Def) (v : option IdlTypeDictionary)
    (defs : Definitions) : Definitions :=
  mkDefinitions (unique defs)
    (mkCache (<[def_id def := v]> (typedefIncludesDictionary (cache defs)))
             (dictionaryIncludesRequiredField (cache defs))).

Definition set_dictionaryIncludesRequiredField (dict : Def) (v : option bool)
    (defs : Definitions) : Definitions :=
  mkDefinitions (unique defs)
    (mkCache (typedefIncludesDictionary (cache defs))
             (<[def_id dict := v]> (dictionaryIncludesRequiredField (cache defs)))).

(** [defs.unique.get(idlType.idlType)] *)
Definition unique_get (defs : Definitions) (key : option jsstring) : option Def :=
  match key with
  | Some name => unique defs !! name
  | None => None
  end.

(** [for (const subtype of idlType.subtype)], the last statement of
    [idlTypeIncludesDictionary]; [recur] is the recursive call. *)
Fixpoint forSubtypes
    (recur : IdlType -> Definitions -> completion (option IdlTypeDictionary * Definitions))
    (l : list IdlType) (defs : Definitions) {struct l}
    : completion (option IdlTypeDictionary * Definitions) :=
  match l with
  | [] => Normal (None, defs)
  | subtype0 :: rest =>
      '(result, defs) ← recur subtype0 defs;
      match result with
      | Some result =>
          if union subtype0 then Normal (Some result, defs)
          else Normal (Some (mkIdlTypeDictionary subtype0 (dictionary result)), defs)
      | None => forSubtypes recur rest defs
      end
  end.

Fixpoint idlTypeIncludesDictionary_rec (fuel : nat) (idlType0 : IdlType)
    (defs : Definitions) (useNullableInner : bool) {struct fuel}
    : completion (option IdlTypeDictionary * Definitions) :=
  match fuel with
  | O => OutOfFuel
  | S fuel' =>
      let recur t d := idlTypeIncludesDictionary_rec fuel' t d false in
      if negb (union idlType0) then
        match unique_get defs (idlType idlType0) with
        | None => Normal (None, defs)
        | Some def =>
            let afterTypedef (defs : Definitions) :=
              if jsstring_eqb (def_type def) (js "dictionary")
                 && (useNullableInner || negb (nullable idlType0))
              then Normal (Some (mkIdlTypeDictionary idlType0 def), defs)
              else forSubtypes recur (subtype idlType0) defs in
            if jsstring_eqb (def_type def) (js "typedef") then
              match typedefIncludesDictionary (cache defs) !! def_id def with
              | Some cached => Normal (cached, defs)
              | None =>
                  let defs := set_typedefIncludesDictionary def None defs in
                  match def_idlType def with
                  | None => Throw TypeError
                  | Some target =>
                      '(result, defs) ← recur target defs;
                      let defs := set_typedefIncludesDictionary def result defs in
                      match result with
                      | Some result =>
                          Normal (Some (mkIdlTypeDictionary idlType0 (dictionary result)), defs)
                      | None => afterTypedef defs
                      end
                  end
              end
            else afterTypedef defs
        end
      else forSubtypes recur (subtype idlType0) defs
  end.

(** [if (dict.inheritance)]: a non-empty string. *)
Definition truthy_string (s : option jsstring) : option jsstring :=
  match s with
  | Some (c :: s') => Some (c :: s')
  | _ => None
  end.

Fixpoint dictionaryIncludesRequiredField_rec (fuel : nat) (dict : Def)
    (defs : Definitions) {struct fuel} : completion (option bool * Definitions) :=
  match fuel with
  | O => OutOfFuel
  | S fuel' =>
      match dictionaryIncludesRequiredField (cache defs) !! def_id dict with
      | Some cached => Normal (cached, defs)
      | None =>
          let defs := set_dictionaryIncludesRequiredField dict None defs in
          let ownFields (defs : Definitions) :=
            match members dict with
            | None => Throw TypeError
            | Some members =>
                let result := existsb required members in
                Normal (Some result, set_dictionaryIncludesRequiredField dict (Some result) defs)
            end in
          match truthy_string (inheritance dict) with
          | Some inheritance =>
              match unique defs !! inheritance with
              | None => Normal (Some true, defs)
              | Some superdict =>
                  '(r, defs) ← dictionaryIncludesRequiredField_rec fuel' superdict defs;
                  match r with
                  | Some true => Normal (Some true, defs)
                  | _ => ownFields defs
                  end
              end
          | None => ownFields defs
          end
      end
  end.

(** Nesting depth of a type. *)
Fixpoint depth (t : IdlType) : nat :=
  S (max_list (map depth (subtype t))).

(** The objects held by [defs.unique], and the deepest typedef target. *)
Definition defsOf (defs : Definitions) : list Def :=
  (map_to_list (unique defs)).*2.

Definition identities (defs : Definitions) : gset nat :=
  list_to_set (def_id <$> defsOf defs).

Definition targetDepth (defs : Definitions) : nat :=
  max_list ((fun d => from_option depth 0 (def_idlType d)) <$> defsOf defs).

Definition idlTypeIncludesDictionary (idlType0 : IdlType) (defs : Definitions)
    (useNullableInner : bool) : completion (option IdlTypeDictionary * Definitions) :=
  idlTypeIncludesDictionary_rec
    (depth idlType0 + size (identities defs) * targetDepth defs)
    idlType0 defs useNullableInner.

Definition dictionaryIncludesRequiredField (dict : Def) (defs : Definitions)
    : completion (option bool * Definitions) :=
  dictionaryIncludesRequiredField_rec (size (identities defs) + 2) dict defs.

End Helpers.

(** ** productions/helpers: the other helpers *)
Module Productions.

(** [const_value] *)
Definition const_value (tokeniser : Tokeniser) : option TokeniserToken * Tokeniser :=
  consume tokeniser
    (map js ["true"; "false"; "Infinity"; "-Infinity"; "NaN"; "decimal"; "integer"]%string).

(** The objects that [const_data] returns. *)
Inductive ConstData : Type :=
| ConstBoolean (value : bool)        (* { type: "boolean", value } *)
| ConstInfinity (negative : bool)    (* { type: "Infinity", negative } *)
| ConstSequence                      (* { type: "sequence", value: [] } *)
| ConstDictionary                    (* { type: "dictionary" } *)
| ConstNumber (value : jsstring)     (* { type: "number", value } *)
| ConstString (value : jsstring)     (* { type: "string", value } *)
| ConstOther (type : jsstring).      (* { type } *)

(** [value.slice(1, -1)] *)
Definition slice_1_m1 (value : jsstring) : jsstring := removelast (tl value).

Definition const_data (type value : jsstring) : ConstData :=
  if jsstring_eqb type (js "true") || jsstring_eqb type (js "false")
  then ConstBoolean (jsstring_eqb type (js "true"))
  else if jsstring_eqb type (js "Infinity") || jsstring_eqb type (js "-Infinity")
  then ConstInfinity (startsWith type (js "-"))
  else if jsstring_eqb type (js "[") then ConstSequence
  else if jsstring_eqb type (js "{") then ConstDictionary
  else if jsstring_eqb type (js "decimal") || jsstring_eqb type (js "integer")
  then ConstNumber value
  else if jsstring_eqb type (js "string") then ConstString (slice_1_m1 value)
  else ConstOther type.

(** The [tokens] that [primitive_type] hands to [new Type]; the class [Type]
    is not among the sources, a primitive type is modelled by these tokens. *)
Record PrimitiveTokens : Type := mkPrimitive {
  prefix : option TokeniserToken;
  base : option TokeniserToken;
  postfix : option TokeniserToken
}.

(** The inner function [integer_type]. *)
Definition integer_type (tokeniser : Tokeniser)
    : completion (option PrimitiveTokens * Tokeniser) :=
  let '(prefix, tokeniser) := consume tokeniser [js "unsigned"] in
  let '(base, tokeniser) := consume tokeniser [js "short"; js "long"] in
  match base with
  | Some _ =>
      let '(postfix, tokeniser) := consume tokeniser [js "long"] in
      Normal (Some (mkPrimitive prefix base postfix), tokeniser)
  | None =>
      match prefix with
      | Some _ => error tokeniser (js "Failed to parse integer type")
      | None => Normal (None, tokeniser)
      end
  end.

(** The inner function [decimal_type]. *)
Definition decimal_type (tokeniser : Tokeniser)
    : completion (option PrimitiveTokens * Tokeniser) :=
  let '(prefix, tokeniser) := consume tokeniser [js "unrestricted"] in
  let '(base, tokeniser) := consume tokeniser [js "float"; js "double"] in
  match base with
  | Some _ => Normal (Some (mkPrimitive prefix base None), tokeniser)
  | None =>
      match prefix with
      | Some _ => error tokeniser (js "Failed to parse float type")
      | None => Normal (None, tokeniser)
      end
  end.

Definition primitive_type (tokeniser : Tokeniser)
    : completion (option PrimitiveTokens * Tokeniser) :=
  '(num_type, tokeniser) ← integer_type tokeniser;
  match num_type with
  | Some _ => Normal (num_type, tokeniser)
  | None =>
      '(num_type, tokeniser) ← decimal_type tokeniser;
      match num_type with
      | Some _ => Normal (num_type, tokeniser)
      | None =>
          let '(base, tokeniser) :=
            consume tokeniser [js "boolean"; js "byte"; js "octet"] in
          match base with
          | Some _ => Normal (Some (mkPrimitive None base None), tokeniser)
          | None => Normal (None, tokeniser)
          end
      end
  end.

(** [Array.prototype.findIndex]: the first index, or -1. *)
Fixpoint findIndex {T} (predicate : T -> bool) (array : list T) : Z :=
  match array with
  | [] => (-1)%Z
  | item :: rest =>
      if predicate item then 0%Z
      else let index := findIndex predicate rest in
           if (index =? -1)%Z then (-1)%Z else (index + 1)%Z
  end.

Definition findLastIndex {T} (array : list T) (predicate : T -> bool) : Z :=
  let index := findIndex predicate (rev array) in
  if (index =? -1)%Z then index
  else (Z.of_nat (length array) - index - 1)%Z.

Definition getMemberIndentation (parentTrivia : jsstring) : jsstring :=
  let indentation := Interface.getLastIndentation parentTrivia in
  let indentCh := if existsb (N.eqb 9) indentation then [9%N] else [32%N; 32%N] in
  indentation ++ indentCh.

(** [list]: a comma-separated list of items. The items are nodes with a
    [tokens.separator]; [parser] is the parser of one item. The [while] loop
    is bounded by [fuel]; every turn but the first comes after a consumed
    comma. *)
Section List.
Context {T : Type}.
Variable parser : Tokeniser -> completion (option T * Tokeniser).
Variable set_separator : T -> option TokeniserToken -> T.

Definition trailingComma (listName : jsstring) : jsstring :=
  js "Trailing comma in " ++ listName.

Fixpoint list_loop (fuel : nat) (allowDangler : bool) (listName : jsstring)
    (items : list T) (tokeniser : Tokeniser) {struct fuel}
    : completion (list T * Tokeniser) :=
  match fuel with
  | O => OutOfFuel
  | S fuel' =>
      '(item, tokeniser) ← parser tokeniser;
      match item with
      | None =>
          if allowDangler then Normal (items, tokeniser)
          else error tokeniser (trailingComma listName)
      | Some item =>
          let '(separator, tokeniser) := consume tokeniser [js ","] in
          let items := items ++ [set_separator item separator] in
          match separator with
          | None => Normal (items, tokeniser)
          | Some _ => list_loop fuel' allowDangler listName items tokeniser
          end
      end
  end.

Definition list (tokeniser : Tokeniser) (allowDangler : bool) (listName : jsstring)
    : completion (list T * Tokeniser) :=
  '(first, tokeniser) ← parser tokeniser;
  match first with
  | None => Normal ([], tokeniser)
  | Some first =>
      let '(separator, tokeniser) := consume tokeniser [js ","] in
      let first := set_separator first separator in
      match separator with
      | None => Normal ([first], tokeniser)
      | Some _ =>
          list_loop (length (source tokeniser)) allowDangler listName [first] tokeniser
      end
  end.

End List.

(** [return_type]: [Type.parse] is a parameter; [voidType] stands for
    [new Type] on the [void] token with its [type] set to [return-type]. *)
Section ReturnType.
Variable Type_parse : Tokeniser -> jsstring -> completion (option IdlType * Tokeniser).
Variable voidType : TokeniserToken -> IdlType.

Definition return_type (tokeniser : Tokeniser) (typeName : jsstring)
    : completion (option IdlType * Tokeniser) :=
  '(typ, tokeniser) ← Type_parse tokeniser (match typeName with [] => js "return-type" | _ => typeName end);
  match typ with
  | Some _ => Normal (typ, tokeniser)
  | None =>
      let '(voidToken, tokeniser) := consume tokeniser [js "void"] in
      match voidToken with
      | Some voidToken => Normal (Some (voidType voidToken), tokeniser)
      | None => Normal (None, tokeniser)
      end
  end.

End ReturnType.

End Productions.

(** ** productions/operation: [Operation.parse]; productions/helpers:
    [stringifier]; productions/interface: [static_member]

    [Argument.parse], [Type.parse] and [ExtendedAttributes.parse] are
    parameters. A parse function returns a node, or nothing ([None]), or
    throws. *)
Module OperationParse.
Section Parse.
Context {Argument : Type}.
Variable Argument_parse : Tokeniser -> completion (option Argument * Tokeniser).
Variable Argument_set_separator : Argument -> option TokeniserToken -> Argument.
Variable ExtendedAttributes_parse :
  Tokeniser -> completion (ExtendedAttributes * Tokeniser).
Variable Type_parse : Tokeniser -> jsstring -> completion (option IdlType * Tokeniser).
Variable voidType : TokeniserToken -> IdlType.

(** [argument_list] *)
Definition argument_list (tokeniser : Tokeniser)
    : completion (list Argument * Tokeniser) :=
  Productions.list Argument_parse Argument_set_separator tokeniser false
    (js "arguments list").

(** [Operation.parse(tokeniser, { special, regular })] *)
Definition parse (tokeniser : Tokeniser) (special regular : option TokeniserToken)
    : completion (option (Operation.Operation Argument) * Tokeniser) :=
  let rest (tokeniser : Tokeniser) :=
    let '(tokens_special, tokeniser) :=
      if negb (bool_decide (is_Some special)) && negb (bool_decide (is_Some regular))
      then consume tokeniser [js "getter"; js "setter"; js "deleter"]
      else (special, tokeniser) in
    '(ty, tokeniser) ← Productions.return_type Type_parse voidType tokeniser (js "return-type");
    ret_idlType ← Attribute.orError ty tokeniser (js "Missing return type");
    let '(tokens_name, tokeniser) := consume tokeniser [js "identifier"; js "includes"] in
    let '(tokens_open, tokeniser) := consume tokeniser [js "("] in
    _ ← Attribute.orError tokens_open tokeniser (js "Invalid operation");
    '(ret_arguments, tokeniser) ← argument_list tokeniser;
    let '(tokens_close, tokeniser) := consume tokeniser [js ")"] in
    _ ← Attribute.orError tokens_close tokeniser (js "Unterminated operation");
    let '(tokens_termination, tokeniser) := consume tokeniser [js ";"] in
    _ ← Attribute.orError tokens_termination tokeniser
          (js "Unterminated operation, expected `;`");
    Normal (Some (Operation.mkOperation
                    (Operation.mkTokens tokens_special tokens_name tokens_open
                                        tokens_close tokens_termination)
                    (Some ret_idlType) ret_arguments),
            tokeniser) in
  if match special with
     | Some special => jsstring_eqb (value special) (js "stringifier")
     | None => false
     end
  then
    let '(tokens_termination, tokeniser) := consume tokeniser [js ";"] in
    match tokens_termination with
    | Some _ =>
        Normal (Some (Operation.mkOperation
                        (Operation.mkTokens special None None None tokens_termination)
                        None []),
                tokeniser)
    | None => rest tokeniser
    end
  else rest tokeniser.

(** What follows the keyword in [stringifier] and [static_member]:
    [Attribute.parse(tokeniser, { special }) ||
     Operation.parse(tokeniser, { special }) || tokeniser.error(message)]. *)
Definition memberAfter (special : TokeniserToken) (message : jsstring) (tokeniser : Tokeniser)
    : completion (option (Attribute.Attribute + Operation.Operation Argument) * Tokeniser) :=
  '(attribute, tokeniser) ←
    Attribute.parse ExtendedAttributes_parse Type_parse tokeniser
      (Attribute.mkOptions (Some special) false false);
  match attribute with
  | Some attribute => Normal (Some (inl attribute), tokeniser)
  | None =>
      '(operation, tokeniser) ← parse tokeniser (Some special) None;
      match operation with
      | Some operation => Normal (Some (inr operation), tokeniser)
      | None => error tokeniser message
      end
  end.

Definition stringifier (tokeniser : Tokeniser)
    : completion (option (Attribute.Attribute + Operation.Operation Argument) * Tokeniser) :=
  let '(special, tokeniser) := consume tokeniser [js "stringifier"] in
  match special with
  | None => Normal (None, tokeniser)
  | Some special => memberAfter special (js "Unterminated stringifier") tokeniser
  end.

Definition static_member (tokeniser : Tokeniser)
    : completion (option (Attribute.Attribute + Operation.Operation Argument) * Tokeniser) :=
  let '(special, tokeniser) := consume tokeniser [js "static"] in
  match special with
  | None => Normal (None, tokeniser)
  | Some special => memberAfter special (js "No body in static member") tokeniser
  end.

End Parse.
End OperationParse.

(** ** Vocabulary of the statements about the tokeniser *)

(** The text that a run of tokens stands for: trivia, then lexeme, each. *)
Definition cover (toks : list TokeniserToken) : jsstring :=
  flat_map (fun t => trivia t ++ value t) toks.

(** The states at which the [while] loop of [tokenise] tests its condition:
    the token positions of the input. *)
Inductive reaches (str : jsstring) : state -> Prop :=
| reaches_initial : reaches str initial
| reaches_iteration st st' :
    reaches str st -> lastCharIndex st < length str ->
    iteration str st = Normal st' -> reaches str st'.

(** A turn of the loop that only gathered trivia [v]. *)
Definition skipped (str : jsstring) (st st' : state) : Prop :=
  exists v,
    tokens st' = tokens st /\
    cur_trivia st' = cur_trivia st ++ v /\
    cur_line st' = (cur_line st + newlines v)%Z /\
    cur_index st' = cur_index st /\
    firstn (lastCharIndex st') str = firstn (lastCharIndex st) str ++ v /\
    lastCharIndex st < lastCharIndex st' <= length str.

(** A turn of the loop that pushed the token [t]. *)
Definition emitted (str : jsstring) (st st' : state) (t : TokeniserToken) : Prop :=
  tokens st' = tokens st ++ [t] /\
  trivia t = cur_trivia st /\
  line t = Some (cur_line st) /\
  index t = Some (cur_index st) /\
  cur_trivia st' = [] /\
  cur_line st' = cur_line st /\
  cur_index st' = (cur_index st + 1)%Z /\
  firstn (lastCharIndex st') str = firstn (lastCharIndex st) str ++ value t /\
  lastCharIndex st < lastCharIndex st' <= length str.

(** What holds of the local variables whenever the loop tests its condition. *)
Record invariant (str : jsstring) (st : state) : Prop := mkInvariant {
  inv_cursor : lastCharIndex st <= length str;
  inv_cover : cover (tokens st) ++ cur_trivia st = firstn (lastCharIndex st) str;
  inv_index : cur_index st = Z.of_nat (length (tokens st));
  inv_numbered : forall k t, tokens st !! k = Some t ->
    index t = Some (Z.of_nat k) /\ exists l, line t = Some l /\ (l <= cur_line st)%Z;
  inv_lines : forall i j ti tj, i <= j ->
    tokens st !! i = Some ti -> tokens st !! j = Some tj ->
    exists li lj, line ti = Some li /\ line tj = Some lj /\ (li <= lj)%Z
}.

(** The text [v] lies in [str] between the positions [i] and [j]. *)
Definition slice (str : jsstring) (i j : nat) (v : jsstring) : Prop :=
  i < j <= length str /\ firstn j str = firstn i str ++ v.

(** A token that was just pushed by the second branch chain of a turn, at a
    position where no punctuation starts. *)
Definition pushed (str : jsstring) (st : state) (r2 : option nat) (st2 : state) : Prop :=
  exists t j,
    r2 = Some j /\
    st2 = mkState (tokens st ++ [t]) (lastCharIndex st) [] (cur_line st) (cur_index st) /\
    trivia t = cur_trivia st /\ line t = Some (cur_line st) /\
    index t = Some (cur_index st) /\
    slice str (lastCharIndex st) j (value t) /\
    find (startsWith (skipn (lastCharIndex st) str)) punctuations = None.

(** ** Sample inputs *)

(** A token with a line and an index, from literals. *)
Definition tok (ty v tr : string) (l i : Z) : TokeniserToken :=
  mkToken (js ty) (js v) (js tr) (Some l) (Some i).

Definition sampleInput : jsstring :=
  js "/* c */ interface A { attribute long x; }; // end".

Definition sampleTokens : list TokeniserToken :=
  Eval vm_compute in
    match tokenise sampleInput with Normal toks => toks | _ => [] end.

(** A cursor over [attribute sequence<long> xs;], and stand-ins for the two
    parsers that [Attribute.parse] calls: no extended attributes, and a type
    parser that knows [sequence<long>] only. *)
Definition sampleAttributeTokens : list TokeniserToken :=
  Eval vm_compute in
    match tokenise (js "attribute sequence<long> xs;") with
    | Normal toks => toks
    | _ => []
    end.

Definition sampleAttributeTokeniser : Tokeniser :=
  mkTokeniser sampleAttributeTokens 0 None.

Definition noExtendedAttributes (tokeniser : Tokeniser)
    : completion (ExtendedAttributes * Tokeniser) :=
  Normal (mkExtAttrs [] None None, tokeniser).

Definition sequenceOfLong : IdlType :=
  mkType 0 (js "sequence") false false None
    [mkType 1 [] false false (Some (js "long")) [] None] None.

Definition sequenceTypeOnly (tokeniser : Tokeniser) (typeName : jsstring)
    : completion (option IdlType * Tokeniser) :=
  if probe tokeniser (js "sequence")
  then Normal (Some sequenceOfLong, unconsume tokeniser (position tokeniser + 4))
  else Normal (None, tokeniser).

(** Operations without a name, as [long (long x);] and [getter long (long x);]
    parse: [open] is the parenthesis token; and validators that yield
    nothing for the return type and the arguments. *)
Definition sampleOperationTokens : list TokeniserToken :=
  Eval vm_compute in
    match tokenise (js "getter long (long x);") with
    | Normal toks => toks
    | _ => []
    end.

Definition namelessOperation (special : option TokeniserToken) : Operation.Operation unit :=
  Operation.mkOperation
    (Operation.mkTokens special None (sampleOperationTokens !! 2)
       (sampleOperationTokens !! 5) (sampleOperationTokens !! 6))
    None [tt].

Definition yieldNothing {X N : Type} (defs : Definitions) (x : X) : list (Diagnostic N) := [].

Definition noDefinitions : Definitions := mkDefinitions ∅ (mkCache ∅ ∅).

(** The interface [interface Foo { };], and stand-ins for the parsers of
    extended attributes that the autofix calls on [[Exposed=Window]]. *)
Definition sampleInterfaceTokens : list TokeniserToken :=
  Eval vm_compute in
    match tokenise (js "interface Foo { };") with
    | Normal toks => toks
    | _ => []
    end.

Definition sampleInterface : Interface.Interface :=
  Interface.mkInterface
    (Interface.mkTokens None (sampleInterfaceTokens !! 0) (sampleInterfaceTokens !! 1))
    (mkExtAttrs [] None None) [].

Definition oneBracketedAttribute (tokeniser : Tokeniser)
    : completion (ExtendedAttributes * Tokeniser) :=
  match source tokeniser with
  | [open; name; _; _; close; _] =>
      Normal (mkExtAttrs [mkExtAttr (value name) name None] (Some open) (Some close),
              unconsume tokeniser 5)
  | _ => Normal (mkExtAttrs [] None None, tokeniser)
  end.

Definition noSimpleAttribute (tokeniser : Tokeniser)
    : completion (option SimpleExtendedAttribute * Tokeniser) :=
  Normal (None, tokeniser).

Definition noAutofix (def : Interface.Interface) (extAttr : SimpleExtendedAttribute)
    (_ : unit) : completion Interface.Interface :=
  Normal def.

(** Definitions for the analyses: a dictionary with a required member that
    inherits from a name that no definition has; two dictionaries that
    inherit from each other; two typedefs that name each other. *)
Definition orphanDictionary : Def :=
  mkDef 1 (js "dictionary") None (Some (js "Missing"))
    (Some [mkMember (js "field") None true]).

Definition orphanDefinitions : Definitions :=
  mkDefinitions {[ js "D" := orphanDictionary ]} (mkCache ∅ ∅).

Definition cyclicA : Def := mkDef 2 (js "dictionary") None (Some (js "B")) (Some []).
Definition cyclicB : Def := mkDef 3 (js "dictionary") None (Some (js "A")) (Some []).
Definition namedType (id : nat) (name : string) : IdlType :=
  mkType id [] false false (Some (js name)) [] None.
Definition cyclicT : Def := mkDef 4 (js "typedef") (Some (namedType 10 "U")) None None.
Definition cyclicU : Def := mkDef 5 (js "typedef") (Some (namedType 11 "T")) None None.

Definition cyclicDefinitions : Definitions :=
  mkDefinitions
    (<[ js "A" := cyclicA ]> (<[ js "B" := cyclicB ]>
       (<[ js "T" := cyclicT ]> {[ js "U" := cyclicU ]})))
    (mkCache ∅ ∅).

(** The cache after a first round of analyses has left entries pending. *)
Definition pendingDefinitions : Definitions :=
  mkDefinitions (unique cyclicDefinitions) (mkCache {[ 4 := None ]} {[ 2 := None ]}).

(** [typedef D T;] and [dictionary D { required long x; };] *)
Definition plainDictionary : Def :=
  mkDef 6 (js "dictionary") None None (Some [mkMember (js "field") None true]).
Definition plainTypedef : Def := mkDef 7 (js "typedef") (Some (namedType 12 "D")) None None.
Definition plainDefinitions : Definitions :=
  mkDefinitions (<[ js "D" := plainDictionary ]> {[ js "T" := plainTypedef ]}) (mkCache ∅ ∅).

(** ** Vocabulary of the statements about the analyses *)

Definition depth_lt (t ty : IdlType) : Prop := Helpers.depth t < Helpers.depth ty.

(** [defs'] is [defs] after some calls of the typedef analysis: the same
    index, and no entry of the typedef cache has been removed. *)
Definition extends (defs defs' : Definitions) : Prop :=
  unique defs' = unique defs /\
  dom (typedefIncludesDictionary (cache defs)) ⊆ dom (typedefIncludesDictionary (cache defs')).

(** How many definitions of the index have no entry yet in a cache. *)
Definition uncached {V} (defs : Definitions) (c : gmap nat V) : nat :=
  size (Helpers.identities defs ∖ dom c).

(** The fuel that the typedef analysis needs besides the depth of the type. *)
Definition need (defs : Definitions) : nat :=
  uncached defs (typedefIncludesDictionary (cache defs)) * Helpers.targetDepth defs.

(** ** Vocabulary of the further statements about the tokeniser *)

(** The token [t] is what a turn of the loop reads at position [i] of [str]:
    the match of one of the token expressions (an identifier that is neither
    reserved nor a known terminal), a known terminal matched by the identifier
    expression, or the first punctuation that starts there. *)
Inductive lexeme (str : jsstring) (i : nat) (t : TokeniserToken) : Prop :=
| lexeme_regex ty j :
    In ty [decimal; integer; identifier; string_; other] ->
    exec (tokenRe ty) str i = Some (value t, j) ->
    type t = reName_str ty ->
    (ty = identifier ->
     includes reserved (value t) = false /\
     includes nonRegexTerminals (value t) = false) ->
    lexeme str i t
| lexeme_terminal j :
    exec re_identifier str i = Some (value t, j) ->
    includes reserved (value t) = false ->
    includes nonRegexTerminals (value t) = true ->
    type t = value t ->
    lexeme str i t
| lexeme_punctuation :
    find (startsWith (skipn i str)) punctuations = Some (value t) ->
    type t = value t ->
    lexeme str i t.

(** Every token of a run starts where the text of the tokens before it and
    its own trivia end, and is what the loop reads there. *)
Definition positioned (str : jsstring) (toks : list TokeniserToken) : Prop :=
  forall k t, toks !! k = Some t ->
    lexeme str (length (cover (take k toks)) + length (trivia t)) t.

(** Line feeds in the trivia of a run of tokens. *)
Definition triviaLines (toks : list TokeniserToken) : Z :=
  fold_right (fun t n => (newlines (trivia t) + n)%Z) 0%Z toks.

(** ** Vocabulary of the statements about the productions *)

(** The tokens of a primitive type, in the order of the text. *)
Definition primitiveTokens (p : Productions.PrimitiveTokens) : list TokeniserToken :=
  option_list (Productions.prefix p) ++ option_list (Productions.base p)
  ++ option_list (Productions.postfix p).

(** The cursor [n] tokens further. *)
Definition advance (tk : Tokeniser) (n : nat) : Tokeniser :=
  mkTokeniser (source tk) (position tk + n) (current tk).

(** The tokens of [toks] are the tokens under the cursor and after it. *)
Definition ahead (tk : Tokeniser) (toks : list TokeniserToken) : Prop :=
  forall k t, toks !! k = Some t -> source tk !! (position tk + k) = Some t.

(** In a list that [list] returns, the items with a separator hold a comma;
    an item without one is the last; the last one has a separator only where
    a dangling comma is allowed. *)
Definition separated {T} (get_separator : T -> option TokeniserToken)
    (allowDangler : bool) (items : list T) : Prop :=
  forall k x, items !! k = Some x ->
    match get_separator x with
    | Some c => type c = js "," /\ (S k < length items \/ allowDangler = true)
    | None => S k = length items
    end.

(** Every item holds a comma as its separator. *)
Definition withComma {T} (get_separator : T -> option TokeniserToken)
    (items : list T) : Prop :=
  forall x, In x items -> exists c, get_separator x = Some c /\ type c = js ",".

(** ** Vocabulary of the further statements about the analyses *)

(** The result [r] names a dictionary that the index holds. *)
Definition namesDictionary (defs : Definitions) (r : IdlTypeDictionary) : Prop :=
  def_type (dictionary r) = js "dictionary" /\
  exists name, unique defs !! name = Some (dictionary r).

(** Every result that the typedef cache holds names a dictionary of the
    index. *)
Definition soundCache (defs : Definitions) : Prop :=
  forall id r, typedefIncludesDictionary (cache defs) !! id = Some (Some r) ->
    namesDictionary defs r.

(** ** Sample inputs for the productions *)

Definition tokensOf (s : string) : list TokeniserToken :=
  match tokenise (js s) with Normal toks => toks | _ => [] end.

(** A type parser that knows [long] only. *)
Definition longTypeOnly (tokeniser : Tokeniser) (typeName : jsstring)
    : completion (option IdlType * Tokeniser) :=
  match consume tokeniser [js "long"] with
  | (Some _, tokeniser) => Normal (Some (namedType 1 "long"), tokeniser)
  | (None, tokeniser) => Normal (None, tokeniser)
  end.

Definition readonlySetlikeTokens : list TokeniserToken :=
  Eval vm_compute in tokensOf "readonly setlike<long>;".

Definition readonlyAttributeTokens : list TokeniserToken :=
  Eval vm_compute in tokensOf "readonly attribute long x;".

Definition inheritReadonlyTokens : list TokeniserToken :=
  Eval vm_compute in tokensOf "inherit readonly attribute long x;".

Definition readonlyAttribute : Attribute.Attribute :=
  Eval vm_compute in
    match Attribute.parse noExtendedAttributes longTypeOnly
            (mkTokeniser readonlyAttributeTokens 0 None)
            (Attribute.mkOptions None false true) with
    | Normal (Some a, _) => a
    | _ => Attribute.mkAttribute (Attribute.mkTokens None None None None None)
             (namedType 0 "")
    end.

Definition unsignedLongLongTokens : list TokeniserToken :=
  Eval vm_compute in tokensOf "unsigned long long x".

Definition unsignedLongLong : Productions.PrimitiveTokens :=
  Productions.mkPrimitive (unsignedLongLongTokens !! 0) (unsignedLongLongTokens !! 1)
    (unsignedLongLongTokens !! 2).

Definition unsignedFloatTokens : list TokeniserToken :=
  Eval vm_compute in tokensOf "unsigned float x".

(** An item parser for [list]: an identifier, as a node with its separator. *)
Definition identifierItem (tokeniser : Tokeniser)
    : completion (option (TokeniserToken * option TokeniserToken) * Tokeniser) :=
  let '(t, tokeniser) := consume tokeniser [js "identifier"] in
  Normal (option_map (fun t => (t, None)) t, tokeniser).

Definition identifierItem_set_separator (x : TokeniserToken * option TokeniserToken)
    (s : option TokeniserToken) : TokeniserToken * option TokeniserToken :=
  (fst x, s).

Definition identifierListTokens : list TokeniserToken :=
  Eval vm_compute in tokensOf "a, b, c)".

Definition identifierList : list (TokeniserToken * option TokeniserToken) :=
  Eval vm_compute in
    match Productions.list identifierItem identifierItem_set_separator
            (mkTokeniser identifierListTokens 0 None) false (js "list") with
    | Normal (items, _) => items
    | _ => []
    end.

(** The interface [[SecureContext] interface Foo { };], a parser of simple
    extended attributes that reads [name = value] only, and the interface
    after the autofix of [require-exposed]. *)
Definition secureInterfaceTokens : list TokeniserToken :=
  Eval vm_compute in tokensOf "[SecureContext] interface Foo { };".

Definition secureInterface : Interface.Interface :=
  match secureInterfaceTokens with
  | open :: name :: close :: base :: interfaceName :: _ =>
      Interface.mkInterface (Interface.mkTokens None (Some base) (Some interfaceName))
        (mkExtAttrs [mkExtAttr (value name) name None] (Some open) (Some close)) []
  | _ => sampleInterface
  end.

Definition nameEqualsValue (tokeniser : Tokeniser)
    : completion (option SimpleExtendedAttribute * Tokeniser) :=
  match source tokeniser !! position tokeniser with
  | Some name =>
      Normal (Some (mkExtAttr (value name) name None),
              unconsume tokeniser (position tokeniser + 3))
  | None => Normal (None, tokeniser)
  end.

Definition exposedInterface : Interface.Interface :=
  Eval vm_compute in
    match Interface.autofixAddExposedWindow nameEqualsValue oneBracketedAttribute
            secureInterface tt with
    | Normal def => def
    | _ => secureInterface
    end.

(** The tokens of the two texts that the autofix of [require-exposed] has
    parsed, and [sampleInterface] after that autofix. *)
Definition exposedWindowCommaTokens : list TokeniserToken :=
  Eval vm_compute in tokensOf "Exposed=Window,".

Definition bracketedExposedTokens : list TokeniserToken :=
  Eval vm_compute in tokensOf "[Exposed=Window]".

Definition bracketedExposed : ExtendedAttributes :=
  Eval vm_compute in
    match oneBracketedAttribute (mkTokeniser bracketedExposedTokens 0 None) with
    | Normal (parsed, _) => parsed
    | _ => mkExtAttrs [] None None
    end.

Definition createdInterface : Interface.Interface :=
  Eval vm_compute in
    match Interface.autofixAddExposedWindow nameEqualsValue oneBracketedAttribute
            sampleInterface tt with
    | Normal def => def
    | _ => sampleInterface
    end.

(** The operation [long f(a, b);], with stand-ins for the parsers that
    [Operation.parse] calls: arguments are identifiers, the only type is
    [long]. *)
Definition operationTokens : list TokeniserToken :=
  Eval vm_compute in tokensOf "long f(a, b);".

Definition voidTypeOf (voidToken : TokeniserToken) : IdlType := namedType 2 "void".

Definition parsedOperation
    : Operation.Operation (TokeniserToken * option TokeniserToken) :=
  Eval vm_compute in
    match OperationParse.parse identifierItem identifierItem_set_separator longTypeOnly
            voidTypeOf (mkTokeniser operationTokens 0 None) None None with
    | Normal (Some op, _) => op
    | _ => Operation.mkOperation (Operation.mkTokens None None None None None) None []
    end.

(** The nameless operation [static long ();], parsed after the keyword. *)
Definition staticOperationTokens : list TokeniserToken :=
  Eval vm_compute in tokensOf "static long ();".

Definition staticOperation
    : Operation.Operation (TokeniserToken * option TokeniserToken) :=
  Eval vm_compute in
    match OperationParse.parse identifierItem identifierItem_set_separator longTypeOnly
            voidTypeOf (mkTokeniser staticOperationTokens 1 None)
            (staticOperationTokens !! 0) None with
    | Normal (Some op, _) => op
    | _ => Operation.mkOperation (Operation.mkTokens None None None None None) None []
    end.

(** The interfaces [[Global, NamedConstructor=Img] interface W { };] and
    [[Constructor] interface C { };]. *)
Definition globalInterfaceTokens : list TokeniserToken :=
  Eval vm_compute in tokensOf "[Global, NamedConstructor=Img] interface W { };".

Definition globalInterface : Interface.Interface :=
  match globalInterfaceTokens with
  | open :: global :: comma :: named :: _ :: _ :: close :: base :: interfaceName :: _ =>
      Interface.mkInterface (Interface.mkTokens None (Some base) (Some interfaceName))
        (mkExtAttrs [mkExtAttr (value global) global (Some comma);
                     mkExtAttr (value named) named None] (Some open) (Some close)) []
  | _ => sampleInterface
  end.

Definition constructorInterfaceTokens : list TokeniserToken :=
  Eval vm_compute in tokensOf "[Constructor] interface C { };".

Definition constructorInterface : Interface.Interface :=
  match constructorInterfaceTokens with
  | open :: name :: close :: base :: interfaceName :: _ =>
      Interface.mkInterface (Interface.mkTokens None (Some base) (Some interfaceName))
        (mkExtAttrs [mkExtAttr (value name) name None] (Some open) (Some close)) []
  | _ => sampleInterface
  end.

(** The interface [[Constructor, Constructor(long x)] interface C { };]. *)
Definition twoConstructorsTokens : list TokeniserToken :=
  Eval vm_compute in tokensOf "[Constructor, Constructor(long x)] interface C { };".

Definition twoConstructorsInterface : Interface.Interface :=
  match twoConstructorsTokens with
  | open :: first :: comma :: second :: _ :: _ :: _ :: _ :: close :: base
    :: interfaceName :: _ =>
      Interface.mkInterface (Interface.mkTokens None (Some base) (Some interfaceName))
        (mkExtAttrs [mkExtAttr (value first) first (Some comma);
                     mkExtAttr (value second) second None] (Some open) (Some close)) []
  | _ => sampleInterface
  end.

(** * Properties *)

(** ** The matcher only consumes from the front of its input *)
Section RegexFacts.

Lemma star_loop_rest {A} (m : jsstring -> (jsstring -> option A) -> option A) k :
  (forall s k' x, m s k' = Some x -> exists s' pre, k' s' = Some x /\ s = pre ++ s') ->
  forall n s x, star_loop m k n s = Some x ->
    exists s' pre, k s' = Some x /\ s = pre ++ s'.
Proof.
  intros Hm n. induction n as [|n IH]; intros s x H; simpl in H.
  - exists s, []. auto.
  - destruct (m s _) as [y|] eqn:E.
    + inversion H; subst y. apply Hm in E as (s1 & pre1 & Hk & ->).
      destruct (length s1 <? length (pre1 ++ s1)); [|discriminate].
      apply IH in Hk as (s2 & pre2 & Hk & ->).
      exists s2, (pre1 ++ pre2). split; [exact Hk|]. now rewrite <- app_assoc.
    + exists s, []. auto.
Qed.

Lemma rmatch_rest r : forall A s (k : jsstring -> option A) x,
  rmatch r s k = Some x -> exists s' pre, k s' = Some x /\ s = pre ++ s'.
Proof.
  induction r as [|p|r1 IH1 r2 IH2|r1 IH1 r2 IH2|r1 IH1|r1 IH1]; intros A s k x H; simpl in H.
  - exists s, []. auto.
  - destruct s as [|c s']; [discriminate|]. destruct (p c); [|discriminate].
    exists s', [c]. auto.
  - apply IH1 in H as (s1 & pre1 & H & ->).
    apply IH2 in H as (s2 & pre2 & H & ->).
    exists s2, (pre1 ++ pre2). split; [exact H|]. now rewrite <- app_assoc.
  - destruct (rmatch r1 s k) as [y|] eqn:E.
    + inversion H; subst y. eauto.
    + eauto.
  - eapply star_loop_rest; [|exact H]. intros s0 k' x0. apply IH1.
  - destruct (rmatch r1 s _); [|discriminate]. exists s, []. auto.
Qed.

Lemma rmatch_shorter r : consumes r = true -> forall A s (k : jsstring -> option A) x,
  rmatch r s k = Some x ->
  exists s' pre, k s' = Some x /\ s = pre ++ s' /\ length s' < length s.
Proof.
  induction r as [|p|r1 IH1 r2 IH2|r1 IH1 r2 IH2|r1 IH1|r1 IH1];
    intros Hc A s k x H; simpl in Hc, H; try discriminate.
  - destruct s as [|c s']; [discriminate|]. destruct (p c); [|discriminate].
    exists s', [c]. simpl. auto with lia.
  - destruct (consumes r1) eqn:E1.
    + apply IH1 in H as (s1 & pre1 & H & -> & Hlt); [|reflexivity].
      apply rmatch_rest in H as (s2 & pre2 & H & ->).
      exists s2, (pre1 ++ pre2). rewrite <- app_assoc.
      repeat split; [exact H|]. rewrite !length_app in *. lia.
    + apply rmatch_rest in H as (s1 & pre1 & H & ->).
      apply IH2 in H as (s2 & pre2 & H & -> & Hlt); [|exact Hc].
      exists s2, (pre1 ++ pre2). rewrite <- app_assoc.
      repeat split; [exact H|]. rewrite !length_app in *. lia.
  - apply andb_true_iff in Hc as [Hc1 Hc2].
    destruct (rmatch r1 s k) as [y|] eqn:E.
    + inversion H; subst y. eauto.
    + eauto.
Qed.

(** A successful [exec] returns the text between the old and the new
    [lastIndex]. *)
Lemma exec_slice re str i v j :
  exec re str i = Some (v, j) -> i <= length str ->
  i <= j /\ j <= length str /\ firstn j str = firstn i str ++ v.
Proof.
  unfold exec. intros H Hi.
  destruct (rmatch re (skipn i str) Some) as [rest|] eqn:E; [|discriminate].
  inversion H; subst v j; clear H.
  apply rmatch_rest in E as (s' & pre & E & Hs). inversion E; subst s'; clear E.
  rewrite Hs. rewrite length_app.
  replace (length pre + length rest - length rest) with (length pre) by lia.
  rewrite firstn_app, Nat.sub_diag, firstn_all. simpl. rewrite app_nil_r.
  assert (Hstr : str = firstn i str ++ pre ++ rest).
  { rewrite <- Hs. symmetry. apply firstn_skipn. }
  assert (Hlen : length (firstn i str) = i) by (apply firstn_length_le; exact Hi).
  split; [lia|]. split.
  - rewrite Hstr at 1. rewrite !length_app. lia.
  - rewrite Hstr at 1. rewrite app_assoc.
    rewrite firstn_app. rewrite length_app, Hlen.
    replace (i + length pre - (i + length pre)) with 0 by lia.
    rewrite firstn_O, app_nil_r. apply firstn_all2. rewrite length_app. lia.
Qed.

Lemma exec_progress re str i v j :
  consumes re = true -> exec re str i = Some (v, j) -> i < j.
Proof.
  unfold exec. intros Hc H.
  destruct (rmatch re (skipn i str) Some) as [rest|] eqn:E; [|discriminate].
  inversion H; subst v j; clear H.
  apply (rmatch_shorter _ Hc) in E as (s' & pre & E & Hs & Hlt).
  inversion E; subst s'. lia.
Qed.

(** The bound on the iterations of a star is not felt: a matcher only
    calls its continuation on what is left of its input, so a larger bound
    gives the same match. *)
Lemma star_loop_ext {A} (m : jsstring -> (jsstring -> option A) -> option A) k1 k2 :
  (forall s k k', (forall s', length s' <= length s -> k s' = k' s') -> m s k = m s k') ->
  forall n s, (forall s', length s' <= length s -> k1 s' = k2 s') ->
    star_loop m k1 n s = star_loop m k2 n s.
Proof.
  intros Hm n. induction n as [|n IH]; intros s Hk; simpl.
  - apply Hk. lia.
  - rewrite (Hk s) by lia.
    rewrite (Hm s _ (fun s' => if length s' <? length s then star_loop m k2 n s' else None)).
    + reflexivity.
    + intros s' Hs'. destruct (Nat.ltb_spec (length s') (length s)); [|reflexivity].
      apply IH. intros s'' Hs''. apply Hk. lia.
Qed.

Lemma rmatch_ext r : forall A s (k k' : jsstring -> option A),
  (forall s', length s' <= length s -> k s' = k' s') -> rmatch r s k = rmatch r s k'.
Proof.
  induction r as [|p|r1 IH1 r2 IH2|r1 IH1 r2 IH2|r1 IH1|r1 IH1]; intros A s k k' Hk; simpl.
  - apply Hk. lia.
  - destruct s as [|c s']; [reflexivity|]. destruct (p c); [|reflexivity].
    apply Hk. simpl. lia.
  - apply IH1. intros s1 Hs1. apply IH2. intros s2 Hs2. apply Hk. lia.
  - rewrite (IH1 _ s k k' Hk), (IH2 _ s k k' Hk). reflexivity.
  - apply star_loop_ext; [|exact Hk]. intros s0 k0 k0'. apply IH1.
  - rewrite (Hk s) by lia. reflexivity.
Qed.

Lemma star_fuel_adequate {A} r (k : jsstring -> option A) n : forall s,
  length s <= n ->
  star_loop (fun s0 k0 => rmatch r s0 k0) k (S n) s =
  star_loop (fun s0 k0 => rmatch r s0 k0) k n s.
Proof.
  induction n as [|n IH]; intros s Hs.
  - destruct s; [|simpl in Hs; lia]. simpl.
    destruct (rmatch r [] _) as [x|] eqn:E; [|reflexivity].
    apply rmatch_rest in E as (s' & pre & E & _). simpl in E.
    destruct (length s' <? 0) eqn:L; [|discriminate]. apply Nat.ltb_lt in L. lia.
  - change (star_loop (fun s0 k0 => rmatch r s0 k0) k (S (S n)) s) with
      (match rmatch r s (fun s' => if length s' <? length s
                                   then star_loop (fun s0 k0 => rmatch r s0 k0) k (S n) s'
                                   else None) with
       | Some x => Some x
       | None => k s
       end).
    change (star_loop (fun s0 k0 => rmatch r s0 k0) k (S n) s) with
      (match rmatch r s (fun s' => if length s' <? length s
                                   then star_loop (fun s0 k0 => rmatch r s0 k0) k n s'
                                   else None) with
       | Some x => Some x
       | None => k s
       end).
    rewrite (rmatch_ext r _ s _
               (fun s' => if length s' <? length s
                          then star_loop (fun s0 k0 => rmatch r s0 k0) k n s'
                          else None)); [reflexivity|].
    intros s' Hs'. destruct (Nat.ltb_spec (length s') (length s)); [|reflexivity].
    apply IH. lia.
Qed.

Lemma tokenRe_consumes ty : consumes (tokenRe ty) = true.
Proof. destruct ty; reflexivity. Qed.

End RegexFacts.

(** ** One turn of the tokeniser loop *)
Section TokeniserSteps.
Variable str : jsstring.

Lemma punctuations_eq :
  punctuations = [[40]; [41]; [44]; [46; 46; 46]; [58]; [59]; [60]; [61]; [62];
                  [63]; [91]; [93]; [123]; [125]]%N.
Proof. reflexivity. Qed.

Ltac class_facts H :=
  unfold wordstart, space, digit, upper, lower, alpha, in_range, ch, test in H;
  rewrite ?orb_true_iff, ?andb_true_iff, ?N.eqb_eq, ?N.leb_le in H.

Lemma no_punctuation_after_trivia c s :
  space c = true \/ c = 47%N \/ c = 34%N ->
  find (startsWith (c :: s)) punctuations = None.
Proof.
  intros H. class_facts H.
  destruct H as [[[[H|H]|H]|H]|[H|H]]; subst c; reflexivity.
Qed.

Local Arguments N.eqb : simpl never.

Lemma punctuation_after_wordstart c s p :
  wordstart c = true ->
  find (startsWith (c :: s)) punctuations = Some p ->
  exists s', c :: s = 46%N :: 46%N :: 46%N :: s'.
Proof.
  intros Hw H. rewrite punctuations_eq in H.
  destruct (N.eqb_spec 46 c) as [<-|Hne].
  - simpl in H.
    destruct s as [|a [|b s']]; simpl in H;
      rewrite ?andb_false_r in H; try discriminate.
    destruct (N.eqb_spec 46 a) as [<-|]; [|discriminate].
    destruct (N.eqb_spec 46 b) as [<-|]; [|discriminate].
    eauto.
  - class_facts Hw. exfalso.
    simpl in H.
    repeat match type of H with
    | context [N.eqb ?x c] => destruct (N.eqb_spec x c); [lia|]
    end.
    simpl in H. discriminate.
Qed.

Lemma no_match_at_ellipsis ty s :
  ty = decimal \/ ty = integer \/ ty = identifier ->
  rmatch (tokenRe ty) (46 :: 46 :: 46 :: s)%N Some = None.
Proof. intros [->|[->| ->]]; reflexivity. Qed.


Lemma exec_token_slice ty i v j :
  exec (tokenRe ty) str i = Some (v, j) -> i <= length str -> slice str i j v.
Proof.
  intros H Hi. pose proof (exec_progress _ _ _ _ _ (tokenRe_consumes ty) H).
  apply exec_slice in H as (? & ? & ?); [|exact Hi]. unfold slice. auto.
Qed.

Lemma attempt_cases ty nf st :
  lastCharIndex st <= length str ->
  (exec (tokenRe ty) str (lastCharIndex st) = None /\
   attemptTokenMatch str ty nf st = (None, st)) \/
  (exists v j,
     exec (tokenRe ty) str (lastCharIndex st) = Some (v, j) /\
     slice str (lastCharIndex st) j v /\
     attemptTokenMatch str ty nf st =
       (Some j,
        mkState (tokens st ++ [mkToken (reName_str ty) v (cur_trivia st)
                                 (Some (cur_line st)) (Some (cur_index st))])
                (lastCharIndex st) (if nf then cur_trivia st else [])
                (cur_line st) (cur_index st))).
Proof.
  intros Hi. unfold attemptTokenMatch.
  destruct (exec (tokenRe ty) str (lastCharIndex st)) as [[v j]|] eqn:E.
  - right. exists v, j. split; [reflexivity|]. split.
    + eapply exec_token_slice; eauto.
    + destruct nf; reflexivity.
  - left. auto.
Qed.

Lemma exec_first ty i c v j :
  str !! i = Some c ->
  exec (tokenRe ty) str i = Some (v, j) ->
  exists rest, rmatch (tokenRe ty) (c :: skipn (S i) str) Some = Some rest.
Proof.
  intros Hc H. unfold exec in H. rewrite (drop_S _ _ _ Hc) in H.
  destruct (rmatch _ _ _) as [rest|]; [eauto|discriminate].
Qed.

Lemma word_excludes_punctuation ty i c v j :
  ty = decimal \/ ty = integer \/ ty = identifier ->
  str !! i = Some c -> wordstart c = true ->
  exec (tokenRe ty) str i = Some (v, j) ->
  find (startsWith (skipn i str)) punctuations = None.
Proof.
  intros Hty Hc Hw H.
  destruct (find _ _) as [p|] eqn:F; [|reflexivity].
  destruct (exec_first _ _ _ _ _ Hc H) as [rest Hr].
  rewrite (drop_S _ _ _ Hc) in F.
  destruct (punctuation_after_wordstart _ _ _ Hw F) as [s' Hs].
  rewrite Hs in Hr. rewrite (no_match_at_ellipsis _ _ Hty) in Hr. discriminate.
Qed.

Lemma startsWith_app s p : startsWith s p = true -> exists s', s = p ++ s'.
Proof.
  revert s. induction p as [|x p IH]; intros s H; simpl in H.
  - exists s. reflexivity.
  - destruct s as [|y s]; [discriminate|].
    apply andb_true_iff in H as [Hx Hp]. apply N.eqb_eq in Hx as ->.
    destruct (IH _ Hp) as [s' ->]. exists s'. reflexivity.
Qed.

Lemma punctuation_slice i p :
  i <= length str ->
  find (startsWith (skipn i str)) punctuations = Some p ->
  slice str i (i + length p) p.
Proof.
  intros Hi F. apply find_some in F as [Hin Hp].
  assert (Hlen : 0 < length p).
  { rewrite punctuations_eq in Hin. simpl in Hin.
    repeat (destruct Hin as [<-|Hin]; [simpl; lia|]). destruct Hin. }
  apply startsWith_app in Hp as [s' Hs].
  assert (Hstr : str = firstn i str ++ p ++ s').
  { rewrite <- Hs. symmetry. apply firstn_skipn. }
  assert (Hfl : length (firstn i str) = i) by (apply firstn_length_le; exact Hi).
  unfold slice. split; [split; [lia|]|].
  - rewrite Hstr at 1. rewrite !length_app. lia.
  - rewrite Hstr at 1. rewrite app_assoc, firstn_app, length_app, Hfl.
    replace (i + length p - (i + length p)) with 0 by lia.
    rewrite firstn_O, app_nil_r. apply firstn_all2. rewrite length_app. lia.
Qed.


Lemma lookup_last_snoc {A} (l : list A) (x : A) :
  (l ++ [x]) !! pred (length (l ++ [x])) = Some x.
Proof.
  rewrite length_app. simpl. replace (pred (length l + 1)) with (length l + 0) by lia.
  rewrite lookup_app_r by lia. replace (length l + 0 - length l) with 0 by lia.
  reflexivity.
Qed.

Lemma insert_last_snoc {A} (l : list A) (x y : A) :
  <[pred (length (l ++ [x])) := y]> (l ++ [x]) = l ++ [y].
Proof.
  rewrite length_app. simpl. replace (pred (length l + 1)) with (length l + 0) by lia.
  rewrite insert_app_r. reflexivity.
Qed.

Lemma identifierCheck_normal j toks t i tr l ix r st2 :
  identifierCheck (Some j) (mkState (toks ++ [t]) i tr l ix) = Normal (r, st2) ->
  includes reserved (value t) = false /\ r = Some j /\
  exists t', st2 = mkState (toks ++ [t']) i tr l ix /\
    value t' = value t /\ trivia t' = trivia t /\ line t' = line t /\ index t' = index t.
Proof.
  unfold identifierCheck. cbn [tokens lastCharIndex cur_trivia cur_line cur_index].
  rewrite lookup_last_snoc.
  destruct (includes reserved (value t)); [discriminate|].
  destruct (includes nonRegexTerminals (value t)); intros H; inversion H; subst; clear H.
  - rewrite insert_last_snoc. split; [reflexivity|]. split; [reflexivity|].
    eexists. split; [reflexivity|]. simpl. auto.
  - split; [reflexivity|]. split; [reflexivity|]. exists t. auto.
Qed.

Lemma tokenAttempt_word c st r2 st2 :
  str !! lastCharIndex st = Some c -> lastCharIndex st <= length str ->
  tokenAttempt str (Some c) None st = Normal (r2, st2) ->
  (r2 = None /\ st2 = st) \/ pushed str st r2 st2.
Proof.
  intros Hc Hi. unfold tokenAttempt. cbn [test].
  destruct (wordstart c) eqn:Hw.
  - destruct (attempt_cases decimal false st Hi) as [[_ ->]|(v & j & E & Hs & ->)].
    + destruct (attempt_cases integer false st Hi) as [[_ ->]|(v & j & E & Hs & ->)].
      * destruct (attempt_cases identifier false st Hi) as [[_ ->]|(v & j & E & Hs & ->)].
        -- simpl. intros H; inversion H; auto.
        -- intros H. apply identifierCheck_normal in H as (_ & -> & t' & -> & Hv & Ht & Hl & Hx).
           simpl in *. right. exists t', j. rewrite Hv. repeat split; auto; try apply Hs.
           eapply (word_excludes_punctuation identifier); eauto.
      * intros H; inversion H; subst; clear H. right. eexists _, j.
        repeat split; try reflexivity; try apply Hs.
        eapply (word_excludes_punctuation integer); eauto.
    + intros H; inversion H; subst; clear H. right. eexists _, j.
      repeat split; try reflexivity; try apply Hs.
      eapply (word_excludes_punctuation decimal); eauto.
  - destruct (ch 34 c) eqn:Hq.
    + destruct (attempt_cases string_ false st Hi) as [[_ ->]|(v & j & E & Hs & ->)];
        intros H; inversion H; subst; clear H; auto.
      right. eexists _, j. repeat split; try reflexivity; try apply Hs.
      rewrite (drop_S _ _ _ Hc). apply no_punctuation_after_trivia.
      apply N.eqb_eq in Hq. auto.
    + intros H; inversion H; auto.
Qed.

Lemma iteration_step st st' :
  lastCharIndex st < length str ->
  iteration str st = Normal st' ->
  skipped str st st' \/ exists t, emitted str st st' t.
Proof.
  intros Hlt. assert (Hi : lastCharIndex st <= length str) by lia.
  destruct (lookup_lt_is_Some_2 str _ Hlt) as [c Hc].
  unfold iteration. rewrite Hc.
  assert (Htrivia :
    triviaAttempt str (Some c) st = (None, st) \/
    exists v j, slice str (lastCharIndex st) j v /\
      find (startsWith (skipn (lastCharIndex st) str)) punctuations = None /\
      triviaAttempt str (Some c) st =
        (Some j, mkState (tokens st ++ [mkToken (reName_str (if space c then whitespace else comment))
                                          v (cur_trivia st) (Some (cur_line st)) (Some (cur_index st))])
                   (lastCharIndex st) (cur_trivia st) (cur_line st) (cur_index st))).
  { unfold triviaAttempt. cbn [test]. destruct (space c) eqn:Hsp.
    - destruct (attempt_cases whitespace true st Hi) as [[_ ->]|(v & j & E & Hs & ->)]; auto.
      right. exists v, j. repeat split; try apply Hs.
      rewrite (drop_S _ _ _ Hc). apply no_punctuation_after_trivia. auto.
    - destruct (ch 47 c) eqn:Hsl; auto.
      destruct (attempt_cases comment true st Hi) as [[_ ->]|(v & j & E & Hs & ->)]; auto.
      right. exists v, j. repeat split; try apply Hs.
      rewrite (drop_S _ _ _ Hc). apply no_punctuation_after_trivia.
      apply N.eqb_eq in Hsl. auto. }
  destruct Htrivia as [->|(v & j & Hs & Hp & ->)].
  - (* no trivia *)
    destruct (tokenAttempt str (Some c) None st) as [[r2 st2]| |] eqn:T; try discriminate.
    cbn [mbind completion_bind].
    apply (tokenAttempt_word _ _ _ _ Hc Hi) in T as [[-> ->]|(t & j & -> & -> & Ht & Hl & Hx & Hs & Hp)].
    + unfold punctuationAttempt.
      destruct (find _ punctuations) as [p|] eqn:F.
      * apply (punctuation_slice _ _ Hi) in F. cbn.
        intros H; inversion H; subst; clear H. right. eexists.
        unfold emitted; cbn. repeat split; try reflexivity; apply F.
      * destruct (attempt_cases other false st Hi) as [[_ ->]|(v & j & E & Hs & ->)];
          [discriminate|].
        intros H; inversion H; subst; clear H. right. eexists.
        unfold emitted; cbn. repeat split; try reflexivity; apply Hs.
    + unfold punctuationAttempt. cbn [lastCharIndex]. rewrite Hp.
      intros H; inversion H; subst; clear H. right. exists t.
      unfold emitted; cbn. repeat split; auto; apply Hs.
  - (* trivia *)
    unfold tokenAttempt, pop. cbn [tokens]. rewrite last_snoc, removelast_last.
    cbn [mbind completion_bind]. unfold punctuationAttempt. cbn [lastCharIndex].
    rewrite Hp. cbn [value].
    intros H; inversion H; subst; clear H. left. exists v.
    unfold skipped; cbn. repeat split; try reflexivity; try apply Hs. lia.
Qed.


Lemma iteration_progress st st' :
  lastCharIndex st < length str -> iteration str st = Normal st' ->
  lastCharIndex st < lastCharIndex st' <= length str.
Proof.
  intros Hlt H. destruct (iteration_step _ _ Hlt H) as [(v & S)|(t & S)].
  - apply S.
  - apply S.
Qed.

Lemma cover_snoc toks t : cover (toks ++ [t]) = cover toks ++ trivia t ++ value t.
Proof. unfold cover. rewrite flat_map_app. simpl. now rewrite app_nil_r. Qed.

Lemma newlines_nonneg v : (0 <= newlines v)%Z.
Proof. unfold newlines. lia. Qed.

Lemma invariant_initial : invariant str initial.
Proof.
  split; simpl; auto with lia.
  - intros k t H. destruct k; discriminate.
  - intros i j ti tj _ H. destruct i; discriminate.
Qed.

Lemma invariant_iteration st st' :
  invariant str st -> lastCharIndex st < length str ->
  iteration str st = Normal st' -> invariant str st'.
Proof.
  intros [Hc Hcov Hidx Hnum Hlines] Hlt H.
  destruct (iteration_step _ _ Hlt H) as [(v & Ht & Htr & Hl & Hx & Hf & Hj)|
                                          (t & Ht & Htr & Hl & Hx & Htr' & Hl' & Hx' & Hf & Hj)].
  - pose proof (newlines_nonneg v). split.
    + lia.
    + rewrite Ht, Htr, Hf, <- Hcov. now rewrite app_assoc.
    + now rewrite Hx, Ht.
    + rewrite Ht, Hl. intros k t Hk. destruct (Hnum _ _ Hk) as (? & l & ? & ?).
      split; [assumption|]. exists l. split; [assumption|lia].
    + rewrite Ht. exact Hlines.
  - split.
    + lia.
    + rewrite Ht, Htr', Hf, <- Hcov, cover_snoc, Htr, app_nil_r. now rewrite !app_assoc.
    + rewrite Hx', Ht, Hidx, length_app. simpl. lia.
    + rewrite Ht, Hl'. intros k t0 Hk.
      apply lookup_app_Some in Hk as [Hk|[Hge Hk]].
      * exact (Hnum _ _ Hk).
      * apply list_lookup_singleton_Some in Hk as [Hk <-].
        rewrite Hx, Hl, Hidx. split; [f_equal; lia|]. exists (cur_line st). split; [reflexivity|lia].
    + rewrite Ht. intros i j ti tj Hij Hi Hjj.
      apply lookup_app_Some in Hjj as [Hjj|[Hge Hjj]].
      * assert (Hi' : tokens st !! i = Some ti).
        { apply lookup_app_Some in Hi as [Hi|[Hge _]]; [exact Hi|].
          apply lookup_lt_Some in Hjj. lia. }
        exact (Hlines _ _ _ _ Hij Hi' Hjj).
      * apply list_lookup_singleton_Some in Hjj as [Hjj <-].
        apply lookup_app_Some in Hi as [Hi|[Hge' Hi]].
        -- destruct (Hnum _ _ Hi) as (_ & l & Hli & Hle).
           exists l, (cur_line st). auto.
        -- apply list_lookup_singleton_Some in Hi as [_ <-].
           exists (cur_line st), (cur_line st). split; [assumption|]. split; [assumption|lia].
Qed.

Lemma reaches_invariant st : reaches str st -> invariant str st.
Proof.
  induction 1 as [|st st' _ IH Hlt H].
  - apply invariant_initial.
  - eapply invariant_iteration; eauto.
Qed.

Lemma loop_fuel f1 : forall f2 st,
  length str - lastCharIndex st <= f1 -> length str - lastCharIndex st <= f2 ->
  loop str f1 st = loop str f2 st.
Proof.
  induction f1 as [|f1 IH]; intros f2 st H1 H2.
  - destruct f2; simpl; destruct (Nat.ltb_spec (lastCharIndex st) (length str)); try lia; reflexivity.
  - destruct f2; simpl; destruct (Nat.ltb_spec (lastCharIndex st) (length str)); try lia; try reflexivity.
    destruct (iteration str st) as [st'| |] eqn:E; try reflexivity.
    cbn. pose proof (iteration_progress _ _ H E). apply IH; lia.
Qed.

Lemma reaches_loop st :
  reaches str st -> tokenise str = loop str (length str - lastCharIndex st) st.
Proof.
  induction 1 as [|st st' _ IH Hlt H].
  - unfold tokenise. simpl. now rewrite Nat.sub_0_r.
  - rewrite IH. destruct (length str - lastCharIndex st) as [|m] eqn:Em; [lia|].
    simpl. destruct (Nat.ltb_spec (lastCharIndex st) (length str)); [|lia].
    rewrite H. cbn. pose proof (iteration_progress _ _ Hlt H). apply loop_fuel; lia.
Qed.

(** The loop ends, and ends in a state that the loop reached with the cursor
    at the end of the input. *)
Lemma loop_end f : forall st toks,
  reaches str st -> loop str f st = Normal toks ->
  exists st', reaches str st' /\ lastCharIndex st' = length str /\
    toks = tokens st' ++ [eof st'].
Proof.
  induction f as [|f IH]; intros st toks Hr H; simpl in H;
    destruct (Nat.ltb_spec (lastCharIndex st) (length str)) as [Hlt|Hge]; try discriminate.
  - inversion H. exists st. pose proof (inv_cursor _ _ (reaches_invariant _ Hr)).
    repeat split; auto; lia.
  - destruct (iteration str st) as [st1| |] eqn:E; try discriminate.
    cbn in H. eapply IH; [|exact H]. eapply reaches_iteration; eauto.
  - inversion H. exists st. pose proof (inv_cursor _ _ (reaches_invariant _ Hr)).
    repeat split; auto; lia.
Qed.

Lemma tokenAttempt_returns nextChar result st :
  tokenAttempt str nextChar result st <> OutOfFuel.
Proof.
  unfold tokenAttempt, identifierCheck.
  repeat case_match; discriminate.
Qed.

Lemma iteration_returns st : iteration str st <> OutOfFuel.
Proof.
  unfold iteration. destruct (triviaAttempt _ _ _) as [r st1].
  pose proof (tokenAttempt_returns (str !! lastCharIndex st) r st1) as T.
  destruct (tokenAttempt _ _ _ _) as [[r2 st2]| |]; [|discriminate|contradiction].
  cbn. repeat case_match; discriminate.
Qed.

Lemma loop_never_out_of_fuel f : forall st,
  length str - lastCharIndex st <= f -> loop str f st <> OutOfFuel.
Proof.
  induction f as [|f IH]; intros st Hf; simpl;
    destruct (Nat.ltb_spec (lastCharIndex st) (length str)) as [Hlt|Hge]; try lia; try discriminate.
  pose proof (iteration_returns st) as R.
  destruct (iteration str st) as [st1| |] eqn:E; [|discriminate|contradiction].
  cbn. pose proof (iteration_progress _ _ Hlt E). apply IH. lia.
Qed.

End TokeniserSteps.

(** ** The tokeniser as a whole *)

Lemma tokenise_returns (I : jsstring) : tokenise I <> OutOfFuel.
Proof. unfold tokenise. apply loop_never_out_of_fuel. simpl. lia. Qed.

Lemma tokenise_end (I : jsstring) (toks : list TokeniserToken) :
  tokenise I = Normal toks ->
  exists st, invariant I st /\ lastCharIndex st = length I /\ toks = tokens st ++ [eof st].
Proof.
  intros H. unfold tokenise in H.
  apply loop_end in H as (st & Hr & Hend & ->); [|constructor].
  exists st. split; [apply reaches_invariant; exact Hr|]. auto.
Qed.

(** C1: for every input [I] that [tokenise] turns into a token vector, the
    concatenation of trivia and lexeme over the tokens, in order, gives [I]
    back, code unit for code unit; the last token is the [eof] token, whose
    lexeme is empty and whose trivia is the rest of the input. *)
Theorem tokenise_trivia_coverage (I : jsstring) (toks : list TokeniserToken) :
  tokenise I = Normal toks ->
  cover toks = I /\
  exists front eofToken,
    toks = front ++ [eofToken] /\
    type eofToken = js "eof" /\ value eofToken = [] /\
    cover front ++ trivia eofToken = I.
Proof.
  intros H. apply tokenise_end in H as (st & Hinv & Hend & ->).
  pose proof (inv_cover _ _ Hinv) as Hcov.
  rewrite Hend, firstn_all in Hcov.
  split.
  - rewrite cover_snoc. simpl. rewrite app_nil_r. exact Hcov.
  - exists (tokens st), (eof st). simpl. auto.
Qed.

Lemma tokenise_trivia_coverage_witness :
  tokenise sampleInput = Normal sampleTokens /\ cover sampleTokens = sampleInput.
Proof.
  assert (H : tokenise sampleInput = Normal sampleTokens) by (vm_compute; reflexivity).
  split; [exact H|]. apply (tokenise_trivia_coverage sampleInput sampleTokens H).
Defined.

(** C6, as stated, fails at the [eof] token, which the source pushes without
    [index] and [line]: on the empty input the vector is that one token, at
    position 0, and its [index] is not 0. *)
Lemma token_index_eof_counterexample :
  exists toks t,
    tokenise [] = Normal toks /\ toks !! 0 = Some t /\ index t <> Some 0%Z.
Proof.
  exists [mkToken (js "eof") [] [] None None], (mkToken (js "eof") [] [] None None).
  repeat split. discriminate.
Qed.

(** C6 (amended): for every input that tokenises without error, the vector
    is a run of tokens followed by the [eof] token; every token of the run at
    position [k] has [index] [k], every one has a [line], the lines never
    decrease along the run, and the [eof] token has neither field. *)
Theorem tokenise_indices_and_lines (I : jsstring) (toks : list TokeniserToken) :
  tokenise I = Normal toks ->
  exists front eofToken,
    toks = front ++ [eofToken] /\
    type eofToken = js "eof" /\ index eofToken = None /\ line eofToken = None /\
    (forall k t, front !! k = Some t -> index t = Some (Z.of_nat k)) /\
    (forall i j ti tj, i <= j -> front !! i = Some ti -> front !! j = Some tj ->
       exists li lj, line ti = Some li /\ line tj = Some lj /\ (li <= lj)%Z).
Proof.
  intros H. apply tokenise_end in H as (st & Hinv & Hend & ->).
  exists (tokens st), (eof st). simpl. repeat split.
  - intros k t Hk. apply (inv_numbered _ _ Hinv _ _ Hk).
  - apply (inv_lines _ _ Hinv).
Qed.

Lemma tokenise_indices_and_lines_witness :
  tokenise sampleInput = Normal sampleTokens /\
  exists front eofToken,
    sampleTokens = front ++ [eofToken] /\
    (forall k t, front !! k = Some t -> index t = Some (Z.of_nat k)).
Proof.
  assert (H : tokenise sampleInput = Normal sampleTokens) by (vm_compute; reflexivity).
  split; [exact H|].
  destruct (tokenise_indices_and_lines sampleInput sampleTokens H)
    as (front & eofToken & Hsplit & _ & _ & _ & Hidx & _).
  exists front, eofToken. auto.
Defined.

(** ** Reserved identifiers and unterminated strings *)

Lemma jsstring_eqb_eq (a b : jsstring) : jsstring_eqb a b = true <-> a = b.
Proof.
  revert b. induction a as [|x a IH]; intros [|y b]; simpl; split; intros H;
    try reflexivity; try discriminate.
  - apply andb_true_iff in H as [Hx Hab]. apply N.eqb_eq in Hx. apply IH in Hab. congruence.
  - inversion H; subst. rewrite N.eqb_refl. simpl. now apply IH.
Qed.

Lemma includes_In (l : list jsstring) (v : jsstring) : includes l v = true <-> In v l.
Proof.
  unfold includes. rewrite existsb_exists. split.
  - intros (x & Hin & Heq). apply jsstring_eqb_eq in Heq. now subst.
  - intros Hin. exists v. split; [exact Hin|]. now apply jsstring_eqb_eq.
Qed.

(** A match of a sticky expression is a prefix of the input at the cursor. *)
Lemma exec_prefix re str i v j :
  exec re str i = Some (v, j) -> i <= length str ->
  skipn i str = v ++ skipn j str.
Proof.
  intros H Hi. apply exec_slice in H as (Hij & Hj & Hf); [|exact Hi].
  apply (app_inv_head (firstn i str)).
  rewrite firstn_skipn, app_assoc, <- Hf, firstn_skipn. reflexivity.
Qed.

(** No number starts with an underscore or with the letter t. *)
Lemma no_number_at_reserved c s :
  c = 95%N \/ c = 116%N ->
  rmatch re_decimal (c :: s) Some = None /\ rmatch re_integer (c :: s) Some = None.
Proof. intros [->| ->]; split; reflexivity. Qed.

Lemma reserved_first v :
  includes reserved v = true ->
  exists c v', v = c :: v' /\ (c = 95%N \/ c = 116%N).
Proof.
  intros H. apply includes_In in H. simpl in H.
  destruct H as [<-|[<-|[<-|[]]]]; eexists _, _; (split; [reflexivity|]); auto.
Qed.

Lemma iteration_reserved str st v j :
  lastCharIndex st < length str ->
  exec re_identifier str (lastCharIndex st) = Some (v, j) ->
  includes reserved v = true ->
  iteration str st =
    Throw (WebIDLParseError
      (syntaxError
         (tokens st ++ [mkToken (js "identifier") v (cur_trivia st)
                          (Some (cur_line st)) (Some (cur_index st))])
         (length (tokens st)) None
         (unescape v ++ js " is a reserved identifier and must not be used."))).
Proof.
  intros Hlt E Hres.
  assert (Hi : lastCharIndex st <= length str) by lia.
  destruct (reserved_first _ Hres) as (c & v' & -> & Hc).
  pose proof (exec_prefix _ _ _ _ _ E Hi) as Hpre. simpl in Hpre.
  assert (Hnext : str !! lastCharIndex st = Some c).
  { rewrite <- (Nat.add_0_r (lastCharIndex st)), <- lookup_drop.
    change (skipn (lastCharIndex st) str !! 0 = Some c). now rewrite Hpre. }
  destruct (no_number_at_reserved c (v' ++ skipn j str) Hc) as [Hdec Hint].
  unfold iteration. rewrite Hnext.
  assert (Htr : triviaAttempt str (Some c) st = (None, st)).
  { unfold triviaAttempt. destruct Hc as [->| ->]; reflexivity. }
  rewrite Htr.
  assert (Htok : tokenAttempt str (Some c) None st =
    Throw (WebIDLParseError
      (syntaxError
         (tokens st ++ [mkToken (js "identifier") (c :: v') (cur_trivia st)
                          (Some (cur_line st)) (Some (cur_index st))])
         (length (tokens st)) None
         (unescape (c :: v') ++ js " is a reserved identifier and must not be used.")))).
  { unfold tokenAttempt.
    replace (test wordstart (Some c)) with true by (destruct Hc as [->| ->]; reflexivity).
    unfold attemptTokenMatch at 1. unfold exec at 1. cbn [tokenRe]. rewrite Hpre, Hdec.
    unfold attemptTokenMatch at 1. unfold exec at 1. cbn [tokenRe]. rewrite Hpre, Hint.
    unfold attemptTokenMatch. cbn [tokenRe]. rewrite E.
    unfold identifierCheck, flushTrivia, push.
    cbn [tokens lastCharIndex cur_trivia cur_line cur_index].
    rewrite lookup_last_snoc. cbn [value]. rewrite Hres.
    rewrite length_app. simpl. replace (pred (length (tokens st) + 1)) with (length (tokens st)) by lia.
    reflexivity. }
  rewrite Htok. reflexivity.
Qed.

(** C5: whenever the loop of [tokenise] stands at a position at which the
    identifier expression matches a lexeme of the reserved set
    ([_constructor], [toString], [_toString]), [tokenise] throws the syntax
    error whose bare message is the unescaped lexeme followed by
    [ is a reserved identifier and must not be used.]; the lexeme is looked
    up in the reserved set before it is looked up among the keywords. *)
Theorem reserved_identifier_rejected (str : jsstring) (st : state) (v : jsstring) (j : nat) :
  reaches str st ->
  lastCharIndex st < length str ->
  exec re_identifier str (lastCharIndex st) = Some (v, j) ->
  includes reserved v = true ->
  exists e,
    tokenise str = Throw (WebIDLParseError e) /\
    bareMessage e = unescape v ++ js " is a reserved identifier and must not be used." /\
    err_tokens e !! err_position e =
      Some (mkToken (js "identifier") v (cur_trivia st)
              (Some (cur_line st)) (Some (cur_index st))).
Proof.
  intros Hr Hlt E Hres.
  eexists. split; [|split].
  - rewrite (reaches_loop _ _ Hr).
    destruct (length str - lastCharIndex st) as [|m] eqn:Em; [lia|].
    simpl. destruct (Nat.ltb_spec (lastCharIndex st) (length str)); [|lia].
    rewrite (iteration_reserved _ _ _ _ Hlt E Hres). reflexivity.
  - reflexivity.
  - simpl. rewrite lookup_app_r by lia. now rewrite Nat.sub_diag.
Qed.

(** The input [_constructor]: the error names [constructor], although
    [constructor] itself is a keyword. *)
Lemma reserved_identifier_rejected_witness :
  exists e,
    tokenise (js "_constructor") = Throw (WebIDLParseError e) /\
    bareMessage e = js "constructor is a reserved identifier and must not be used." /\
    includes nonRegexTerminals (js "constructor") = true.
Proof.
  destruct (reserved_identifier_rejected (js "_constructor") initial (js "_constructor") 12)
    as (e & He & Hm & _).
  - constructor.
  - simpl. lia.
  - vm_compute. reflexivity.
  - vm_compute. reflexivity.
  - exists e. split; [exact He|]. split; [exact Hm|]. vm_compute. reflexivity.
Defined.

(** C10: at a position where the next code unit is a double quote and the
    string expression does not match, a turn of the loop throws nothing: it
    pushes one token of type [other] whose lexeme is the double quote alone,
    with the pending trivia, and goes on one code unit further. *)
Theorem unterminated_string_is_other (str : jsstring) (st : state) :
  str !! lastCharIndex st = Some 34%N ->
  exec re_string str (lastCharIndex st) = None ->
  iteration str st =
    Normal (mkState
              (tokens st ++ [mkToken (js "other") [34%N] (cur_trivia st)
                               (Some (cur_line st)) (Some (cur_index st))])
              (S (lastCharIndex st)) [] (cur_line st) (cur_index st + 1)).
Proof.
  intros Hc E.
  assert (Hstring : attemptTokenMatch str string_ false st = (None, st)).
  { unfold attemptTokenMatch. cbn [tokenRe]. now rewrite E. }
  assert (Hother : attemptTokenMatch str other false st =
    (Some (S (lastCharIndex st)),
     mkState (tokens st ++ [mkToken (js "other") [34%N] (cur_trivia st)
                              (Some (cur_line st)) (Some (cur_index st))])
             (lastCharIndex st) [] (cur_line st) (cur_index st))).
  { unfold attemptTokenMatch, exec. cbn [tokenRe]. rewrite (drop_S _ _ _ Hc).
    cbn [re_other rmatch]. change (otherchar 34) with true. cbv iota.
    replace (length (34%N :: skipn (S (lastCharIndex st)) str)
             - length (skipn (S (lastCharIndex st)) str)) with 1 by (simpl; lia).
    rewrite Nat.add_1_r. reflexivity. }
  unfold iteration. rewrite Hc.
  unfold triviaAttempt. cbn [test].
  change (space 34) with false. change (ch 47 34) with false. cbv iota.
  unfold tokenAttempt. cbn [test].
  change (wordstart 34) with false. change (ch 34 34) with true. cbv iota.
  rewrite Hstring. cbn [mbind completion_bind].
  unfold punctuationAttempt. rewrite (drop_S _ _ _ Hc).
  rewrite no_punctuation_after_trivia by auto.
  rewrite Hother. reflexivity.
Qed.

Lemma unterminated_string_is_other_witness :
  let str := 34%N :: js "abc" in
  str !! 0 = Some 34%N /\
  iteration str initial =
    Normal (mkState [mkToken (js "other") [34%N] [] (Some 1%Z) (Some 0%Z)] 1 [] 1 1) /\
  tokenise str =
    Normal [mkToken (js "other") [34%N] [] (Some 1%Z) (Some 0%Z);
            mkToken (js "identifier") (js "abc") [] (Some 1%Z) (Some 1%Z);
            mkToken (js "eof") [] [] None None].
Proof.
  intros str. split; [reflexivity|]. split.
  - apply (unterminated_string_is_other str initial); vm_compute; reflexivity.
  - vm_compute. reflexivity.
Defined.

(** ** Attribute types *)

(** C4: once [Attribute.parse] has consumed the [attribute] keyword and the
    type parser has produced a type whose generic is [sequence] or [record],
    the parse throws the syntax error [Attributes cannot accept sequence
    types] (or [record]) at the cursor behind the type; hence no attribute
    that [parse] returns has such a type. *)
Theorem attribute_rejects_sequence_and_record
    (ExtendedAttributes_parse : Tokeniser -> completion (ExtendedAttributes * Tokeniser))
    (Type_parse : Tokeniser -> jsstring -> completion (option IdlType * Tokeniser))
    (tokeniser : Tokeniser) (opts : Attribute.Options) :
  (forall tokens0 tokeniser1 ty tokeniser2,
     Attribute.parseHead tokeniser opts = Normal (tokens0, tokeniser1) ->
     is_Some (Attribute.base tokens0) ->
     Attribute.type_with_extended_attributes ExtendedAttributes_parse Type_parse
       tokeniser1 (js "attribute-type") = Normal (Some ty, tokeniser2) ->
     generic ty = js "sequence" \/ generic ty = js "record" ->
     Attribute.parse ExtendedAttributes_parse Type_parse tokeniser opts =
       Throw (WebIDLParseError
                (syntaxError (source tokeniser2) (position tokeniser2) (current tokeniser2)
                   (js "Attributes cannot accept " ++ generic ty ++ js " types")))) /\
  (forall attr tokeniser',
     Attribute.parse ExtendedAttributes_parse Type_parse tokeniser opts =
       Normal (Some attr, tokeniser') ->
     generic (Attribute.idlType attr) <> js "sequence" /\
     generic (Attribute.idlType attr) <> js "record").
Proof.
  split.
  - intros tokens0 tokeniser1 ty tokeniser2 Hhead [b Hb] Hty Hgen.
    unfold Attribute.parse. rewrite Hhead. cbn [mbind completion_bind].
    rewrite Hb, Hty. cbn [mbind completion_bind Attribute.orError].
    assert (Hg : jsstring_eqb (generic ty) (js "sequence")
                 || jsstring_eqb (generic ty) (js "record") = true).
    { apply orb_true_iff. destruct Hgen as [Hg|Hg]; [left|right]; now apply jsstring_eqb_eq. }
    rewrite Hg. reflexivity.
  - intros attr tokeniser' H. unfold Attribute.parse in H.
    destruct (Attribute.parseHead tokeniser opts) as [[tokens0 tokeniser1]| |]; try discriminate.
    cbn [mbind completion_bind] in H.
    destruct (Attribute.base tokens0); [|discriminate].
    destruct (Attribute.type_with_extended_attributes _ _ _ _) as [[ty tokeniser2]| |];
      try discriminate.
    cbn [mbind completion_bind] in H.
    destruct ty as [ty|]; [|discriminate]. cbn [mbind completion_bind Attribute.orError] in H.
    destruct (jsstring_eqb (generic ty) (js "sequence")
              || jsstring_eqb (generic ty) (js "record")) eqn:Hg; [discriminate|].
    cbn [mbind completion_bind] in H.
    destruct (consume tokeniser2 _) as [[nameTok|] tokeniser3]; [|discriminate].
    cbn [mbind completion_bind Attribute.orError] in H.
    destruct (consume tokeniser3 _) as [[termTok|] tokeniser4]; [|discriminate].
    cbn [mbind completion_bind Attribute.orError] in H.
    inversion H; subst; clear H. cbn [Attribute.idlType].
    apply orb_false_iff in Hg as [Hs Hr].
    split; intros Heq; apply jsstring_eqb_eq in Heq; congruence.
Qed.

Lemma attribute_rejects_sequence_and_record_witness :
  Attribute.parse noExtendedAttributes sequenceTypeOnly sampleAttributeTokeniser
    Attribute.defaultOptions =
  Throw (WebIDLParseError
           (syntaxError (source sampleAttributeTokeniser) 5 None
              (js "Attributes cannot accept sequence types"))).
Proof.
  apply (proj1 (attribute_rejects_sequence_and_record noExtendedAttributes sequenceTypeOnly
                  sampleAttributeTokeniser Attribute.defaultOptions)
           (Attribute.mkTokens None None (source sampleAttributeTokeniser !! 0) None None)
           (unconsume sampleAttributeTokeniser 1)
           (set_extAttrs sequenceOfLong (mkExtAttrs [] None None))
           (unconsume sampleAttributeTokeniser 5)).
  - vm_compute. reflexivity.
  - vm_compute. eexists. reflexivity.
  - vm_compute. reflexivity.
  - left. vm_compute. reflexivity.
Defined.

(** ** Validation rules of operations and interfaces *)

Lemma incomplete_iff {Argument} (this : Operation.Operation Argument) :
  Operation.incomplete this = true <->
  Operation.get_name this = [] /\
  (Operation.get_special this = [] \/ Operation.get_special this = js "static").
Proof.
  unfold Operation.incomplete. rewrite andb_true_iff, jsstring_eqb_eq, includes_In.
  simpl. intuition congruence.
Qed.

(** C7: provided the validators of the return type and of the arguments
    yield no [incomplete-op] of their own, [Operation.validate] yields a
    diagnostic of kind [incomplete-op] exactly when the operation has no name
    and its special is empty or [static]; that diagnostic is bound to the
    [open] token; a nameless getter, setter, deleter or stringifier yields
    none. *)
Theorem operation_incomplete_op {Argument : Type}
    (Type_validate : Definitions -> IdlType -> list (Diagnostic (Operation.Operation Argument)))
    (Argument_validate : Definitions -> Argument -> list (Diagnostic (Operation.Operation Argument)))
    (defs : Definitions) (this : Operation.Operation Argument) :
  (forall ty d, In d (Type_validate defs ty) -> ruleName d <> js "incomplete-op") ->
  (forall a d, In d (Argument_validate defs a) -> ruleName d <> js "incomplete-op") ->
  let yielded := Operation.validate Type_validate Argument_validate defs this in
  ((exists d, In d yielded /\ ruleName d = js "incomplete-op") <->
   (Operation.get_name this = [] /\
    (Operation.get_special this = [] \/ Operation.get_special this = js "static"))) /\
  (forall d, In d yielded -> ruleName d = js "incomplete-op" ->
     diag_token d = Operation.open (Operation.tokens this)) /\
  (In (Operation.get_special this)
      [js "getter"; js "setter"; js "deleter"; js "stringifier"] ->
   forall d, In d yielded -> ruleName d <> js "incomplete-op").
Proof.
  intros HT HA yielded.
  assert (Hown : forall d, In d yielded -> ruleName d = js "incomplete-op" ->
            Operation.incomplete this = true /\
            diag_token d = Operation.open (Operation.tokens this)).
  { intros d Hin Hrule. unfold yielded, Operation.validate in Hin.
    rewrite !in_app_iff in Hin. destruct Hin as [Hin|[Hin|Hin]].
    - destruct (Operation.incomplete this); [|destruct Hin].
      destruct Hin as [<-|[]]. auto.
    - destruct (Operation.idlType this) as [ty|]; [|destruct Hin].
      exfalso. exact (HT _ _ Hin Hrule).
    - apply in_flat_map in Hin as (a & _ & Hin). exfalso. exact (HA _ _ Hin Hrule). }
  split; [split|split].
  - intros (d & Hin & Hrule). apply incomplete_iff. exact (proj1 (Hown d Hin Hrule)).
  - intros Hcond. apply incomplete_iff in Hcond.
    eexists. split.
    + unfold yielded, Operation.validate. rewrite Hcond. left. reflexivity.
    + reflexivity.
  - intros d Hin Hrule. exact (proj2 (Hown d Hin Hrule)).
  - intros Hsp d Hin Hrule. destruct (Hown d Hin Hrule) as [Hinc _].
    apply incomplete_iff in Hinc as [_ [Hs|Hs]]; rewrite Hs in Hsp; simpl in Hsp;
      intuition discriminate.
Qed.

Lemma named_iff (n : string) (extAttr : SimpleExtendedAttribute) :
  Interface.named n extAttr = true <-> ea_name extAttr = js n.
Proof. unfold Interface.named. apply jsstring_eqb_eq. Qed.

Lemma lacksExposed_iff (this : Interface.Interface) :
  Interface.lacksExposed this = true <->
  Interface.get_partial this = false /\
  (forall extAttr, In extAttr (ea_items (Interface.extAttrs this)) ->
     ea_name extAttr <> js "Exposed" /\ ea_name extAttr <> js "NoInterfaceObject").
Proof.
  unfold Interface.lacksExposed.
  rewrite !andb_true_iff, negb_true_iff, !forallb_forall. split.
  - intros [[Hp He] Hn]. split; [exact Hp|]. intros x Hx.
    specialize (He x Hx). specialize (Hn x Hx).
    rewrite negb_true_iff in He, Hn.
    split; intros Heq; apply named_iff in Heq; congruence.
  - intros [Hp H]. repeat split; [exact Hp| |]; intros x Hx;
      destruct (H x Hx) as [He Hn]; apply negb_true_iff;
      destruct (Interface.named _ x) eqn:E; try reflexivity;
      apply named_iff in E; contradiction.
Qed.

Lemma lacksExposed_named def e :
  In e (ea_items (Interface.extAttrs def)) -> ea_name e = js "Exposed" ->
  Interface.lacksExposed def = false.
Proof.
  intros Hin He. destruct (Interface.lacksExposed def) eqn:E; [|reflexivity].
  apply lacksExposed_iff in E as [_ H]. destruct (H e Hin) as [Hne _]. contradiction.
Qed.

(** What the autofix does when the interface has extended attributes: the
    attribute read from [Exposed=Window,] is put first, with the comma as
    its separator. *)
Lemma autofixAddExposedWindow_splices
    (SimpleExtendedAttribute_parse :
       Tokeniser -> completion (option SimpleExtendedAttribute * Tokeniser))
    (ExtendedAttributes_parse : Tokeniser -> completion (ExtendedAttributes * Tokeniser))
    (this : Interface.Interface) (tk : Tokeniser) (exposed : SimpleExtendedAttribute)
    (tk' : Tokeniser) (existing : SimpleExtendedAttribute)
    (others : list SimpleExtendedAttribute) :
  newTokeniser (js "Exposed=Window,") = Normal tk ->
  SimpleExtendedAttribute_parse tk = Normal (Some exposed, tk') ->
  ea_items (Interface.extAttrs this) = existing :: others ->
  exists def' existing',
    Interface.autofixAddExposedWindow SimpleExtendedAttribute_parse ExtendedAttributes_parse
      this tt = Normal def' /\
    Interface.tokens def' = Interface.tokens this /\
    Interface.members def' = Interface.members this /\
    ea_open (Interface.extAttrs def') = ea_open (Interface.extAttrs this) /\
    ea_close (Interface.extAttrs def') = ea_close (Interface.extAttrs this) /\
    ea_items (Interface.extAttrs def') =
      mkExtAttr (ea_name exposed) (ea_tokens_name exposed) (consume tk' [js ","]).1
      :: existing' :: others /\
    (test Interface.jsWhiteSpace (head (trivia (ea_tokens_name existing))) = true /\
     existing' = existing \/
     test Interface.jsWhiteSpace (head (trivia (ea_tokens_name existing))) = false /\
     existing' = mkExtAttr (ea_name existing)
                   (Interface.set_trivia (ea_tokens_name existing)
                      (32%N :: trivia (ea_tokens_name existing)))
                   (ea_tokens_separator existing)) /\
    (ea_name exposed = js "Exposed" -> Interface.lacksExposed def' = false).
Proof.
  intros Htk Hp Hitems. unfold Interface.autofixAddExposedWindow.
  rewrite Hitems, Htk. cbn [mbind completion_bind]. rewrite Hp.
  cbn [mbind completion_bind].
  destruct (consume tk' [js ","]) as [separator tk''] eqn:Hc.
  eexists _, _. split; [reflexivity|]. cbn [Interface.tokens Interface.members
    Interface.extAttrs ea_open ea_close ea_items fst].
  split; [reflexivity|]. split; [reflexivity|]. split; [reflexivity|].
  split; [reflexivity|]. split; [reflexivity|]. split.
  - destruct (test Interface.jsWhiteSpace (head (trivia (ea_tokens_name existing))));
      [left|right]; split; reflexivity.
  - intros Hname.
    apply (lacksExposed_named _ (mkExtAttr (ea_name exposed) (ea_tokens_name exposed)
                                   separator)); [left; reflexivity|exact Hname].
Qed.

(** What the autofix does when the interface has no extended attributes:
    the block read from [[Exposed=Window]] becomes the block of the
    interface; its opening bracket takes the trivia of the keyword, and the
    keyword goes to a line of its own with the indentation it had. *)
Lemma autofixAddExposedWindow_creates
    (SimpleExtendedAttribute_parse :
       Tokeniser -> completion (option SimpleExtendedAttribute * Tokeniser))
    (ExtendedAttributes_parse : Tokeniser -> completion (ExtendedAttributes * Tokeniser))
    (this : Interface.Interface) (tk : Tokeniser) (parsed : ExtendedAttributes)
    (tk' : Tokeniser) (baseTok openTok : TokeniserToken) :
  newTokeniser (js "[Exposed=Window]") = Normal tk ->
  ExtendedAttributes_parse tk = Normal (parsed, tk') ->
  ea_items (Interface.extAttrs this) = [] ->
  Interface.base (Interface.tokens this) = Some baseTok ->
  ea_open parsed = Some openTok ->
  exists def',
    Interface.autofixAddExposedWindow SimpleExtendedAttribute_parse ExtendedAttributes_parse
      this tt = Normal def' /\
    Interface.members def' = Interface.members this /\
    Interface.partial (Interface.tokens def') = Interface.partial (Interface.tokens this) /\
    Interface.name (Interface.tokens def') = Interface.name (Interface.tokens this) /\
    Interface.base (Interface.tokens def') =
      Some (Interface.set_trivia baseTok
              (10%N :: Interface.getLastIndentation (trivia baseTok))) /\
    Interface.extAttrs def' =
      mkExtAttrs (ea_items parsed) (Some (Interface.set_trivia openTok (trivia baseTok)))
        (ea_close parsed) /\
    (forall e, In e (ea_items parsed) -> ea_name e = js "Exposed" ->
       Interface.lacksExposed def' = false).
Proof.
  intros Htk Hp Hitems Hbase Hopen. unfold Interface.autofixAddExposedWindow.
  rewrite Hitems, Htk. cbn [mbind completion_bind]. rewrite Hp.
  cbn [mbind completion_bind]. rewrite Hbase, Hopen.
  eexists. split; [reflexivity|]. cbn [Interface.tokens Interface.members
    Interface.extAttrs Interface.partial Interface.name Interface.base].
  split; [reflexivity|]. split; [reflexivity|]. split; [reflexivity|].
  split; [reflexivity|]. split; [reflexivity|].
  intros e Hin Hname. apply (lacksExposed_named _ e); [exact Hin|exact Hname].
Qed.

(** C8: provided the validators that [Interface.validate] delegates to (of
    the extended attributes, of the container, of member duplication) yield
    no [require-exposed] of their own, [Interface.validate] yields a
    diagnostic of kind [require-exposed] exactly when the interface is not
    partial and none of its extended attributes is named [Exposed] or
    [NoInterfaceObject]; that diagnostic is bound to the name token and
    carries the autofix [autofixAddExposedWindow] of the interface.

    That autofix inserts [[Exposed=Window]]. On an interface that has
    extended attributes it returns the interface with the attribute that the
    parser of simple extended attributes reads from [Exposed=Window,] put
    first, its separator being what [consume(",")] gives behind it; the
    attribute that was first gets a space before its name unless its trivia
    starts with white space; the other attributes, the brackets, the tokens
    and the members stay. On an interface without extended attributes, with
    its keyword token, it returns the interface with the block that the
    parser of extended attributes reads from [[Exposed=Window]], provided
    the block has its opening bracket: the bracket takes the trivia of the
    keyword, the keyword gets a line feed and its last indentation. In both
    cases the returned interface no longer lacks [Exposed] when the parser
    has read an attribute of that name. *)
Theorem interface_require_exposed
    (SimpleExtendedAttribute_parse :
       Tokeniser -> completion (option SimpleExtendedAttribute * Tokeniser))
    (ExtendedAttributes_parse : Tokeniser -> completion (ExtendedAttributes * Tokeniser))
    (autofixConstructor :
       Interface.Interface -> SimpleExtendedAttribute -> unit -> completion Interface.Interface)
    (ExtendedAttributes_validate :
       Definitions -> ExtendedAttributes -> list (Diagnostic Interface.Interface))
    (Container_validate checkInterfaceMemberDuplication :
       Definitions -> Interface.Interface -> list (Diagnostic Interface.Interface))
    (defs : Definitions) (this : Interface.Interface) :
  (forall d, In d (ExtendedAttributes_validate defs (Interface.extAttrs this)) ->
     ruleName d <> js "require-exposed") ->
  (forall d, In d (Container_validate defs this) -> ruleName d <> js "require-exposed") ->
  (forall d, In d (checkInterfaceMemberDuplication defs this) ->
     ruleName d <> js "require-exposed") ->
  let yielded :=
    Interface.validate SimpleExtendedAttribute_parse ExtendedAttributes_parse
      autofixConstructor ExtendedAttributes_validate Container_validate
      checkInterfaceMemberDuplication defs this in
  ((exists d, In d yielded /\ ruleName d = js "require-exposed") <->
   (Interface.get_partial this = false /\
    forall extAttr, In extAttr (ea_items (Interface.extAttrs this)) ->
      ea_name extAttr <> js "Exposed" /\ ea_name extAttr <> js "NoInterfaceObject")) /\
  (forall d, In d yielded -> ruleName d = js "require-exposed" ->
     diag_token d = Interface.name (Interface.tokens this) /\
     autofix d = Some (Interface.autofixAddExposedWindow SimpleExtendedAttribute_parse
                         ExtendedAttributes_parse this)) /\
  (forall tk exposed tk' existing others,
     newTokeniser (js "Exposed=Window,") = Normal tk ->
     SimpleExtendedAttribute_parse tk = Normal (Some exposed, tk') ->
     ea_items (Interface.extAttrs this) = existing :: others ->
     exists def' existing',
       Interface.autofixAddExposedWindow SimpleExtendedAttribute_parse
         ExtendedAttributes_parse this tt = Normal def' /\
       Interface.tokens def' = Interface.tokens this /\
       Interface.members def' = Interface.members this /\
       ea_open (Interface.extAttrs def') = ea_open (Interface.extAttrs this) /\
       ea_close (Interface.extAttrs def') = ea_close (Interface.extAttrs this) /\
       ea_items (Interface.extAttrs def') =
         mkExtAttr (ea_name exposed) (ea_tokens_name exposed) (consume tk' [js ","]).1
         :: existing' :: others /\
       (test Interface.jsWhiteSpace (head (trivia (ea_tokens_name existing))) = true /\
        existing' = existing \/
        test Interface.jsWhiteSpace (head (trivia (ea_tokens_name existing))) = false /\
        existing' = mkExtAttr (ea_name existing)
                      (Interface.set_trivia (ea_tokens_name existing)
                         (32%N :: trivia (ea_tokens_name existing)))
                      (ea_tokens_separator existing)) /\
       (ea_name exposed = js "Exposed" -> Interface.lacksExposed def' = false)) /\
  (forall tk parsed tk' baseTok openTok,
     newTokeniser (js "[Exposed=Window]") = Normal tk ->
     ExtendedAttributes_parse tk = Normal (parsed, tk') ->
     ea_items (Interface.extAttrs this) = [] ->
     Interface.base (Interface.tokens this) = Some baseTok ->
     ea_open parsed = Some openTok ->
     exists def',
       Interface.autofixAddExposedWindow SimpleExtendedAttribute_parse
         ExtendedAttributes_parse this tt = Normal def' /\
       Interface.members def' = Interface.members this /\
       Interface.partial (Interface.tokens def')
         = Interface.partial (Interface.tokens this) /\
       Interface.name (Interface.tokens def') = Interface.name (Interface.tokens this) /\
       Interface.base (Interface.tokens def') =
         Some (Interface.set_trivia baseTok
                 (10%N :: Interface.getLastIndentation (trivia baseTok))) /\
       Interface.extAttrs def' =
         mkExtAttrs (ea_items parsed)
           (Some (Interface.set_trivia openTok (trivia baseTok))) (ea_close parsed) /\
       (forall e, In e (ea_items parsed) -> ea_name e = js "Exposed" ->
          Interface.lacksExposed def' = false)).
Proof.
  intros HE HC HD yielded.
  assert (Hown : forall d, In d yielded -> ruleName d = js "require-exposed" ->
            Interface.lacksExposed this = true /\
            diag_token d = Interface.name (Interface.tokens this) /\
            autofix d = Some (Interface.autofixAddExposedWindow SimpleExtendedAttribute_parse
                                ExtendedAttributes_parse this)).
  { intros d Hin Hrule. unfold yielded, Interface.validate in Hin.
    rewrite !in_app_iff in Hin. destruct Hin as [Hin|[Hin|[Hin|[Hin|[Hin|Hin]]]]].
    - exfalso. exact (HE _ Hin Hrule).
    - destruct (Interface.lacksExposed this); [|destruct Hin].
      destruct Hin as [<-|[]]. auto.
    - apply in_map_iff in Hin as (x & <- & _). discriminate Hrule.
    - destruct (existsb _ _); [|destruct Hin].
      rewrite in_app_iff in Hin. destruct Hin as [Hin|Hin];
        apply in_map_iff in Hin as (x & <- & _); discriminate Hrule.
    - exfalso. exact (HC _ Hin Hrule).
    - destruct (negb _); [|destruct Hin]. exfalso. exact (HD _ Hin Hrule). }
  split; [split|split; [|split]].
  - intros (d & Hin & Hrule). apply lacksExposed_iff. exact (proj1 (Hown d Hin Hrule)).
  - intros Hcond. apply lacksExposed_iff in Hcond.
    eexists. split.
    + unfold yielded, Interface.validate. rewrite Hcond.
      apply in_or_app. right. left. reflexivity.
    + reflexivity.
  - intros d Hin Hrule. exact (proj2 (Hown d Hin Hrule)).
  - intros tk exposed tk' existing others.
    apply autofixAddExposedWindow_splices.
  - intros tk parsed tk' baseTok openTok.
    apply autofixAddExposedWindow_creates.
Qed.

Lemma operation_incomplete_op_witness :
  (exists d,
     In d (Operation.validate yieldNothing yieldNothing noDefinitions (namelessOperation None)) /\
     ruleName d = js "incomplete-op") /\
  (forall d,
     In d (Operation.validate yieldNothing yieldNothing noDefinitions
             (namelessOperation (sampleOperationTokens !! 0))) ->
     ruleName d <> js "incomplete-op").
Proof.
  split.
  - apply (proj1 (operation_incomplete_op (Argument := unit) yieldNothing yieldNothing
                    noDefinitions (namelessOperation None)
                    (fun _ _ H => False_ind _ H) (fun _ _ H => False_ind _ H))).
    split; [reflexivity|left; reflexivity].
  - apply (proj2 (proj2 (operation_incomplete_op (Argument := unit) yieldNothing yieldNothing
                    noDefinitions (namelessOperation (sampleOperationTokens !! 0))
                    (fun _ _ H => False_ind _ H) (fun _ _ H => False_ind _ H)))).
    left. reflexivity.
Defined.

Lemma interface_require_exposed_witness :
  (exists d,
     In d (Interface.validate nameEqualsValue oneBracketedAttribute noAutofix
             yieldNothing yieldNothing yieldNothing noDefinitions sampleInterface) /\
     ruleName d = js "require-exposed" /\
     autofix d = Some (Interface.autofixAddExposedWindow nameEqualsValue
                         oneBracketedAttribute sampleInterface)) /\
  (Interface.autofixAddExposedWindow nameEqualsValue oneBracketedAttribute
     sampleInterface tt = Normal createdInterface /\
   map ea_name (ea_items (Interface.extAttrs createdInterface)) = [js "Exposed"] /\
   option_map trivia (Interface.base (Interface.tokens createdInterface)) = Some [10%N] /\
   Interface.lacksExposed createdInterface = false) /\
  (Interface.autofixAddExposedWindow nameEqualsValue oneBracketedAttribute
     secureInterface tt = Normal exposedInterface /\
   map ea_name (ea_items (Interface.extAttrs exposedInterface))
     = [js "Exposed"; js "SecureContext"] /\
   option_map (fun e => option_map type (ea_tokens_separator e))
     (head (ea_items (Interface.extAttrs exposedInterface))) = Some (Some (js ",")) /\
   Interface.lacksExposed exposedInterface = false).
Proof.
  pose proof (interface_require_exposed nameEqualsValue oneBracketedAttribute noAutofix
                yieldNothing yieldNothing yieldNothing noDefinitions sampleInterface
                (fun _ H => False_ind _ H) (fun _ H => False_ind _ H)
                (fun _ H => False_ind _ H)) as (Hiff & Hbound & _ & Hcreate).
  pose proof (interface_require_exposed nameEqualsValue oneBracketedAttribute noAutofix
                yieldNothing yieldNothing yieldNothing noDefinitions secureInterface
                (fun _ H => False_ind _ H) (fun _ H => False_ind _ H)
                (fun _ H => False_ind _ H)) as (_ & _ & Hsplice & _).
  split; [|split].
  - destruct (proj2 Hiff) as (d & Hin & Hrule).
    { split; [reflexivity|]. intros extAttr []. }
    destruct (Hbound d Hin Hrule) as [_ Hfix].
    exists d. split; [exact Hin|]. split; [exact Hrule|exact Hfix].
  - assert (Htk : newTokeniser (js "[Exposed=Window]")
                  = Normal (mkTokeniser bracketedExposedTokens 0 None))
      by (vm_compute; reflexivity).
    assert (Hp : oneBracketedAttribute (mkTokeniser bracketedExposedTokens 0 None)
                 = Normal (bracketedExposed, mkTokeniser bracketedExposedTokens 5 None))
      by (vm_compute; reflexivity).
    destruct (Hcreate (mkTokeniser bracketedExposedTokens 0 None) bracketedExposed
                (mkTokeniser bracketedExposedTokens 5 None)
                (tok "interface" "interface" "" 1 0) (tok "[" "[" "" 1 0)
                Htk Hp eq_refl eq_refl eq_refl)
      as (def' & Hfix & _ & _ & _ & _ & _ & Hexposed).
    assert (Hc : Interface.autofixAddExposedWindow nameEqualsValue oneBracketedAttribute
                   sampleInterface tt = Normal createdInterface)
      by (vm_compute; reflexivity).
    assert (def' = createdInterface) as -> by congruence.
    split; [exact Hc|]. split; [reflexivity|]. split; [reflexivity|].
    apply (Hexposed (mkExtAttr (js "Exposed") (tok "identifier" "Exposed" "" 1 1) None));
      [left; reflexivity|reflexivity].
  - assert (Htk : newTokeniser (js "Exposed=Window,")
                  = Normal (mkTokeniser exposedWindowCommaTokens 0 None))
      by (vm_compute; reflexivity).
    assert (Hp : nameEqualsValue (mkTokeniser exposedWindowCommaTokens 0 None)
                 = Normal (Some (mkExtAttr (js "Exposed")
                                   (tok "identifier" "Exposed" "" 1 0) None),
                           mkTokeniser exposedWindowCommaTokens 3 None))
      by (vm_compute; reflexivity).
    destruct (Hsplice (mkTokeniser exposedWindowCommaTokens 0 None)
                (mkExtAttr (js "Exposed") (tok "identifier" "Exposed" "" 1 0) None)
                (mkTokeniser exposedWindowCommaTokens 3 None)
                (mkExtAttr (js "SecureContext")
                   (tok "identifier" "SecureContext" "" 1 1) None) []
                Htk Hp eq_refl)
      as (def' & existing' & Hfix & _ & _ & _ & _ & _ & _ & Hexposed).
    assert (Hc : Interface.autofixAddExposedWindow nameEqualsValue oneBracketedAttribute
                   secureInterface tt = Normal exposedInterface)
      by (vm_compute; reflexivity).
    assert (def' = exposedInterface) as -> by congruence.
    split; [exact Hc|]. split; [reflexivity|]. split; [reflexivity|].
    exact (Hexposed eq_refl).
Defined.

(** ** The analyses across calls that share the cache *)

(** C2 fails on the code: with the cache that the first call leaves behind,
    the second call on the same dictionary gives another result. The first
    call returns [true] from inside the inheritance branch and leaves the
    entry of the dictionary at [undefined]; the second call finds the entry
    and returns it. *)
Lemma dictionaryIncludesRequiredField_differs_across_calls :
  exists defs1,
    Helpers.dictionaryIncludesRequiredField orphanDictionary orphanDefinitions
      = Normal (Some true, defs1) /\
    Helpers.dictionaryIncludesRequiredField orphanDictionary defs1
      = Normal (None, defs1).
Proof.
  exists (Helpers.set_dictionaryIncludesRequiredField orphanDictionary None orphanDefinitions).
  split; vm_compute; reflexivity.
Qed.

(** The typedef analysis also answers differently the second time: the
    first call gives the queried type as [reference], the second the cached
    inner result, whose [reference] is the target of the typedef. *)
Lemma idlTypeIncludesDictionary_differs_across_calls :
  exists defs1,
    Helpers.idlTypeIncludesDictionary (namedType 13 "T") plainDefinitions false
      = Normal (Some (mkIdlTypeDictionary (namedType 13 "T") plainDictionary), defs1) /\
    Helpers.idlTypeIncludesDictionary (namedType 13 "T") defs1 false
      = Normal (Some (mkIdlTypeDictionary (namedType 12 "D") plainDictionary), defs1).
Proof.
  exists (Helpers.set_typedefIncludesDictionary plainTypedef
            (Some (mkIdlTypeDictionary (namedType 12 "D") plainDictionary)) plainDefinitions).
  split; vm_compute; reflexivity.
Qed.

(** On a dictionary that has no cache entry yet and whose [inheritance]
    names no definition, the answer is [true], whatever its members. *)
Lemma unknown_parent_first_call (dict : Def) (defs : Definitions) (parent : jsstring) :
  dictionaryIncludesRequiredField (cache defs) !! def_id dict = None ->
  Helpers.truthy_string (inheritance dict) = Some parent ->
  unique defs !! parent = None ->
  Helpers.dictionaryIncludesRequiredField dict defs =
    Normal (Some true, Helpers.set_dictionaryIncludesRequiredField dict None defs).
Proof.
  intros Hc Hp Hu. unfold Helpers.dictionaryIncludesRequiredField.
  rewrite Nat.add_comm. simpl. rewrite Hc, Hp. simpl. rewrite Hu. reflexivity.
Qed.

(** C9 fails on the code for the same reason as C2: the dictionary inherits
    from a name that no definition has (and even has a required member), the
    first call returns [true], and the second call, on the cache that the
    first one left, returns [undefined]. *)
Lemma unknown_parent_second_call_undefined :
  unique orphanDefinitions !! js "Missing" = None /\
  inheritance orphanDictionary = Some (js "Missing") /\
  exists defs1,
    Helpers.dictionaryIncludesRequiredField orphanDictionary orphanDefinitions
      = Normal (Some true, defs1) /\
    unique defs1 = unique orphanDefinitions /\
    Helpers.dictionaryIncludesRequiredField orphanDictionary defs1 <> Normal (Some true, defs1).
Proof.
  split; [vm_compute; reflexivity|]. split; [reflexivity|].
  exists (Helpers.set_dictionaryIncludesRequiredField orphanDictionary None orphanDefinitions).
  split; [vm_compute; reflexivity|]. split; [reflexivity|].
  intros H. vm_compute in H. discriminate H.
Qed.

(** ** Termination of the analyses *)
Section Termination.

Lemma elem_of_identities (defs : Definitions) (name : jsstring) (def : Def) :
  unique defs !! name = Some def -> def_id def ∈ Helpers.identities defs.
Proof.
  intros H. unfold Helpers.identities, Helpers.defsOf. apply elem_of_list_to_set.
  apply list_elem_of_fmap. exists def. split; [reflexivity|].
  apply list_elem_of_fmap. exists (name, def). split; [reflexivity|].
  now apply elem_of_map_to_list.
Qed.

Lemma uncached_le {V} (defs : Definitions) (c : gmap nat V) :
  uncached defs c <= size (Helpers.identities defs).
Proof. apply subseteq_size. set_solver. Qed.

Lemma uncached_mono {V} (defs : Definitions) (c c' : gmap nat V) :
  dom c ⊆ dom c' -> uncached defs c' <= uncached defs c.
Proof. intros H. apply subseteq_size. set_solver. Qed.

Lemma uncached_insert {V} (defs : Definitions) (c : gmap nat V) (i : nat) (v : V) :
  i ∈ Helpers.identities defs -> c !! i = None ->
  uncached defs (<[i := v]> c) < uncached defs c.
Proof.
  intros Hi Hc. apply subset_size. rewrite dom_insert_L.
  apply not_elem_of_dom in Hc. set_solver.
Qed.

Lemma identities_set_dict dict v defs :
  Helpers.identities (Helpers.set_dictionaryIncludesRequiredField dict v defs) = Helpers.identities defs.
Proof. reflexivity. Qed.

(** A dictionary of the index needs one unit of fuel more than there are
    definitions without an entry. *)
Lemma dictionaryIncludesRequiredField_rec_returns fuel : forall dict defs,
  def_id dict ∈ Helpers.identities defs ->
  uncached defs (dictionaryIncludesRequiredField (cache defs)) < fuel ->
  Helpers.dictionaryIncludesRequiredField_rec fuel dict defs <> OutOfFuel /\
  forall r defs', Helpers.dictionaryIncludesRequiredField_rec fuel dict defs = Normal (r, defs') ->
    unique defs' = unique defs.
Proof.
  induction fuel as [|fuel IH]; intros dict defs Hin Hf; [lia|].
  simpl.
  destruct (dictionaryIncludesRequiredField (cache defs) !! def_id dict) as [cached|] eqn:Hc.
  { split; [discriminate|]. intros r defs' H. now inversion H. }
  pose proof (uncached_insert defs _ _ (None : option bool) Hin Hc) as Hlt.
  set (defs1 := Helpers.set_dictionaryIncludesRequiredField dict None defs).
  assert (Hown : forall d, unique d = unique defs ->
            match members dict with
            | Some members0 =>
                Normal (Some (existsb required members0),
                        Helpers.set_dictionaryIncludesRequiredField dict
                          (Some (existsb required members0)) d)
            | None => Throw TypeError
            end <> OutOfFuel /\
            forall r defs',
              match members dict with
              | Some members0 =>
                  Normal (Some (existsb required members0),
                          Helpers.set_dictionaryIncludesRequiredField dict
                            (Some (existsb required members0)) d)
              | None => Throw TypeError
              end = Normal (r, defs') -> unique defs' = unique defs).
  { intros d Hd. destruct (members dict); split; try discriminate.
    intros r defs' H. inversion H. exact Hd. }
  destruct (Helpers.truthy_string (inheritance dict)) as [parent|]; [|apply Hown; reflexivity].
  change (unique defs1) with (unique defs).
  destruct (unique defs !! parent) as [superdict|] eqn:Hsuper.
  2:{ split; [discriminate|]. intros r defs' H. now inversion H. }
  destruct (IH superdict defs1) as [Hret Huniq].
  { eapply elem_of_identities. exact Hsuper. }
  { change (uncached defs (<[def_id dict := None]> (dictionaryIncludesRequiredField (cache defs)))
            < fuel).
    lia. }
  destruct (Helpers.dictionaryIncludesRequiredField_rec fuel superdict defs1)
    as [[r d]| |]; [|split; [discriminate|intros ? ? H; discriminate H]|contradiction].
  cbn [mbind completion_bind].
  specialize (Huniq r d eq_refl).
  destruct r as [[|]|]; try (apply Hown; exact Huniq).
  split; [discriminate|]. intros r defs' H. inversion H; subst. exact Huniq.
Qed.

Lemma dictionaryIncludesRequiredField_rec_S fuel dict defs :
  Helpers.dictionaryIncludesRequiredField_rec (S fuel) dict defs =
  match dictionaryIncludesRequiredField (cache defs) !! def_id dict with
  | Some cached => Normal (cached, defs)
  | None =>
      let defs := Helpers.set_dictionaryIncludesRequiredField dict None defs in
      let ownFields (defs : Definitions) :=
        match members dict with
        | None => Throw TypeError
        | Some members =>
            let result := existsb required members in
            Normal (Some result,
                    Helpers.set_dictionaryIncludesRequiredField dict (Some result) defs)
        end in
      match Helpers.truthy_string (inheritance dict) with
      | Some inheritance =>
          match unique defs !! inheritance with
          | None => Normal (Some true, defs)
          | Some superdict =>
              '(r, defs) ← Helpers.dictionaryIncludesRequiredField_rec fuel superdict defs;
              match r with
              | Some true => Normal (Some true, defs)
              | _ => ownFields defs
              end
          end
      | None => ownFields defs
      end
  end.
Proof. reflexivity. Qed.

Lemma dictionaryIncludesRequiredField_returns (dict : Def) (defs : Definitions) :
  Helpers.dictionaryIncludesRequiredField dict defs <> OutOfFuel.
Proof.
  unfold Helpers.dictionaryIncludesRequiredField. rewrite Nat.add_comm.
  change (2 + size (Helpers.identities defs)) with (S (S (size (Helpers.identities defs)))).
  rewrite dictionaryIncludesRequiredField_rec_S. cbv zeta.
  destruct (dictionaryIncludesRequiredField (cache defs) !! def_id dict); [discriminate|].
  set (defs1 := Helpers.set_dictionaryIncludesRequiredField dict None defs).
  assert (Hown : forall d,
            match members dict with
            | Some members0 =>
                Normal (Some (existsb required members0),
                        Helpers.set_dictionaryIncludesRequiredField dict
                          (Some (existsb required members0)) d)
            | None => Throw TypeError
            end <> OutOfFuel).
  { intros d. destruct (members dict); discriminate. }
  destruct (Helpers.truthy_string (inheritance dict)) as [parent|]; [|apply Hown].
  change (unique defs1) with (unique defs).
  destruct (unique defs !! parent) as [superdict|] eqn:Hsuper; [|discriminate].
  destruct (dictionaryIncludesRequiredField_rec_returns (S (size (Helpers.identities defs)))
              superdict defs1) as [Hret _].
  { eapply elem_of_identities. exact Hsuper. }
  { pose proof (uncached_le defs1 (dictionaryIncludesRequiredField (cache defs1))) as H.
    change (Helpers.identities defs1) with (Helpers.identities defs) in H. lia. }
  destruct (Helpers.dictionaryIncludesRequiredField_rec _ superdict defs1)
    as [[r d]| |]; [|cbn; discriminate|contradiction].
  cbn [mbind completion_bind]. destruct r as [[|]|]; try apply Hown. discriminate.
Qed.

(** *** The typedef analysis *)

Lemma depth_subtype (t ty : IdlType) : In t (subtype ty) -> depth_lt t ty.
Proof.
  intros H. unfold depth_lt. destruct ty as [i g u n nm sub ea]. simpl in *.
  apply Nat.lt_succ_r. apply max_list_elem_of_le. apply list_elem_of_In.
  apply in_map. exact H.
Qed.

Lemma depth_target (defs : Definitions) (name : jsstring) (def : Def) (target : IdlType) :
  unique defs !! name = Some def -> def_idlType def = Some target ->
  Helpers.depth target <= Helpers.targetDepth defs.
Proof.
  intros H Ht. unfold Helpers.targetDepth. apply max_list_elem_of_le.
  apply list_elem_of_fmap. exists def. split; [now rewrite Ht|].
  unfold Helpers.defsOf. apply list_elem_of_fmap. exists (name, def).
  split; [reflexivity|]. now apply elem_of_map_to_list.
Qed.

Lemma extends_refl defs : extends defs defs.
Proof. split; [reflexivity|set_solver]. Qed.

Lemma extends_trans a b c : extends a b -> extends b c -> extends a c.
Proof. intros [H1 H2] [H3 H4]. split; [congruence|set_solver]. Qed.

Lemma extends_set def v defs : extends defs (Helpers.set_typedefIncludesDictionary def v defs).
Proof. split; [reflexivity|]. simpl. rewrite dom_insert_L. set_solver. Qed.

Lemma forSubtypes_extends recur l : forall defs r defs',
  (forall t d r' d', In t l -> recur t d = Normal (r', d') -> extends d d') ->
  Helpers.forSubtypes recur l defs = Normal (r, defs') -> extends defs defs'.
Proof.
  induction l as [|t l IH]; intros defs r defs' Hrec H; simpl in H.
  - inversion H. apply extends_refl.
  - destruct (recur t defs) as [[r1 d1]| |] eqn:E; try discriminate.
    cbn [mbind completion_bind] in H.
    assert (He : extends defs d1) by (eapply Hrec; [left; reflexivity|exact E]).
    destruct r1 as [r1|].
    + destruct (union t); inversion H; subst; exact He.
    + eapply extends_trans; [exact He|]. eapply IH; [|exact H].
      intros t' d r' d' Hin. apply Hrec. right. exact Hin.
Qed.

Lemma idlTypeIncludesDictionary_rec_extends fuel : forall ty defs u r defs',
  Helpers.idlTypeIncludesDictionary_rec fuel ty defs u = Normal (r, defs') ->
  extends defs defs'.
Proof.
  induction fuel as [|fuel IH]; intros ty defs u r defs' H; [discriminate|].
  simpl in H.
  assert (Hloop : forall d r0 d0,
            Helpers.forSubtypes (fun t d1 => Helpers.idlTypeIncludesDictionary_rec fuel t d1 false)
              (subtype ty) d = Normal (r0, d0) -> extends d d0).
  { intros d r0 d0. apply forSubtypes_extends. intros t d1 r' d' _. apply IH. }
  destruct (negb (union ty)); [|eapply Hloop; exact H].
  destruct (Helpers.unique_get defs (idlType ty)) as [def|];
    [|inversion H; apply extends_refl].
  assert (Hafter : forall d r0 d0,
            (if jsstring_eqb (def_type def) (js "dictionary") && (u || negb (nullable ty))
             then Normal (Some (mkIdlTypeDictionary ty def), d)
             else Helpers.forSubtypes
                    (fun t d1 => Helpers.idlTypeIncludesDictionary_rec fuel t d1 false)
                    (subtype ty) d) = Normal (r0, d0) -> extends d d0).
  { intros d r0 d0 Ha. destruct (_ && _); [inversion Ha; apply extends_refl|].
    eapply Hloop; exact Ha. }
  destruct (jsstring_eqb (def_type def) (js "typedef")); [|eapply Hafter; exact H].
  destruct (typedefIncludesDictionary (cache defs) !! def_id def);
    [inversion H; apply extends_refl|].
  destruct (def_idlType def) as [target|]; [|discriminate].
  destruct (Helpers.idlTypeIncludesDictionary_rec fuel target _ false)
    as [[r1 d1]| |] eqn:E; try discriminate.
  cbn [mbind completion_bind] in H. apply IH in E.
  assert (He : extends defs (Helpers.set_typedefIncludesDictionary def r1 d1)).
  { eapply extends_trans; [apply extends_set|].
    eapply extends_trans; [exact E|apply extends_set]. }
  destruct r1 as [r1|].
  - inversion H; subst. exact He.
  - eapply extends_trans; [exact He|]. eapply Hafter; exact H.
Qed.

Lemma forSubtypes_returns recur l : forall defs,
  (forall t d r d', recur t d = Normal (r, d') -> extends d d') ->
  (forall t d, In t l -> extends defs d -> recur t d <> OutOfFuel) ->
  Helpers.forSubtypes recur l defs <> OutOfFuel.
Proof.
  induction l as [|t l IH]; intros defs Hext Hret; simpl; [discriminate|].
  pose proof (Hret t defs (or_introl eq_refl) (extends_refl defs)) as Ht.
  destruct (recur t defs) as [[r d]| |] eqn:E; [|cbn; discriminate|contradiction].
  cbn [mbind completion_bind]. destruct r as [r|].
  - destruct (union t); discriminate.
  - apply IH; [exact Hext|]. intros t' d' Hin He. apply Hret; [right; exact Hin|].
    eapply extends_trans; [|exact He]. eapply Hext. exact E.
Qed.

(** The fuel that a call needs: the depth of the type, and the depth of the
    deepest typedef target for every definition that has no entry yet. *)
Lemma need_extends defs d : extends defs d -> need d <= need defs.
Proof.
  intros [Hu Hd]. unfold need.
  assert (Hi : Helpers.identities d = Helpers.identities defs)
    by (unfold Helpers.identities, Helpers.defsOf; now rewrite Hu).
  assert (Ht : Helpers.targetDepth d = Helpers.targetDepth defs)
    by (unfold Helpers.targetDepth, Helpers.defsOf; now rewrite Hu).
  rewrite Ht. apply Nat.mul_le_mono_r. unfold uncached. rewrite Hi.
  apply subseteq_size. set_solver.
Qed.

Lemma need_set defs name def target v :
  unique defs !! name = Some def -> def_idlType def = Some target ->
  typedefIncludesDictionary (cache defs) !! def_id def = None ->
  Helpers.depth target + need (Helpers.set_typedefIncludesDictionary def v defs) <= need defs.
Proof.
  intros Hu Ht Hc. unfold need.
  pose proof (depth_target _ _ _ _ Hu Ht) as Hd.
  pose proof (uncached_insert defs _ _ v (elem_of_identities _ _ _ Hu) Hc) as Hlt.
  change (Helpers.targetDepth (Helpers.set_typedefIncludesDictionary def v defs))
    with (Helpers.targetDepth defs).
  change (uncached (Helpers.set_typedefIncludesDictionary def v defs)
            (typedefIncludesDictionary (cache (Helpers.set_typedefIncludesDictionary def v defs))))
    with (uncached defs (<[def_id def := v]> (typedefIncludesDictionary (cache defs)))).
  nia.
Qed.

Lemma depth_pos ty : 0 < Helpers.depth ty.
Proof. destruct ty. simpl. lia. Qed.

Lemma idlTypeIncludesDictionary_rec_returns fuel : forall ty defs u,
  Helpers.depth ty + need defs <= fuel ->
  Helpers.idlTypeIncludesDictionary_rec fuel ty defs u <> OutOfFuel.
Proof.
  induction fuel as [|fuel IH]; intros ty defs u Hf.
  { pose proof (depth_pos ty). lia. }
  simpl.
  assert (Hloop : forall d, extends defs d ->
            Helpers.forSubtypes (fun t d1 => Helpers.idlTypeIncludesDictionary_rec fuel t d1 false)
              (subtype ty) d <> OutOfFuel).
  { intros d Hd. apply forSubtypes_returns.
    - intros t d1 r d'. apply idlTypeIncludesDictionary_rec_extends.
    - intros t d1 Hin Hd1. apply IH.
      pose proof (depth_subtype _ _ Hin) as Hlt. unfold depth_lt in Hlt.
      pose proof (need_extends _ _ (extends_trans _ _ _ Hd Hd1)). lia. }
  destruct (negb (union ty)); [|apply Hloop, extends_refl].
  destruct (idlType ty) as [name|]; simpl; [|discriminate].
  destruct (unique defs !! name) as [def|] eqn:Hu; [|discriminate].
  assert (Hafter : forall d, extends defs d ->
            (if jsstring_eqb (def_type def) (js "dictionary") && (u || negb (nullable ty))
             then Normal (Some (mkIdlTypeDictionary ty def), d)
             else Helpers.forSubtypes
                    (fun t d1 => Helpers.idlTypeIncludesDictionary_rec fuel t d1 false)
                    (subtype ty) d) <> OutOfFuel).
  { intros d Hd. destruct (_ && _); [discriminate|]. apply Hloop, Hd. }
  destruct (jsstring_eqb (def_type def) (js "typedef")); [|apply Hafter, extends_refl].
  destruct (typedefIncludesDictionary (cache defs) !! def_id def) eqn:Hc; [discriminate|].
  destruct (def_idlType def) as [target|] eqn:Ht; [|discriminate].
  pose proof (need_set defs name def target None Hu Ht Hc) as Hneed.
  pose proof (depth_pos ty) as Hpos.
  assert (Hrec : Helpers.idlTypeIncludesDictionary_rec fuel target
                   (Helpers.set_typedefIncludesDictionary def None defs) false <> OutOfFuel)
    by (apply IH; lia).
  destruct (Helpers.idlTypeIncludesDictionary_rec fuel target _ false)
    as [[r1 d1]| |] eqn:E; [|cbn; discriminate|contradiction].
  cbn [mbind completion_bind]. apply idlTypeIncludesDictionary_rec_extends in E.
  destruct r1 as [r1|]; [discriminate|].
  apply Hafter. eapply extends_trans; [apply extends_set|].
  eapply extends_trans; [exact E|apply extends_set].
Qed.

Lemma idlTypeIncludesDictionary_returns (ty : IdlType) (defs : Definitions) (u : bool) :
  Helpers.idlTypeIncludesDictionary ty defs u <> OutOfFuel.
Proof.
  unfold Helpers.idlTypeIncludesDictionary. apply idlTypeIncludesDictionary_rec_returns.
  apply Nat.add_le_mono_l. unfold need. apply Nat.mul_le_mono_r. apply uncached_le.
Qed.

End Termination.

(** *** More fuel changes nothing *)

Lemma dictionaryIncludesRequiredField_rec_stable fuel : forall fuel' dict defs,
  Helpers.dictionaryIncludesRequiredField_rec fuel dict defs <> OutOfFuel ->
  fuel <= fuel' ->
  Helpers.dictionaryIncludesRequiredField_rec fuel' dict defs =
  Helpers.dictionaryIncludesRequiredField_rec fuel dict defs.
Proof.
  induction fuel as [|fuel IH]; intros fuel' dict defs H Hle; [contradiction|].
  destruct fuel' as [|fuel']; [lia|].
  rewrite !dictionaryIncludesRequiredField_rec_S in *. cbv zeta in *.
  destruct (dictionaryIncludesRequiredField (cache defs) !! def_id dict); [reflexivity|].
  destruct (Helpers.truthy_string (inheritance dict)) as [parent|]; [|reflexivity].
  destruct (unique _ !! parent) as [superdict|]; [|reflexivity].
  rewrite (IH fuel'); [reflexivity| |lia].
  intros E. rewrite E in H. apply H. reflexivity.
Qed.

Lemma forSubtypes_stable recur recur' l : forall defs,
  (forall t d, recur t d <> OutOfFuel -> recur' t d = recur t d) ->
  Helpers.forSubtypes recur l defs <> OutOfFuel ->
  Helpers.forSubtypes recur' l defs = Helpers.forSubtypes recur l defs.
Proof.
  induction l as [|t l IH]; intros defs Hr H; simpl in *; [reflexivity|].
  assert (Ht : recur t defs <> OutOfFuel).
  { intros E. rewrite E in H. apply H. reflexivity. }
  rewrite (Hr _ _ Ht).
  destruct (recur t defs) as [[r d]| |]; try reflexivity.
  cbn [mbind completion_bind] in *. destruct r; [reflexivity|]. apply IH; assumption.
Qed.

Lemma idlTypeIncludesDictionary_rec_stable fuel : forall fuel' ty defs u,
  Helpers.idlTypeIncludesDictionary_rec fuel ty defs u <> OutOfFuel ->
  fuel <= fuel' ->
  Helpers.idlTypeIncludesDictionary_rec fuel' ty defs u =
  Helpers.idlTypeIncludesDictionary_rec fuel ty defs u.
Proof.
  induction fuel as [|fuel IH]; intros fuel' ty defs u H Hle; [contradiction|].
  destruct fuel' as [|fuel']; [lia|].
  simpl in *.
  assert (Hloop : forall d,
            Helpers.forSubtypes (fun t d1 => Helpers.idlTypeIncludesDictionary_rec fuel t d1 false)
              (subtype ty) d <> OutOfFuel ->
            Helpers.forSubtypes (fun t d1 => Helpers.idlTypeIncludesDictionary_rec fuel' t d1 false)
              (subtype ty) d =
            Helpers.forSubtypes (fun t d1 => Helpers.idlTypeIncludesDictionary_rec fuel t d1 false)
              (subtype ty) d).
  { intros d Hd. apply forSubtypes_stable; [|exact Hd].
    intros t d1 Ht. apply IH; [exact Ht|lia]. }
  destruct (negb (union ty)); [|apply Hloop, H].
  destruct (Helpers.unique_get defs (idlType ty)) as [def|]; [|reflexivity].
  assert (Hafter : forall d,
            (if jsstring_eqb (def_type def) (js "dictionary") && (u || negb (nullable ty))
             then Normal (Some (mkIdlTypeDictionary ty def), d)
             else Helpers.forSubtypes
                    (fun t d1 => Helpers.idlTypeIncludesDictionary_rec fuel t d1 false)
                    (subtype ty) d) <> OutOfFuel ->
            (if jsstring_eqb (def_type def) (js "dictionary") && (u || negb (nullable ty))
             then Normal (Some (mkIdlTypeDictionary ty def), d)
             else Helpers.forSubtypes
                    (fun t d1 => Helpers.idlTypeIncludesDictionary_rec fuel' t d1 false)
                    (subtype ty) d) =
            (if jsstring_eqb (def_type def) (js "dictionary") && (u || negb (nullable ty))
             then Normal (Some (mkIdlTypeDictionary ty def), d)
             else Helpers.forSubtypes
                    (fun t d1 => Helpers.idlTypeIncludesDictionary_rec fuel t d1 false)
                    (subtype ty) d)).
  { intros d Hd. destruct (_ && _); [reflexivity|]. apply Hloop, Hd. }
  destruct (jsstring_eqb (def_type def) (js "typedef")); [|apply Hafter, H].
  destruct (typedefIncludesDictionary (cache defs) !! def_id def); [reflexivity|].
  destruct (def_idlType def) as [target|]; [|reflexivity].
  rewrite (IH fuel'); [| |lia].
  - destruct (Helpers.idlTypeIncludesDictionary_rec fuel target _ false)
      as [[r1 d1]| |]; try reflexivity.
    cbn [mbind completion_bind] in *. destruct r1; [reflexivity|]. apply Hafter, H.
  - intros E. rewrite E in H. apply H. reflexivity.
Qed.

(** C3: for every index [defs] (cyclic or not), every dictionary and every
    type, both analyses return: the bounded recursion does not run out of
    fuel at the entry points, and any larger bound gives the same answer.
    A definition whose cache entry is pending ([undefined]) is not entered
    again: the analysis returns [undefined] (no required field, no
    dictionary found) at once and leaves the cache as it is. *)
Theorem analyses_terminate (defs : Definitions) :
  (forall dict,
     Helpers.dictionaryIncludesRequiredField dict defs <> OutOfFuel /\
     forall fuel, size (Helpers.identities defs) + 2 <= fuel ->
       Helpers.dictionaryIncludesRequiredField_rec fuel dict defs =
       Helpers.dictionaryIncludesRequiredField dict defs) /\
  (forall ty u,
     Helpers.idlTypeIncludesDictionary ty defs u <> OutOfFuel /\
     forall fuel,
       Helpers.depth ty + size (Helpers.identities defs) * Helpers.targetDepth defs <= fuel ->
       Helpers.idlTypeIncludesDictionary_rec fuel ty defs u =
       Helpers.idlTypeIncludesDictionary ty defs u) /\
  (forall dict fuel,
     dictionaryIncludesRequiredField (cache defs) !! def_id dict = Some None ->
     Helpers.dictionaryIncludesRequiredField_rec (S fuel) dict defs = Normal (None, defs)) /\
  (forall ty def u fuel,
     union ty = false ->
     Helpers.unique_get defs (idlType ty) = Some def ->
     def_type def = js "typedef" ->
     typedefIncludesDictionary (cache defs) !! def_id def = Some None ->
     Helpers.idlTypeIncludesDictionary_rec (S fuel) ty defs u = Normal (None, defs)).
Proof.
  split; [|split; [|split]].
  - intros dict. split; [apply dictionaryIncludesRequiredField_returns|].
    intros fuel Hf. apply dictionaryIncludesRequiredField_rec_stable; [|exact Hf].
    apply dictionaryIncludesRequiredField_returns.
  - intros ty u. split; [apply idlTypeIncludesDictionary_returns|].
    intros fuel Hf. apply idlTypeIncludesDictionary_rec_stable; [|exact Hf].
    apply idlTypeIncludesDictionary_returns.
  - intros dict fuel Hc. rewrite dictionaryIncludesRequiredField_rec_S, Hc. reflexivity.
  - intros ty def u fuel Hu Hget Hty Hc. simpl. rewrite Hu, Hget. simpl.
    rewrite Hty, Hc. reflexivity.
Qed.

Lemma analyses_terminate_witness :
  Helpers.dictionaryIncludesRequiredField cyclicA cyclicDefinitions <> OutOfFuel /\
  Helpers.idlTypeIncludesDictionary (namedType 14 "T") cyclicDefinitions false <> OutOfFuel /\
  Helpers.dictionaryIncludesRequiredField_rec 1 cyclicA pendingDefinitions
    = Normal (None, pendingDefinitions) /\
  Helpers.idlTypeIncludesDictionary_rec 1 (namedType 14 "T") pendingDefinitions false
    = Normal (None, pendingDefinitions).
Proof.
  destruct (analyses_terminate cyclicDefinitions) as (Hd & Ht & _ & _).
  destruct (analyses_terminate pendingDefinitions) as (_ & _ & Hpd & Hpt).
  split; [apply Hd|]. split; [apply Ht|]. split.
  - apply Hpd. vm_compute. reflexivity.
  - apply (Hpt (namedType 14 "T") cyclicT false 0).
    + reflexivity.
    + vm_compute. reflexivity.
    + reflexivity.
    + vm_compute. reflexivity.
Defined.

(** What the analyses answer on the cyclic definitions, from an empty cache. *)
Example cyclic_dictionaries_answer :
  exists defs', Helpers.dictionaryIncludesRequiredField cyclicA cyclicDefinitions
                = Normal (Some false, defs').
Proof. eexists. vm_compute. reflexivity. Qed.

Example cyclic_typedefs_answer :
  exists defs', Helpers.idlTypeIncludesDictionary (namedType 14 "T") cyclicDefinitions false
                = Normal (None, defs').
Proof. eexists. vm_compute. reflexivity. Qed.

(** ** Every input is tokenised, or holds a reserved identifier *)

Lemma star_loop_total {A} (m : jsstring -> (jsstring -> option A) -> option A) k :
  (forall s, k s <> None) -> forall n s, star_loop m k n s <> None.
Proof.
  intros Hk n. induction n as [|n IH]; intros s; simpl; [apply Hk|].
  destruct (m s _); [discriminate|apply Hk].
Qed.

Ltac class_props H :=
  unfold test, wordstart, otherchar, alpha, space, digit, digit19, upper, lower, in_range, ch in H;
  rewrite ?negb_true_iff, ?negb_false_iff, ?orb_true_iff, ?orb_false_iff,
          ?andb_true_iff, ?andb_false_iff, ?N.eqb_eq, ?N.eqb_neq, ?N.leb_le, ?N.leb_gt in H.

Lemma whitespace_matches c s : space c = true -> rmatch re_whitespace (c :: s) Some <> None.
Proof.
  intros H. unfold re_whitespace, Plus. cbn [rmatch]. rewrite H.
  apply star_loop_total. discriminate.
Qed.

Lemma identifier_matches c s : alpha c = true -> rmatch re_identifier (c :: s) Some <> None.
Proof.
  intros H. unfold re_identifier, Opt. cbn [rmatch].
  assert (Hp : ch 95 c || ch 45 c = false).
  { class_props H. unfold ch. apply orb_false_iff. rewrite !N.eqb_neq. lia. }
  rewrite Hp, H. destruct (star_loop _ _ _ _) eqn:E; [discriminate|].
  exfalso. revert E. apply star_loop_total. discriminate.
Qed.

Lemma integer_matches c s : digit c = true -> rmatch re_integer (c :: s) Some <> None.
Proof.
  intros H. unfold re_integer, Opt, Plus. cbn [rmatch].
  assert (Hm : ch 45 c = false).
  { class_props H. unfold ch. rewrite N.eqb_neq. lia. }
  rewrite Hm.
  destruct (ch 48 c) eqn:H0.
  - destruct (match s with [] => None | _ => _ end); [discriminate|].
    destruct (star_loop _ _ _ _) eqn:E; [discriminate|].
    exfalso. revert E. apply star_loop_total. discriminate.
  - assert (H19 : digit19 c = true).
    { class_props H. unfold ch in H0. rewrite N.eqb_neq in H0.
      unfold digit19, in_range. rewrite andb_true_iff, !N.leb_le. lia. }
    rewrite H19. destruct (star_loop _ _ _ _) eqn:E; [discriminate|].
    exfalso. revert E. apply star_loop_total. discriminate.
Qed.

Section Outcome.
Variable str : jsstring.

Lemma exec_None re i c :
  str !! i = Some c -> exec re str i = None ->
  rmatch re (c :: skipn (S i) str) Some = None.
Proof.
  intros Hc H. unfold exec in H. rewrite (drop_S _ _ _ Hc) in H.
  destruct (rmatch _ _ _); [discriminate|reflexivity].
Qed.

Lemma tokenAttempt_outcome c st :
  str !! lastCharIndex st = Some c -> lastCharIndex st <= length str ->
  (tokenAttempt str (Some c) None st = Normal (None, st) /\
   digit c = false /\ alpha c = false) \/
  (exists r2 st2, tokenAttempt str (Some c) None st = Normal (r2, st2) /\
                  pushed str st r2 st2) \/
  (exists v j, exec re_identifier str (lastCharIndex st) = Some (v, j) /\
               includes reserved v = true).
Proof.
  intros Hc Hi.
  assert (Hpushed : forall j st2,
            tokenAttempt str (Some c) None st = Normal (Some j, st2) ->
            exists r2 st2, tokenAttempt str (Some c) None st = Normal (r2, st2) /\
                           pushed str st r2 st2).
  { intros j st2 T. exists (Some j), st2. split; [exact T|].
    destruct (tokenAttempt_word _ _ _ _ _ Hc Hi T) as [[? _]|P]; [discriminate|exact P]. }
  unfold tokenAttempt in *. cbn [test] in *.
  destruct (wordstart c) eqn:Hw.
  - destruct (attempt_cases str decimal false st Hi) as [[Ed Hd]|(v & j & E & Hs & Hd)];
      rewrite Hd in *; [|right; left; eapply Hpushed; reflexivity].
    destruct (attempt_cases str integer false st Hi) as [[Ei Hn]|(v & j & E & Hs & Hn)];
      rewrite Hn in *; [|right; left; eapply Hpushed; reflexivity].
    destruct (attempt_cases str identifier false st Hi) as [[Ea Ha]|(v & j & E & Hs & Ha)];
      rewrite Ha in *.
    + left. split; [reflexivity|]. split.
      * destruct (digit c) eqn:D; [|reflexivity]. exfalso.
        apply (integer_matches c (skipn (S (lastCharIndex st)) str) D).
        apply exec_None; assumption.
      * destruct (alpha c) eqn:D; [|reflexivity]. exfalso.
        apply (identifier_matches c (skipn (S (lastCharIndex st)) str) D).
        apply exec_None; assumption.
    + destruct (includes reserved v) eqn:R; [right; right; eauto|].
      right. left. unfold identifierCheck in *.
      cbn [tokens lastCharIndex cur_trivia cur_line cur_index] in *.
      rewrite lookup_last_snoc in *. cbn [value] in *. rewrite R in *.
      destruct (includes nonRegexTerminals v); eapply Hpushed; reflexivity.
  - assert (Hda : digit c = false /\ alpha c = false).
    { unfold wordstart in Hw. rewrite !orb_false_iff in Hw. unfold alpha.
      destruct Hw as [[[[[_ ->] _] ->] _] ->]. auto. }
    destruct (ch 34 c).
    + destruct (attempt_cases str string_ false st Hi) as [[Es Hn]|(v & j & E & Hs & Hn)];
        rewrite Hn in *; [left; auto|right; left; eapply Hpushed; reflexivity].
    + left. auto.
Qed.

Lemma iteration_outcome st :
  lastCharIndex st < length str ->
  (exists st', iteration str st = Normal st') \/
  (exists v j, exec re_identifier str (lastCharIndex st) = Some (v, j) /\
               includes reserved v = true).
Proof.
  intros Hlt. assert (Hi : lastCharIndex st <= length str) by lia.
  destruct (lookup_lt_is_Some_2 str _ Hlt) as [c Hc].
  unfold iteration. rewrite Hc.
  assert (Htrivia :
    (triviaAttempt str (Some c) st = (None, st) /\ space c = false) \/
    exists v j,
      find (startsWith (skipn (lastCharIndex st) str)) punctuations = None /\
      triviaAttempt str (Some c) st =
        (Some j, mkState (tokens st ++ [mkToken (reName_str (if space c then whitespace else comment))
                                          v (cur_trivia st) (Some (cur_line st)) (Some (cur_index st))])
                   (lastCharIndex st) (cur_trivia st) (cur_line st) (cur_index st))).
  { unfold triviaAttempt. cbn [test]. destruct (space c) eqn:Hsp.
    - destruct (attempt_cases str whitespace true st Hi) as [[E _]|(v & j & E & Hs & ->)].
      + exfalso. apply (whitespace_matches c (skipn (S (lastCharIndex st)) str) Hsp).
        apply exec_None; assumption.
      + right. exists v, j. split; [|reflexivity].
        rewrite (drop_S _ _ _ Hc). apply no_punctuation_after_trivia. auto.
    - destruct (ch 47 c) eqn:Hsl; auto.
      destruct (attempt_cases str comment true st Hi) as [[_ ->]|(v & j & E & Hs & ->)]; auto.
      right. exists v, j. split; [|reflexivity].
      rewrite (drop_S _ _ _ Hc). apply no_punctuation_after_trivia.
      apply N.eqb_eq in Hsl. auto. }
  destruct Htrivia as [[-> Hsp]|(v & j & Hp & ->)].
  - destruct (tokenAttempt_outcome c st Hc Hi)
      as [(-> & Hd & Ha)|[(r2 & st2 & -> & (t & j & -> & -> & _ & _ & _ & _ & Hp))|R]];
      [| |right; exact R]; left; cbn [mbind completion_bind]; unfold punctuationAttempt.
    + destruct (find _ punctuations) as [p|]; [eexists; reflexivity|].
      assert (Ho : attemptTokenMatch str other false st =
        (Some (S (lastCharIndex st)),
         mkState (tokens st ++ [mkToken (js "other") [c] (cur_trivia st)
                                  (Some (cur_line st)) (Some (cur_index st))])
                 (lastCharIndex st) [] (cur_line st) (cur_index st))).
      { unfold attemptTokenMatch, exec. cbn [tokenRe]. rewrite (drop_S _ _ _ Hc).
        cbn [re_other rmatch].
        assert (Hoc : otherchar c = true).
        { unfold otherchar. unfold alpha in Ha. apply orb_false_iff in Ha as [-> ->].
          rewrite Hsp, Hd. reflexivity. }
        rewrite Hoc.
        replace (length (c :: skipn (S (lastCharIndex st)) str)
                 - length (skipn (S (lastCharIndex st)) str)) with 1 by (simpl; lia).
        rewrite Nat.add_1_r. reflexivity. }
      rewrite Ho. eexists. reflexivity.
    + cbn [lastCharIndex]. rewrite Hp. eexists. reflexivity.
  - left. unfold tokenAttempt, pop. cbn [tokens]. rewrite last_snoc, removelast_last.
    cbn [mbind completion_bind]. unfold punctuationAttempt. cbn [lastCharIndex].
    rewrite Hp. eexists. reflexivity.
Qed.

End Outcome.

(** X1: [tokenise] never fails with [Token stream not progressing] and
    never runs out of the fuel of the model: it returns the token vector, unless
    the loop comes to a position where the identifier expression matches a
    reserved lexeme, and then it throws the error for that lexeme. *)
Lemma tokenise_outcome (I : jsstring) :
  (exists toks, tokenise I = Normal toks) \/
  (exists st v j,
     reaches I st /\ lastCharIndex st < length I /\
     exec re_identifier I (lastCharIndex st) = Some (v, j) /\
     includes reserved v = true /\
     tokenise I =
       Throw (WebIDLParseError
         (syntaxError
            (tokens st ++ [mkToken (js "identifier") v (cur_trivia st)
                             (Some (cur_line st)) (Some (cur_index st))])
            (length (tokens st)) None
            (unescape v ++ js " is a reserved identifier and must not be used.")))).
Proof.
  assert (H : forall f st, reaches I st -> length I - lastCharIndex st <= f ->
            (exists toks, loop I f st = Normal toks) \/
            (exists st' v j,
               reaches I st' /\ lastCharIndex st' < length I /\
               exec re_identifier I (lastCharIndex st') = Some (v, j) /\
               includes reserved v = true)).
  { induction f as [|f IH]; intros st Hr Hf; simpl;
      destruct (Nat.ltb_spec (lastCharIndex st) (length I)) as [Hlt|Hge]; try lia;
      try (left; eexists; reflexivity).
    destruct (iteration_outcome I st Hlt) as [[st' E]|(v & j & E & R)].
    - rewrite E. cbn [mbind completion_bind].
      pose proof (iteration_progress _ _ _ Hlt E).
      apply IH; [eapply reaches_iteration; eauto|lia].
    - right. exists st, v, j. auto. }
  destruct (H (length I) initial (reaches_initial I)) as [T|(st & v & j & Hr & Hlt & E & R)].
  - simpl. lia.
  - left. exact T.
  - right. exists st, v, j. repeat (split; [assumption|]).
    rewrite (reaches_loop _ _ Hr).
    destruct (length I - lastCharIndex st) as [|m] eqn:Em; [lia|].
    simpl. destruct (Nat.ltb_spec (lastCharIndex st) (length I)); [|lia].
    rewrite (iteration_reserved _ _ _ _ Hlt E R). reflexivity.
Qed.

(** * Further properties *)
(** ** What each token is *)
Section Lexemes.
Variable str : jsstring.

Lemma tokenAttempt_lexeme c st r2 st2 :
  str !! lastCharIndex st = Some c -> lastCharIndex st <= length str ->
  tokenAttempt str (Some c) None st = Normal (r2, st2) ->
  (r2 = None /\ st2 = st) \/
  (exists t j, r2 = Some j /\ tokens st2 = tokens st ++ [t] /\
               lexeme str (lastCharIndex st) t).
Proof.
  intros Hc Hi. unfold tokenAttempt. cbn [test].
  destruct (wordstart c).
  - destruct (attempt_cases str decimal false st Hi) as [[_ ->]|(v & j & E & _ & ->)].
    2:{ intros H; inversion H; subst; clear H. right. eexists _, j.
        split; [reflexivity|]. split; [reflexivity|].
        apply (lexeme_regex _ _ _ decimal j); [simpl; tauto|exact E|reflexivity|discriminate]. }
    destruct (attempt_cases str integer false st Hi) as [[_ ->]|(v & j & E & _ & ->)].
    2:{ intros H; inversion H; subst; clear H. right. eexists _, j.
        split; [reflexivity|]. split; [reflexivity|].
        apply (lexeme_regex _ _ _ integer j); [simpl; tauto|exact E|reflexivity|discriminate]. }
    destruct (attempt_cases str identifier false st Hi) as [[_ ->]|(v & j & E & _ & ->)].
    { simpl. intros H; inversion H; auto. }
    unfold identifierCheck. cbn [tokens lastCharIndex cur_trivia cur_line cur_index].
    rewrite lookup_last_snoc. cbn [value].
    destruct (includes reserved v) eqn:R; [discriminate|].
    destruct (includes nonRegexTerminals v) eqn:K; intros H; inversion H; subst; clear H;
      right; eexists _, j; (split; [reflexivity|]).
    + rewrite insert_last_snoc. split; [reflexivity|].
      apply (lexeme_terminal _ _ _ j); [exact E|exact R|exact K|reflexivity].
    + split; [reflexivity|].
      apply (lexeme_regex _ _ _ identifier j); [simpl; tauto|exact E|reflexivity|intros _; split; [exact R|exact K]].
  - destruct (ch 34 c).
    + destruct (attempt_cases str string_ false st Hi) as [[_ ->]|(v & j & E & _ & ->)];
        intros H; inversion H; subst; clear H; auto.
      right. eexists _, j. split; [reflexivity|]. split; [reflexivity|].
      apply (lexeme_regex _ _ _ string_ j); [simpl; tauto|exact E|reflexivity|discriminate].
    + intros H; inversion H; auto.
Qed.

Lemma iteration_lexeme st st' :
  lastCharIndex st < length str ->
  iteration str st = Normal st' ->
  tokens st' = tokens st \/
  exists t, tokens st' = tokens st ++ [t] /\ lexeme str (lastCharIndex st) t.
Proof.
  intros Hlt Hit. assert (Hi : lastCharIndex st <= length str) by lia.
  destruct (iteration_step _ _ _ Hlt Hit) as [(v & Ht & _)|(t & Hem)]; [left; exact Ht|].
  right. exists t. split; [apply Hem|].
  destruct Hem as (Htoks & _).
  destruct (lookup_lt_is_Some_2 str _ Hlt) as [c Hc].
  revert Hit. unfold iteration. rewrite Hc.
  destruct (triviaAttempt str (Some c) st) as [r1 st1] eqn:Htr.
  assert (Hcase : (r1 = None /\ st1 = st) \/
                  exists v j tk, r1 = Some j /\
                    st1 = mkState (tokens st ++ [tk]) (lastCharIndex st) (cur_trivia st)
                            (cur_line st) (cur_index st) /\
                    find (startsWith (skipn (lastCharIndex st) str)) punctuations = None /\
                    value tk = v).
  { revert Htr. unfold triviaAttempt. cbn [test]. destruct (space c) eqn:Hsp.
    - destruct (attempt_cases str whitespace true st Hi) as [[_ ->]|(v & j & E & Hs & ->)];
        intros H; inversion H; subst; auto.
      right. eexists v, j, _. repeat split.
      rewrite (drop_S _ _ _ Hc). apply no_punctuation_after_trivia. auto.
    - destruct (ch 47 c) eqn:Hsl; [|intros H; inversion H; auto].
      destruct (attempt_cases str comment true st Hi) as [[_ ->]|(v & j & E & Hs & ->)];
        intros H; inversion H; subst; auto.
      right. eexists v, j, _. repeat split.
      rewrite (drop_S _ _ _ Hc). apply no_punctuation_after_trivia.
      apply N.eqb_eq in Hsl. auto. }
  destruct Hcase as [[-> ->]|(v & j & tk & -> & -> & Hp & Hv)].
  - destruct (tokenAttempt str (Some c) None st) as [[r2 st2]| |] eqn:T; try discriminate.
    cbn [mbind completion_bind].
    pose proof (tokenAttempt_word _ _ _ _ _ Hc Hi T) as Hw.
    apply (tokenAttempt_lexeme _ _ _ _ Hc Hi) in T
      as [[-> ->]|(t2 & j & -> & Ht2 & Hlex)].
    + unfold punctuationAttempt.
      destruct (find _ punctuations) as [p|] eqn:F.
      * cbn. intros H; inversion H; subst; clear H. cbn in Htoks.
        apply app_inj_tail in Htoks as [_ <-].
        apply lexeme_punctuation; [exact F|reflexivity].
      * destruct (attempt_cases str other false st Hi) as [[_ ->]|(v & j & E & Hs & ->)];
          [discriminate|].
        intros H; inversion H; subst; clear H. cbn in Htoks.
        apply app_inj_tail in Htoks as [_ <-].
        apply (lexeme_regex _ _ _ other j); [simpl; tauto|exact E|reflexivity|discriminate].
    + destruct Hw as [[? _]|(t3 & j3 & _ & -> & _ & _ & _ & _ & Hp)]; [discriminate|].
      unfold punctuationAttempt. cbn [lastCharIndex]. rewrite Hp.
      intros H; inversion H; subst; clear H. cbn in Htoks, Ht2.
      apply app_inj_tail in Ht2 as [_ <-].
      apply app_inj_tail in Htoks as [_ <-]. exact Hlex.
  - unfold tokenAttempt, pop. cbn [tokens]. rewrite last_snoc, removelast_last.
    cbn [mbind completion_bind]. unfold punctuationAttempt. cbn [lastCharIndex].
    rewrite Hp. intros H; inversion H; subst; clear H. cbn in Htoks.
    exfalso. apply (f_equal (@length _)) in Htoks. rewrite length_app in Htoks.
    simpl in Htoks. lia.
Qed.

End Lexemes.

Lemma newlines_app a b : newlines (a ++ b) = (newlines a + newlines b)%Z.
Proof. unfold newlines. rewrite filter_app, length_app. lia. Qed.

Lemma triviaLines_snoc toks t :
  triviaLines (toks ++ [t]) = (triviaLines toks + newlines (trivia t))%Z.
Proof. induction toks as [|x toks IH]; simpl; [lia|]. rewrite IH. lia. Qed.

(** What holds of the tokens whenever the loop tests its condition. *)
Lemma reaches_described str st :
  reaches str st ->
  positioned str (tokens st) /\
  Forall (fun t => value t <> []) (tokens st) /\
  cur_line st = (1 + triviaLines (tokens st) + newlines (cur_trivia st))%Z /\
  (forall k t, tokens st !! k = Some t ->
     line t = Some (1 + triviaLines (take (S k) (tokens st)))%Z).
Proof.
  induction 1 as [|st st' Hr IH Hlt Hit].
  - split; [|split; [|split]].
    + intros k t H. destruct k; discriminate.
    + constructor.
    + reflexivity.
    + intros k t H. destruct k; discriminate.
  - destruct IH as (Hpos & Hne & Hline & Hlines).
    pose proof (reaches_invariant _ _ Hr) as Hinv.
    destruct (iteration_step _ _ _ Hlt Hit)
      as [(v & Ht & Htr & Hl & _)|(t & Ht & Htr & Hl & _ & Htr' & Hl' & _ & Hf & Hj)].
    + rewrite Ht, Htr, Hl, newlines_app. repeat split; auto. lia.
    + destruct (iteration_lexeme _ _ _ Hlt Hit) as [Hsame|(t2 & Ht2 & Hlex)].
      { exfalso. rewrite Hsame in Ht. apply (f_equal (@length _)) in Ht.
        rewrite length_app in Ht. simpl in Ht. lia. }
      assert (t2 = t) as -> by (rewrite Ht in Ht2; now apply app_inj_tail in Ht2 as [_ ->]).
      rewrite Ht, Htr', Hl'. split; [|split; [|split]].
      * intros k t0 Hk. apply lookup_app_Some in Hk as [Hk|[Hge Hk]].
        -- rewrite take_app_le by (apply lookup_lt_Some in Hk; lia). exact (Hpos _ _ Hk).
        -- apply list_lookup_singleton_Some in Hk as [Hk <-].
           assert (k = length (tokens st)) as -> by lia.
           rewrite take_app_length.
           replace (length (cover (tokens st)) + length (trivia t))
             with (lastCharIndex st); [exact Hlex|].
           rewrite Htr, <- length_app, (inv_cover _ _ Hinv).
           rewrite firstn_length_le; [reflexivity|]. apply (inv_cursor _ _ Hinv).
      * apply Forall_app. split; [exact Hne|]. constructor; [|constructor].
        intros Hv. rewrite Hv, app_nil_r in Hf.
        apply (f_equal (@length _)) in Hf.
        rewrite !firstn_length_le in Hf by lia. lia.
      * rewrite triviaLines_snoc, Htr. change (newlines []) with 0%Z. lia.
      * intros k t0 Hk. apply lookup_app_Some in Hk as [Hk|[Hge Hk]].
        -- rewrite take_app_le by (apply lookup_lt_Some in Hk; lia). exact (Hlines _ _ Hk).
        -- apply list_lookup_singleton_Some in Hk as [Hk <-].
           assert (S k = length (tokens st ++ [t])) as -> by (rewrite length_app; simpl; lia).
           rewrite firstn_all, triviaLines_snoc, Hl, Htr, Hline. f_equal. lia.
Qed.

Lemma tokenise_reaches (I : jsstring) (toks : list TokeniserToken) :
  tokenise I = Normal toks ->
  exists st, reaches I st /\ lastCharIndex st = length I /\ toks = tokens st ++ [eof st].
Proof. intros H. unfold tokenise in H. eapply loop_end; [constructor|exact H]. Qed.

(** A match of a sticky expression, seen from the matched text. *)
Lemma exec_match re str i v j :
  exec re str i = Some (v, j) ->
  exists rest, rmatch re (v ++ rest) Some = Some rest /\ skipn i str = v ++ rest.
Proof.
  unfold exec. intros H.
  destruct (rmatch re (skipn i str) Some) as [rest|] eqn:E; [|discriminate].
  inversion H; subst v j; clear H.
  pose proof E as E'. apply rmatch_rest in E' as (s' & pre & Hs' & Hs).
  inversion Hs'; subst s'; clear Hs'.
  exists rest. rewrite Hs in *. rewrite length_app.
  replace (length pre + length rest - length rest) with (length pre) by lia.
  rewrite firstn_app, Nat.sub_diag, firstn_all. simpl. rewrite app_nil_r. auto.
Qed.

Lemma terminal_is_no_other_match v rest :
  includes nonRegexTerminals v = true ->
  rmatch re_decimal (v ++ rest) Some = None /\
  rmatch re_integer (v ++ rest) Some = None /\
  rmatch re_string (v ++ rest) Some = None /\
  1 < length v /\ includes punctuations v = false.
Proof.
  intros H. apply includes_In in H. vm_compute in H.
  repeat (destruct H as [<-|H]; [vm_compute; repeat split; lia|]). destruct H.
Qed.

Lemma other_is_one_unit v rest :
  rmatch re_other (v ++ rest) Some = Some rest ->
  exists c, v = [c] /\ otherchar c = true.
Proof.
  unfold re_other. cbn [rmatch]. intros H.
  destruct (v ++ rest) as [|c s'] eqn:E; [discriminate|].
  destruct (otherchar c) eqn:O; [|discriminate]. inversion H; subst s'; clear H.
  exists c. split; [|exact O].
  change (c :: rest) with ([c] ++ rest) in E. now apply app_inv_tail in E.
Qed.

Lemma find_punctuation_In s p :
  find (startsWith s) punctuations = Some p -> In p punctuations /\ startsWith s p = true.
Proof. apply find_some. Qed.

Lemma whitespace_starts_no_token c s :
  space c = true ->
  rmatch re_decimal (c :: s) Some = None /\ rmatch re_integer (c :: s) Some = None /\
  rmatch re_identifier (c :: s) Some = None /\ rmatch re_string (c :: s) Some = None /\
  rmatch re_other (c :: s) Some = None.
Proof.
  intros H. unfold space, ch in H. rewrite !orb_true_iff, !N.eqb_eq in H.
  destruct H as [[[<-|<-]|<-]|<-]; repeat split; reflexivity.
Qed.

Lemma tokenise_described (I : jsstring) (toks : list TokeniserToken) :
  tokenise I = Normal toks ->
  exists front trailing,
    toks = front ++ [mkToken (js "eof") [] trailing None None] /\
    positioned I front /\
    Forall (fun t => value t <> []) front /\
    (forall k t, front !! k = Some t ->
       line t = Some (1 + triviaLines (take (S k) front))%Z).
Proof.
  intros H. apply tokenise_reaches in H as (st & Hr & _ & ->).
  destruct (reaches_described _ _ Hr) as (Hpos & Hne & _ & Hlines).
  exists (tokens st), (cur_trivia st). auto.
Qed.

Lemma lexeme_In (I : jsstring) (front : list TokeniserToken) (t : TokeniserToken) :
  positioned I front -> In t front -> exists i, lexeme I i t.
Proof.
  intros Hpos Hin. apply list_elem_of_In in Hin. apply list_elem_of_lookup in Hin as [k Hk].
  eexists. exact (Hpos _ _ Hk).
Qed.

(** X2: every token before [eof] starts where the text of the tokens before it
    and its own trivia end, and it is what the tokeniser's expressions read
    at that offset of the input: the match of the expression that its type
    names, or a known terminal matched as an identifier, or the first
    punctuation of the list that starts there. *)
Theorem tokens_are_lexemes (I : jsstring) (toks : list TokeniserToken) :
  tokenise I = Normal toks ->
  exists front eofToken,
    toks = front ++ [eofToken] /\ type eofToken = js "eof" /\
    forall k t, front !! k = Some t ->
      lexeme I (length (cover (take k front)) + length (trivia t)) t.
Proof.
  intros H. apply tokenise_described in H as (front & trailing & -> & Hpos & _).
  eexists front, _. split; [reflexivity|]. split; [reflexivity|]. exact Hpos.
Qed.

Lemma tokens_are_lexemes_witness :
  tokenise sampleInput = Normal sampleTokens /\
  exists front eofToken,
    sampleTokens = front ++ [eofToken] /\ type eofToken = js "eof" /\
    forall k t, front !! k = Some t ->
      lexeme sampleInput (length (cover (take k front)) + length (trivia t)) t.
Proof.
  assert (H : tokenise sampleInput = Normal sampleTokens) by (vm_compute; reflexivity).
  split; [exact H|]. exact (tokens_are_lexemes sampleInput sampleTokens H).
Defined.

Lemma lexeme_kinds (I : jsstring) (i : nat) (t : TokeniserToken) :
  lexeme I i t ->
  (type t = js "identifier" ->
   includes nonRegexTerminals (value t) = false /\ includes reserved (value t) = false) /\
  (includes nonRegexTerminals (value t) = true -> type t = value t) /\
  (In (type t) (map reName_str [decimal; integer; identifier; string_; other]) \/
   includes nonRegexTerminals (type t) = true \/ includes punctuations (type t) = true).
Proof.
  intros [ty j Hty E Ht Hid|j E R K Ht|F Ht].
  - split; [|split].
    + intros Hi. rewrite Ht in Hi.
      assert (ty = identifier) as ->.
      { simpl in Hty. destruct Hty as [<-|[<-|[<-|[<-|[<-|[]]]]]];
          try reflexivity; vm_compute in Hi; discriminate Hi. }
      destruct (Hid eq_refl). auto.
    + intros K. exfalso. apply exec_match in E as (rest & E & _).
      destruct (terminal_is_no_other_match _ rest K) as (Hd & Hn & Hs & Hl & _).
      simpl in Hty. destruct Hty as [<-|[<-|[<-|[<-|[<-|[]]]]]]; cbn [tokenRe] in E.
      * rewrite Hd in E. discriminate.
      * rewrite Hn in E. discriminate.
      * destruct (Hid eq_refl) as [_ K']. congruence.
      * rewrite Hs in E. discriminate.
      * apply other_is_one_unit in E as (c & Hv & _). rewrite Hv in Hl. simpl in Hl. lia.
    + left. rewrite Ht. apply in_map. exact Hty.
  - split; [|split].
    + intros Hi. rewrite Ht in Hi. rewrite Hi in K. vm_compute in K. discriminate K.
    + intros _. exact Ht.
    + right. left. rewrite Ht. exact K.
  - apply find_punctuation_In in F as [Hin _].
    split; [|split].
    + intros Hi. rewrite Ht in Hi. rewrite Hi in Hin. vm_compute in Hin.
      exfalso. repeat (destruct Hin as [Hin|Hin]; [discriminate Hin|]). exact Hin.
    + intros K. exfalso. destruct (terminal_is_no_other_match _ [] K) as (_ & _ & _ & _ & Hp).
      apply includes_In in Hin. congruence.
    + right. right. rewrite Ht. now apply includes_In.
Qed.

(** X3: in the token vector of any input, a token of type [identifier] never
    holds a reserved word or a known terminal (keyword, type name, literal
    name); and every token whose lexeme is a known terminal has that lexeme
    as its type: numbers, strings, punctuation and [other] tokens never
    spell one. *)
Theorem terminals_are_rekinded (I : jsstring) (toks : list TokeniserToken) (t : TokeniserToken) :
  tokenise I = Normal toks -> In t toks ->
  (type t = js "identifier" ->
   includes nonRegexTerminals (value t) = false /\ includes reserved (value t) = false) /\
  (includes nonRegexTerminals (value t) = true -> type t = value t).
Proof.
  intros H Hin. apply tokenise_described in H as (front & trailing & -> & Hpos & _).
  apply in_app_or in Hin as [Hin|[<-|[]]].
  - destruct (lexeme_In _ _ _ Hpos Hin) as [i Hl].
    destruct (lexeme_kinds _ _ _ Hl) as (H1 & H2 & _). auto.
  - split; intros H; vm_compute in H; discriminate H.
Qed.

Lemma terminals_are_rekinded_witness :
  let toks := [tok "long" "long" "" 1 0; tok "identifier" "x" " " 1 1;
               mkToken (js "eof") [] [] None None] in
  tokenise (js "long x") = Normal toks /\
  In (tok "long" "long" "" 1 0) toks /\
  (includes nonRegexTerminals (js "long") = true -> js "long" = js "long").
Proof.
  intros toks.
  assert (H : tokenise (js "long x") = Normal toks) by (vm_compute; reflexivity).
  split; [exact H|]. split; [left; reflexivity|].
  exact (proj2 (terminals_are_rekinded (js "long x") toks (tok "long" "long" "" 1 0) H
                  (or_introl eq_refl))).
Defined.

(** X4: the types of the tokens form a closed set: the names of the five
    token expressions, [eof], the known terminals and the punctuation. *)
Theorem token_types_closed (I : jsstring) (toks : list TokeniserToken) (t : TokeniserToken) :
  tokenise I = Normal toks -> In t toks ->
  In (type t) (map js ["decimal"; "integer"; "identifier"; "string"; "other"; "eof"]%string) \/
  includes nonRegexTerminals (type t) = true \/
  includes punctuations (type t) = true.
Proof.
  intros H Hin. apply tokenise_described in H as (front & trailing & -> & Hpos & _).
  apply in_app_or in Hin as [Hin|[<-|[]]].
  - destruct (lexeme_In _ _ _ Hpos Hin) as [i Hl].
    destruct (lexeme_kinds _ _ _ Hl) as (_ & _ & [Hk|[Hk|Hk]]); auto.
    left. simpl in Hk. simpl. tauto.
  - left. simpl. tauto.
Qed.

Lemma token_types_closed_witness :
  let toks := [tok "long" "long" "" 1 0; tok "identifier" "x" " " 1 1;
               mkToken (js "eof") [] [] None None] in
  tokenise (js "long x") = Normal toks /\
  In (tok "identifier" "x" " " 1 1) toks /\
  (In (js "identifier")
      (map js ["decimal"; "integer"; "identifier"; "string"; "other"; "eof"]%string) \/
   includes nonRegexTerminals (js "identifier") = true \/
   includes punctuations (js "identifier") = true).
Proof.
  intros toks.
  assert (H : tokenise (js "long x") = Normal toks) by (vm_compute; reflexivity).
  split; [exact H|]. split; [right; left; reflexivity|].
  exact (token_types_closed (js "long x") toks (tok "identifier" "x" " " 1 1) H
           (or_intror (or_introl eq_refl))).
Defined.

Lemma lexeme_first (I : jsstring) (i : nat) (t : TokeniserToken) :
  lexeme I i t -> exists c v, value t = c :: v /\ space c = false.
Proof.
  assert (Hmatch : forall ty rest,
            In ty [decimal; integer; identifier; string_; other] ->
            rmatch (tokenRe ty) (value t ++ rest) Some = Some rest ->
            consumes (tokenRe ty) = true ->
            exists c v, value t = c :: v /\ space c = false).
  { intros ty rest Hty E Hc.
    destruct (value t) as [|c v] eqn:Hv.
    - apply (rmatch_shorter _ Hc) in E as (s' & pre & E & _ & Hlt).
      inversion E; subst s'. simpl in Hlt. lia.
    - exists c, v. split; [reflexivity|].
      destruct (space c) eqn:Hsp; [|reflexivity]. exfalso.
      destruct (whitespace_starts_no_token c (v ++ rest) Hsp) as (H1 & H2 & H3 & H4 & H5).
      simpl in Hty, E.
      destruct Hty as [<-|[<-|[<-|[<-|[<-|[]]]]]]; cbn [tokenRe] in E; congruence. }
  intros [ty j Hty E Ht Hid|j E R K Ht|F Ht].
  - apply exec_match in E as (rest & E & _).
    exact (Hmatch ty rest Hty E (tokenRe_consumes ty)).
  - apply exec_match in E as (rest & E & _).
    apply (Hmatch identifier rest); [simpl; tauto|exact E|reflexivity].
  - apply find_punctuation_In in F as [Hin _]. revert Hin. generalize (value t).
    intros p Hin. vm_compute in Hin.
    repeat (destruct Hin as [<-|Hin]; [eexists _, _; split; reflexivity|]). destruct Hin.
Qed.

(** X5: every token before [eof] has a lexeme of at least one code unit, and
    the lexeme does not start with white space ([eof] alone has the empty
    lexeme). *)
Theorem lexemes_are_not_blank (I : jsstring) (toks : list TokeniserToken) :
  tokenise I = Normal toks ->
  exists front eofToken,
    toks = front ++ [eofToken] /\ value eofToken = [] /\
    forall t, In t front -> exists c v, value t = c :: v /\ space c = false.
Proof.
  intros H. apply tokenise_described in H as (front & trailing & -> & Hpos & _).
  eexists front, _. split; [reflexivity|]. split; [reflexivity|].
  intros t Hin. destruct (lexeme_In _ _ _ Hpos Hin) as [i Hl].
  exact (lexeme_first _ _ _ Hl).
Qed.

Lemma lexemes_are_not_blank_witness :
  tokenise sampleInput = Normal sampleTokens /\
  exists front eofToken,
    sampleTokens = front ++ [eofToken] /\ value eofToken = [] /\
    forall t, In t front -> exists c v, value t = c :: v /\ space c = false.
Proof.
  assert (H : tokenise sampleInput = Normal sampleTokens) by (vm_compute; reflexivity).
  split; [exact H|]. exact (lexemes_are_not_blank sampleInput sampleTokens H).
Defined.

(** X6: the line of the token at position [k] is 1 plus the number of line
    feeds in the trivia of the tokens up to and including it; line feeds
    inside lexemes (a string literal that spans lines) are not counted. *)
Theorem line_counts_trivia_only (I : jsstring) (toks : list TokeniserToken) :
  tokenise I = Normal toks ->
  exists front eofToken,
    toks = front ++ [eofToken] /\
    forall k t, front !! k = Some t ->
      line t = Some (1 + triviaLines (take (S k) front))%Z.
Proof.
  intros H. apply tokenise_described in H as (front & trailing & -> & _ & _ & Hl).
  eexists front, _. split; [reflexivity|]. exact Hl.
Qed.

(** A string literal over two lines: the token behind it is still on line 1. *)
Lemma line_counts_trivia_only_witness :
  let I := [34%N; 10%N; 34%N] ++ js " x" in
  let toks := [mkToken (js "string") [34%N; 10%N; 34%N] [] (Some 1%Z) (Some 0%Z);
               tok "identifier" "x" " " 1 1; mkToken (js "eof") [] [] None None] in
  tokenise I = Normal toks /\
  exists front eofToken,
    toks = front ++ [eofToken] /\
    forall k t, front !! k = Some t ->
      line t = Some (1 + triviaLines (take (S k) front))%Z.
Proof.
  intros I toks.
  assert (H : tokenise I = Normal toks) by (vm_compute; reflexivity).
  split; [exact H|]. exact (line_counts_trivia_only I toks H).
Defined.

(** *** The shape of string and identifier lexemes *)

Lemma star_chr_inv {A} p (k : jsstring -> option A) n : forall s x,
  star_loop (fun s0 k0 => rmatch (Chr p) s0 k0) k n s = Some x ->
  exists body s', s = body ++ s' /\ forallb p body = true /\ k s' = Some x.
Proof.
  induction n as [|n IH]; intros s x H; simpl in H.
  - exists [], s. auto.
  - destruct s as [|c s'].
    + exists [], []. auto.
    + destruct (p c) eqn:Hp.
      * destruct (length s' <? length (c :: s')) eqn:L.
        -- destruct (star_loop _ k n s') as [y|] eqn:E.
           ++ inversion H; subst y. apply IH in E as (body & s'' & -> & Hb & Hk).
              exists (c :: body), s''. simpl. rewrite Hp, Hb. auto.
           ++ exists [], (c :: s'). auto.
        -- exists [], (c :: s'). auto.
      * exists [], (c :: s'). auto.
Qed.

Lemma string_shape v rest :
  rmatch re_string (v ++ rest) Some = Some rest ->
  exists body, v = 34%N :: body ++ [34%N] /\ forallb (fun c => negb (ch 34 c)) body = true.
Proof.
  unfold re_string. cbn [rmatch]. intros H.
  destruct (v ++ rest) as [|c s] eqn:E; [discriminate|].
  destruct (ch 34 c) eqn:Hc; [|discriminate]. apply N.eqb_eq in Hc. subst c.
  apply star_chr_inv in H as (body & s' & -> & Hb & Hk).
  destruct s' as [|c s']; [discriminate|].
  destruct (ch 34 c) eqn:Hc; [|discriminate]. apply N.eqb_eq in Hc. subst c.
  inversion Hk; subst s'; clear Hk.
  exists body. split; [|exact Hb].
  apply (app_inv_tail rest). rewrite E. simpl. now rewrite <- app_assoc.
Qed.

Lemma identifier_shape v rest :
  rmatch re_identifier (v ++ rest) Some = Some rest ->
  exists pre c body,
    v = pre ++ c :: body /\ (pre = [] \/ pre = [95%N] \/ pre = [45%N]) /\
    alpha c = true /\ forallb identchar body = true.
Proof.
  unfold re_identifier, Opt. cbn [rmatch]. intros H.
  assert (Hcore : forall s, (match s with
                             | [] => None
                             | c :: s' =>
                                 if alpha c
                                 then star_loop (fun s0 k0 => rmatch (Chr identchar) s0 k0)
                                        Some (length s') s'
                                 else None
                             end) = Some rest ->
                  exists c body, s = c :: body ++ rest /\ alpha c = true /\
                                 forallb identchar body = true).
  { intros [|c s'] Hs; [discriminate|]. destruct (alpha c) eqn:Ha; [|discriminate].
    apply star_chr_inv in Hs as (body & s'' & -> & Hb & Hk). inversion Hk; subst s''.
    exists c, body. auto. }
  destruct (v ++ rest) as [|c0 s0] eqn:E; [discriminate|].
  destruct (ch 95 c0 || ch 45 c0) eqn:Hp.
  - destruct (match s0 with [] => None | _ => _ end) as [y|] eqn:E1.
    + inversion H; subst y. apply Hcore in E1 as (c & body & -> & Ha & Hb).
      exists [c0], c, body. split; [|split; [|auto]].
      * apply (app_inv_tail rest). rewrite E. simpl. rewrite <- ?app_assoc. reflexivity.
      * apply orb_true_iff in Hp. unfold ch in Hp. rewrite !N.eqb_eq in Hp.
        destruct Hp as [<-|<-]; auto.
    + apply (Hcore (c0 :: s0)) in H as (c & body & Hs & Ha & Hb).
      exists [], c, body. split; [|auto].
      apply (app_inv_tail rest). rewrite E, Hs. simpl. rewrite <- ?app_assoc. reflexivity.
  - apply (Hcore (c0 :: s0)) in H as (c & body & Hs & Ha & Hb).
    exists [], c, body. split; [|auto].
    apply (app_inv_tail rest). rewrite E, Hs. simpl. rewrite <- ?app_assoc. reflexivity.
Qed.

Lemma unescape_other c s : c <> 95%N -> unescape (c :: s) = c :: s.
Proof.
  intros H. destruct c as [|p]; [reflexivity|].
  do 7 (destruct p as [p|p|]; try reflexivity). congruence.
Qed.

Lemma identifier_unescaped v rest :
  rmatch re_identifier (v ++ rest) Some = Some rest -> unescape v <> [].
Proof.
  intros H. apply identifier_shape in H as (pre & c & body & -> & Hpre & Ha & _).
  destruct Hpre as [->|[->| ->]]; simpl; try discriminate.
  destruct (N.eqb_spec c 95) as [E|E].
  - rewrite E in Ha. vm_compute in Ha. discriminate Ha.
  - change (unescape (c :: body) <> []). rewrite (unescape_other _ _ E). discriminate.
Qed.

Lemma lexeme_string (I : jsstring) (i : nat) (t : TokeniserToken) :
  lexeme I i t -> type t = js "string" ->
  exists rest, rmatch re_string (value t ++ rest) Some = Some rest.
Proof.
  intros [ty j Hty E Ht Hid|j E R K Ht|F Ht] Hs.
  - rewrite Ht in Hs. simpl in Hty.
    destruct Hty as [<-|[<-|[<-|[<-|[<-|[]]]]]]; try (vm_compute in Hs; discriminate Hs).
    apply exec_match in E as (rest & E & _). eauto.
  - rewrite Ht in Hs. rewrite Hs in K. vm_compute in K. discriminate K.
  - apply find_punctuation_In in F as [Hin _]. rewrite Ht in Hs. rewrite Hs in Hin.
    vm_compute in Hin. exfalso.
    repeat (destruct Hin as [Hin|Hin]; [discriminate Hin|]). exact Hin.
Qed.

(** X7: a token of type [string] is a double quote, a text without double
    quote, and a double quote; [const_data] gives for it the string constant
    whose value is that text, without the two quotes. *)
Theorem string_token_constant (I : jsstring) (toks : list TokeniserToken) (t : TokeniserToken) :
  tokenise I = Normal toks -> In t toks -> type t = js "string" ->
  exists body,
    value t = 34%N :: body ++ [34%N] /\ ~ In 34%N body /\
    Productions.const_data (type t) (value t) = Productions.ConstString body.
Proof.
  intros H Hin Hs. apply tokenise_described in H as (front & trailing & -> & Hpos & _).
  apply in_app_or in Hin as [Hin|[<-|[]]]; [|vm_compute in Hs; discriminate Hs].
  destruct (lexeme_In _ _ _ Hpos Hin) as [i Hl].
  destruct (lexeme_string _ _ _ Hl Hs) as [rest E].
  apply string_shape in E as (body & Hv & Hb).
  exists body. split; [exact Hv|]. split.
  - intros Hq. rewrite forallb_forall in Hb. specialize (Hb _ Hq). discriminate Hb.
  - rewrite Hs, Hv. unfold Productions.const_data.
    change (Productions.ConstString
              (Productions.slice_1_m1 (34%N :: body ++ [34%N])) = Productions.ConstString body).
    unfold Productions.slice_1_m1. simpl tl. now rewrite removelast_last.
Qed.

Lemma string_token_constant_witness :
  let I := js "x = " ++ [34%N] ++ js "abc" ++ [34%N] in
  let t := mkToken (js "string") ([34%N] ++ js "abc" ++ [34%N]) (js " ") (Some 1%Z) (Some 2%Z) in
  let toks := [tok "identifier" "x" "" 1 0; tok "=" "=" " " 1 1; t;
               mkToken (js "eof") [] [] None None] in
  tokenise I = Normal toks /\ In t toks /\
  exists body,
    value t = 34%N :: body ++ [34%N] /\ ~ In 34%N body /\
    Productions.const_data (type t) (value t) = Productions.ConstString body.
Proof.
  intros I t toks.
  assert (H : tokenise I = Normal toks) by (vm_compute; reflexivity).
  assert (Hin : In t toks) by (right; right; left; reflexivity).
  split; [exact H|]. split; [exact Hin|].
  exact (string_token_constant I toks t H Hin eq_refl).
Defined.

(** A token that can be the name of a member has a name after [unescape]. *)
Lemma lexeme_name (I : jsstring) (i : nat) (t : TokeniserToken) :
  lexeme I i t -> type t = js "identifier" \/ type t = js "includes" ->
  unescape (value t) <> [].
Proof.
  intros [ty j Hty E Ht Hid|j E R K Ht|F Ht] Hn.
  - rewrite Ht in Hn. simpl in Hty.
    destruct Hty as [<-|[<-|[<-|[<-|[<-|[]]]]]];
      try (destruct Hn as [Hn|Hn]; vm_compute in Hn; discriminate Hn).
    apply exec_match in E as (rest & E & _). exact (identifier_unescaped _ _ E).
  - apply exec_match in E as (rest & E & _). exact (identifier_unescaped _ _ E).
  - apply find_punctuation_In in F as [Hin _]. rewrite Ht in Hn.
    exfalso. destruct Hn as [Hn|Hn]; rewrite Hn in Hin; vm_compute in Hin;
      repeat (destruct Hin as [Hin|Hin]; [discriminate Hin|]); exact Hin.
Qed.

(** ** The token cursor *)

Lemma probe_true tk ty :
  probe tk ty = true -> exists t, source tk !! position tk = Some t /\ type t = ty.
Proof.
  unfold probe. intros H. apply andb_true_iff in H as [_ H].
  destruct (source tk !! position tk) as [t|]; [|discriminate].
  exists t. split; [reflexivity|]. now apply jsstring_eqb_eq.
Qed.

Lemma probe_false tk ty t :
  probe tk ty = false -> source tk !! position tk = Some t -> type t <> ty.
Proof.
  unfold probe. intros H Ht Heq. rewrite Ht in H.
  apply lookup_lt_Some in Ht. apply Nat.ltb_lt in Ht. rewrite Ht in H. simpl in H.
  apply jsstring_eqb_eq in Heq. congruence.
Qed.

Lemma consume_cases tk cs :
  (exists t, consume tk cs = (Some t, mkTokeniser (source tk) (S (position tk)) (current tk)) /\
             source tk !! position tk = Some t /\ In (type t) cs) \/
  (consume tk cs = (None, tk) /\
   forall t, source tk !! position tk = Some t -> ~ In (type t) cs).
Proof.
  induction cs as [|ty rest IH]; simpl.
  - right. split; [reflexivity|]. intros t _ [].
  - destruct (probe tk ty) eqn:P.
    + apply probe_true in P as (t & Ht & Hty). rewrite Ht. left. exists t.
      split; [reflexivity|]. split; [reflexivity|]. left. congruence.
    + destruct IH as [(t & -> & Ht & Hin)|(-> & Hn)].
      * left. exists t. auto.
      * right. split; [reflexivity|].
        intros t Ht [Heq|Hin]; [|exact (Hn t Ht Hin)].
        exact (probe_false _ _ _ P Ht (eq_sym Heq)).
Qed.

(** X8: [consume] either returns the token under the cursor, whose type is
    one of the candidates, and moves the cursor by exactly one; or it returns
    nothing and leaves the cursor as it is, which is the case when the cursor
    is behind the last token or the token there has another type. The token
    vector is never changed. *)
Theorem consume_spec (tk : Tokeniser) (candidates : list jsstring) :
  match consume tk candidates with
  | (Some t, tk') =>
      source tk !! position tk = Some t /\ In (type t) candidates /\
      tk' = mkTokeniser (source tk) (S (position tk)) (current tk)
  | (None, tk') =>
      tk' = tk /\
      forall t, source tk !! position tk = Some t -> ~ In (type t) candidates
  end.
Proof.
  destruct (consume_cases tk candidates) as [(t & -> & Ht & Hin)|(-> & Hn)]; auto.
Qed.

Lemma tokeniser_eta tk : mkTokeniser (source tk) (position tk) (current tk) = tk.
Proof. destruct tk. reflexivity. Qed.

(** ** The attribute production *)

Lemma consume_one tk ty :
  consume tk [ty] =
  if probe tk ty
  then (source tk !! position tk, mkTokeniser (source tk) (S (position tk)) (current tk))
  else (None, tk).
Proof. reflexivity. Qed.

(** A single candidate is consumed exactly when it is probed. *)
Lemma consume_one_cases tk ty :
  (exists t, consume tk [ty] = (Some t, mkTokeniser (source tk) (S (position tk)) (current tk)) /\
             probe tk ty = true /\ type t = ty /\
             source tk !! position tk = Some t) \/
  (consume tk [ty] = (None, tk) /\ probe tk ty = false).
Proof.
  rewrite consume_one. destruct (probe tk ty) eqn:P; [|right; auto].
  apply probe_true in P as (t & Ht & Hty). rewrite Ht. left. exists t. auto.
Qed.


(** The tokens gathered by the head of [Attribute.parse]. *)
Lemma parseHead_tokens tk opts toks tk1 :
  Attribute.parseHead tk opts = Normal (toks, tk1) ->
  source tk1 = source tk /\ current tk1 = current tk /\
  position tk <= position tk1 /\
  (forall b, Attribute.base toks = Some b -> type b = js "attribute") /\
  (forall r, Attribute.readonly toks = Some r -> type r = js "readonly") /\
  (Attribute.opt_readonly opts = true -> is_Some (Attribute.base toks) ->
   is_Some (Attribute.readonly toks)) /\
  (Attribute.get_special (Attribute.special toks) = js "inherit" ->
   Attribute.readonly toks = None) /\
  (Attribute.special toks = Attribute.opt_special opts \/
   Attribute.opt_special opts = None /\
   exists s, Attribute.special toks = Some s /\ type s = js "inherit") /\
  Attribute.name toks = None /\ Attribute.termination toks = None.
Proof.
  unfold Attribute.parseHead.
  assert (exists sp tka,
    (if negb (bool_decide (is_Some (Attribute.opt_special opts)))
        && negb (Attribute.opt_noInherit opts)
     then consume tk [js "inherit"] else (Attribute.opt_special opts, tk)) = (sp, tka) /\
    source tka = source tk /\ current tka = current tk /\ position tk <= position tka /\
    (sp = Attribute.opt_special opts \/
     Attribute.opt_special opts = None /\ exists s, sp = Some s /\ type s = js "inherit"))
    as (sp & tka & -> & Hs & Hc & Hp & Hsp).
  { destruct (negb (bool_decide (is_Some (Attribute.opt_special opts)))
              && negb (Attribute.opt_noInherit opts)) eqn:G.
    - apply andb_true_iff in G as [G _]. apply negb_true_iff in G.
      apply bool_decide_eq_false in G.
      assert (Attribute.opt_special opts = None) as Hn.
      { destruct (Attribute.opt_special opts); [|reflexivity]. destruct G. eauto. }
      destruct (consume_one_cases tk (js "inherit")) as [(t & -> & _ & Ht & _)|(-> & _)].
      + eexists _, _. split; [reflexivity|]. simpl. repeat split; try lia.
        right. split; [exact Hn|]. exists t. auto.
      + eexists _, _. split; [reflexivity|]. repeat split; try lia. left. congruence.
    - eexists _, _. split; [reflexivity|]. repeat split; try lia. left. reflexivity. }
  destruct (jsstring_eqb (Attribute.get_special sp) (js "inherit")
            && probe tka (js "readonly")) eqn:G2; [discriminate|].
  cbn [mbind completion_bind].
  destruct (consume_one_cases tka (js "readonly")) as [(r & -> & Pr & Hr & _)|(-> & Pr)].
  - rewrite Pr, andb_true_r in G2.
    replace (Attribute.opt_readonly opts && negb (bool_decide (is_Some (Some r))))
      with false by (rewrite bool_decide_eq_true_2 by eauto; now rewrite andb_false_r).
    cbn [andb mbind completion_bind].
    destruct (consume_one_cases (mkTokeniser (source tka) (S (position tka)) (current tka))
                (js "attribute")) as [(b & -> & _ & Hb & _)|(-> & _)];
      intros [= <- <-]; simpl; rewrite Hs, Hc.
    + repeat split; try lia; try congruence; eauto.
      intros Hi. apply jsstring_eqb_eq in Hi. congruence.
    + repeat split; try lia; try congruence; eauto.
      intros Hi. apply jsstring_eqb_eq in Hi. congruence.
  - destruct (Attribute.opt_readonly opts && negb (bool_decide (is_Some (@None TokeniserToken)))
              && probe tka (js "attribute")) eqn:G3; [discriminate|].
    cbn [mbind completion_bind].
    destruct (consume_one_cases tka (js "attribute")) as [(b & -> & Pb & Hb & _)|(-> & Pb)];
      intros [= <- <-]; simpl; rewrite ?Hs, ?Hc.
    + rewrite Pb, andb_true_r in G3.
      repeat split; try lia; try congruence; eauto.
      intros Ho _. rewrite Ho in G3. simpl in G3. discriminate.
    + repeat split; try lia; try congruence; eauto.
Qed.

Lemma probe_other tk ty ty' :
  probe tk ty = true -> ty <> ty' -> probe tk ty' = false.
Proof.
  intros P Hne. destruct (probe tk ty') eqn:P'; [|reflexivity].
  apply probe_true in P as (t & Ht & Hty). apply probe_true in P' as (t' & Ht' & Hty').
  congruence.
Qed.

Section AttributeParse.
Variable ExtendedAttributes_parse :
  Tokeniser -> completion (ExtendedAttributes * Tokeniser).
Variable Type_parse :
  Tokeniser -> jsstring -> completion (option IdlType * Tokeniser).

(** What a successful [Attribute.parse] went through. *)
Lemma attribute_parse_inv tk opts a tk' :
  Attribute.parse ExtendedAttributes_parse Type_parse tk opts = Normal (Some a, tk') ->
  exists toks tk1 tk2 n s,
    Attribute.parseHead tk opts = Normal (toks, tk1) /\
    is_Some (Attribute.base toks) /\
    Attribute.type_with_extended_attributes ExtendedAttributes_parse Type_parse tk1
      (js "attribute-type") = Normal (Some (Attribute.idlType a), tk2) /\
    consume tk2 [js "identifier"; js "async"; js "required"] =
      (Some n, mkTokeniser (source tk2) (S (position tk2)) (current tk2)) /\
    source tk2 !! position tk2 = Some n /\
    In (type n) [js "identifier"; js "async"; js "required"] /\
    source tk2 !! S (position tk2) = Some s /\ type s = js ";" /\
    tk' = mkTokeniser (source tk2) (S (S (position tk2))) (current tk2) /\
    Attribute.tokens a =
      Attribute.mkTokens (Attribute.special toks) (Attribute.readonly toks)
        (Attribute.base toks) (Some n) (Some s).
Proof.
  unfold Attribute.parse.
  destruct (Attribute.parseHead tk opts) as [[toks tk1]| |] eqn:Hh; try discriminate.
  cbn [mbind completion_bind].
  destruct (Attribute.base toks) as [b|] eqn:Hb; [|discriminate].
  destruct (Attribute.type_with_extended_attributes _ _ tk1 _) as [[ty tk2]| |] eqn:Hty;
    try discriminate. cbn [mbind completion_bind].
  destruct ty as [ty|]; [|discriminate]. cbn [Attribute.orError mbind completion_bind].
  destruct (_ || _); [discriminate|]. cbn [mbind completion_bind].
  destruct (consume_cases tk2 [js "identifier"; js "async"; js "required"])
    as [(n & Hn & Hln & Hin)|(Hn & _)]; rewrite Hn; [|discriminate].
  cbn [Attribute.orError mbind completion_bind].
  destruct (consume_one_cases (mkTokeniser (source tk2) (S (position tk2)) (current tk2))
              (js ";")) as [(s & Hs & _ & Hts & Hls)|(Hs & _)]; rewrite Hs; [|discriminate].
  cbn [Attribute.orError mbind completion_bind].
  intros [= <- <-]. exists toks, tk1, tk2, n, s.
  simpl in Hls. simpl. repeat split; eauto. now rewrite Hb.
Qed.

Lemma attribute_parse_none tk opts tk' :
  Attribute.parse ExtendedAttributes_parse Type_parse tk opts = Normal (None, tk') ->
  tk' = tk.
Proof.
  unfold Attribute.parse.
  destruct (Attribute.parseHead tk opts) as [[toks tk1]| |] eqn:Hh; try discriminate.
  apply parseHead_tokens in Hh as (Hs & Hc & _).
  cbn [mbind completion_bind].
  destruct (Attribute.base toks).
  - destruct (Attribute.type_with_extended_attributes _ _ tk1 _) as [[ty tk2]| |];
      try discriminate. cbn [mbind completion_bind].
    destruct ty as [ty|]; [|discriminate]. cbn [Attribute.orError mbind completion_bind].
    destruct (_ || _); [discriminate|]. cbn [mbind completion_bind].
    destruct (consume tk2 _) as [[n|] tk3]; [|discriminate].
    cbn [Attribute.orError mbind completion_bind].
    destruct (consume tk3 _) as [[s|] tk4]; discriminate.
  - intros [= <-]. unfold unconsume. rewrite Hs, Hc. apply tokeniser_eta.
Qed.

(** X9: when [Attribute.parse] returns nothing, the cursor is where it was
    before the call, also when [inherit] or [readonly] had been consumed. *)
Theorem attribute_parse_backtracks (tk : Tokeniser) (opts : Attribute.Options)
    (tk' : Tokeniser) :
  Attribute.parse ExtendedAttributes_parse Type_parse tk opts = Normal (None, tk') ->
  tk' = tk.
Proof. apply attribute_parse_none. Qed.

(** X10: an attribute that [Attribute.parse] returns holds the keyword
    [attribute] as its base token, a name token that is an identifier or one
    of the keywords [async] and [required], and the semicolon; the name and
    the semicolon are the two tokens right before the returned cursor. A
    [readonly] token is the keyword; it is there whenever the caller asked
    for a read-only context, and never on an [inherit] attribute. *)
Theorem attribute_parse_shape (tk : Tokeniser) (opts : Attribute.Options)
    (a : Attribute.Attribute) (tk' : Tokeniser) :
  Attribute.parse ExtendedAttributes_parse Type_parse tk opts = Normal (Some a, tk') ->
  (exists b, Attribute.base (Attribute.tokens a) = Some b /\ type b = js "attribute") /\
  (exists n, Attribute.name (Attribute.tokens a) = Some n /\
             In (type n) [js "identifier"; js "async"; js "required"] /\
             source tk' !! (position tk' - 2) = Some n) /\
  (exists s, Attribute.termination (Attribute.tokens a) = Some s /\ type s = js ";" /\
             source tk' !! (position tk' - 1) = Some s) /\
  (forall r, Attribute.readonly (Attribute.tokens a) = Some r -> type r = js "readonly") /\
  (Attribute.opt_readonly opts = true -> is_Some (Attribute.readonly (Attribute.tokens a))) /\
  (Attribute.get_special (Attribute.special (Attribute.tokens a)) = js "inherit" ->
   Attribute.readonly (Attribute.tokens a) = None).
Proof.
  intros H.
  apply attribute_parse_inv in H
    as (toks & tk1 & tk2 & n & s & Hh & Hb & Hty & _ & Hn & Hin & Hs & Hts & -> & ->).
  apply parseHead_tokens in Hh as (_ & _ & Hp & Hbase & Hro & Hctx & Hinh & _).
  simpl. rewrite !Nat.sub_0_r.
  destruct Hb as [b Hb].
  split; [exists b; auto|]. split; [exists n; auto|]. split; [exists s; auto|].
  auto.
Qed.

End AttributeParse.

Lemma attribute_parse_backtracks_witness :
  let tk := mkTokeniser readonlySetlikeTokens 0 None in
  Attribute.parse noExtendedAttributes longTypeOnly tk Attribute.defaultOptions
    = Normal (None, tk) /\
  tk = tk.
Proof.
  intros tk.
  assert (H : Attribute.parse noExtendedAttributes longTypeOnly tk Attribute.defaultOptions
              = Normal (None, tk)) by (vm_compute; reflexivity).
  split; [exact H|].
  exact (attribute_parse_backtracks noExtendedAttributes longTypeOnly tk
           Attribute.defaultOptions tk H).
Defined.

Lemma attribute_parse_shape_witness :
  let tk := mkTokeniser readonlyAttributeTokens 0 None in
  let tk' := mkTokeniser readonlyAttributeTokens 5 None in
  let opts := Attribute.mkOptions None false true in
  Attribute.parse noExtendedAttributes longTypeOnly tk opts
    = Normal (Some readonlyAttribute, tk') /\
  exists n, Attribute.name (Attribute.tokens readonlyAttribute) = Some n /\
            In (type n) [js "identifier"; js "async"; js "required"] /\
            source tk' !! (position tk' - 2) = Some n.
Proof.
  intros tk tk' opts.
  assert (H : Attribute.parse noExtendedAttributes longTypeOnly tk opts
              = Normal (Some readonlyAttribute, tk')) by (vm_compute; reflexivity).
  split; [exact H|].
  exact (proj1 (proj2 (attribute_parse_shape noExtendedAttributes longTypeOnly tk opts
                         readonlyAttribute tk' H))).
Defined.

(** X11: in a read-only context, [Attribute.parse] at the keyword [attribute]
    throws the syntax error [Attributes must be readonly in this context], at
    the position of the keyword. *)
Theorem attribute_must_be_readonly
    (ExtendedAttributes_parse : Tokeniser -> completion (ExtendedAttributes * Tokeniser))
    (Type_parse : Tokeniser -> jsstring -> completion (option IdlType * Tokeniser))
    (tk : Tokeniser) (opts : Attribute.Options) :
  Attribute.opt_readonly opts = true ->
  probe tk (js "attribute") = true ->
  Attribute.parse ExtendedAttributes_parse Type_parse tk opts =
  Throw (WebIDLParseError (syntaxError (source tk) (position tk) (current tk)
           (js "Attributes must be readonly in this context"))).
Proof.
  intros Hro P.
  assert (probe tk (js "inherit") = false) as Pi
    by (apply (probe_other _ _ _ P); discriminate).
  assert (probe tk (js "readonly") = false) as Pr
    by (apply (probe_other _ _ _ P); discriminate).
  unfold Attribute.parse, Attribute.parseHead. rewrite !consume_one, Pi.
  assert ((if negb (bool_decide (is_Some (Attribute.opt_special opts)))
              && negb (Attribute.opt_noInherit opts)
           then (@None TokeniserToken, tk) else (Attribute.opt_special opts, tk))
          = (Attribute.opt_special opts, tk)) as ->.
  { destruct (Attribute.opt_special opts) eqn:E; [reflexivity|].
    now destruct (Attribute.opt_noInherit opts). }
  rewrite Pr, andb_false_r. cbn [mbind completion_bind].
  rewrite consume_one, Pr, Hro, P. reflexivity.
Qed.

Lemma attribute_must_be_readonly_witness :
  let tk := mkTokeniser sampleAttributeTokens 0 None in
  let opts := Attribute.mkOptions None false true in
  Attribute.opt_readonly opts = true /\ probe tk (js "attribute") = true /\
  Attribute.parse noExtendedAttributes sequenceTypeOnly tk opts =
  Throw (WebIDLParseError (syntaxError sampleAttributeTokens 0 None
           (js "Attributes must be readonly in this context"))).
Proof.
  intros tk opts. split; [reflexivity|]. split; [vm_compute; reflexivity|].
  exact (attribute_must_be_readonly noExtendedAttributes sequenceTypeOnly tk opts
           eq_refl eq_refl).
Defined.

(** X12: [inherit readonly] is refused: when the caller gave no special
    token and did not forbid [inherit], and the cursor is at the keyword
    [inherit] followed by [readonly], [Attribute.parse] throws the syntax
    error [Inherited attributes cannot be read-only], at the position of
    [readonly]. *)
Theorem inherited_attribute_not_readonly
    (ExtendedAttributes_parse : Tokeniser -> completion (ExtendedAttributes * Tokeniser))
    (Type_parse : Tokeniser -> jsstring -> completion (option IdlType * Tokeniser))
    (tk : Tokeniser) (opts : Attribute.Options) (t : TokeniserToken) :
  Attribute.opt_special opts = None ->
  Attribute.opt_noInherit opts = false ->
  source tk !! position tk = Some t ->
  type t = js "inherit" -> value t = js "inherit" ->
  probe (mkTokeniser (source tk) (S (position tk)) (current tk)) (js "readonly") = true ->
  Attribute.parse ExtendedAttributes_parse Type_parse tk opts =
  Throw (WebIDLParseError (syntaxError (source tk) (S (position tk)) (current tk)
           (js "Inherited attributes cannot be read-only"))).
Proof.
  intros Hsp Hni Ht Hty Hv P.
  assert (probe tk (js "inherit") = true) as Pi.
  { unfold probe. rewrite Ht. apply lookup_lt_Some in Ht. apply Nat.ltb_lt in Ht.
    rewrite Ht. simpl. now apply jsstring_eqb_eq. }
  unfold Attribute.parse, Attribute.parseHead. rewrite Hsp, Hni, consume_one, Pi.
  cbn [negb andb bool_decide]. 
  replace (bool_decide (is_Some (@None TokeniserToken))) with false
    by (symmetry; apply bool_decide_eq_false; intros [? [=]]).
  cbn [negb andb]. rewrite Ht. cbn [Attribute.get_special]. rewrite Hv, P.
  reflexivity.
Qed.

Lemma inherited_attribute_not_readonly_witness :
  let tk := mkTokeniser inheritReadonlyTokens 0 None in
  let t := tok "inherit" "inherit" "" 1 0 in
  Attribute.opt_special Attribute.defaultOptions = None /\
  source tk !! position tk = Some t /\
  probe (mkTokeniser (source tk) (S (position tk)) (current tk)) (js "readonly") = true /\
  Attribute.parse noExtendedAttributes longTypeOnly tk Attribute.defaultOptions =
  Throw (WebIDLParseError (syntaxError inheritReadonlyTokens 1 None
           (js "Inherited attributes cannot be read-only"))).
Proof.
  intros tk t. split; [reflexivity|]. split; [reflexivity|].
  split; [vm_compute; reflexivity|].
  exact (inherited_attribute_not_readonly noExtendedAttributes longTypeOnly tk
           Attribute.defaultOptions t eq_refl eq_refl eq_refl eq_refl eq_refl eq_refl).
Defined.

(** ** Primitive types *)

Lemma advance_0 tk : advance tk 0 = tk.
Proof. unfold advance. rewrite Nat.add_0_r. apply tokeniser_eta. Qed.

Lemma advance_advance tk n m : advance (advance tk n) m = advance tk (n + m).
Proof. unfold advance. simpl. now rewrite Nat.add_assoc. Qed.

(** [consume] in terms of [advance]. *)
Lemma consume_advance tk cs :
  exists o, consume tk cs = (o, advance tk (length (option_list o))) /\
    match o with
    | Some t => source tk !! position tk = Some t /\ In (type t) cs
    | None => forall t, source tk !! position tk = Some t -> ~ In (type t) cs
    end.
Proof.
  destruct (consume_cases tk cs) as [(t & -> & Ht & Hin)|(-> & Hn)].
  - exists (Some t). split; [|auto]. unfold advance. simpl. now rewrite Nat.add_1_r.
  - exists None. split; [|auto]. simpl. now rewrite advance_0.
Qed.

Lemma ahead_nil tk : ahead tk [].
Proof. intros k t H. rewrite lookup_nil in H. discriminate. Qed.

Lemma ahead_cons tk t toks :
  source tk !! position tk = Some t -> ahead (advance tk 1) toks -> ahead tk (t :: toks).
Proof.
  intros Ht H [|k] x Hx; simpl in Hx.
  - injection Hx as <-. now rewrite Nat.add_0_r.
  - apply H in Hx. simpl in Hx. now rewrite <- Nat.add_assoc in Hx.
Qed.

Lemma ahead_option tk o toks :
  match o with
  | Some t => source tk !! position tk = Some t
  | None => True
  end ->
  ahead (advance tk (length (option_list o))) toks -> ahead tk (option_list o ++ toks).
Proof.
  destruct o as [t|]; simpl; intros Ht H.
  - now apply ahead_cons.
  - now rewrite advance_0 in H.
Qed.

Lemma integer_type_cases tk :
  match Productions.integer_type tk with
  | Normal (Some p, tk') =>
      tk' = advance tk (length (primitiveTokens p)) /\ ahead tk (primitiveTokens p) /\
      (exists b, Productions.base p = Some b /\ In (type b) [js "short"; js "long"]) /\
      (forall u, Productions.prefix p = Some u -> type u = js "unsigned") /\
      (forall l, Productions.postfix p = Some l -> type l = js "long")
  | Normal (None, tk') =>
      tk' = tk /\
      forall t, source tk !! position tk = Some t ->
        ~ In (type t) [js "unsigned"; js "short"; js "long"]
  | Throw e =>
      (exists u, source tk !! position tk = Some u /\ type u = js "unsigned") /\
      (forall t, source tk !! S (position tk) = Some t ->
         ~ In (type t) [js "short"; js "long"]) /\
      e = WebIDLParseError (syntaxError (source tk) (S (position tk)) (current tk)
            (js "Failed to parse integer type"))
  | OutOfFuel => False
  end.
Proof.
  unfold Productions.integer_type.
  destruct (consume_advance tk [js "unsigned"]) as (o1 & -> & H1).
  destruct (consume_advance (advance tk (length (option_list o1))) [js "short"; js "long"])
    as (o2 & -> & H2).
  destruct o2 as [b|].
  - destruct (consume_advance
                (advance (advance tk (length (option_list o1))) (length (option_list (Some b))))
                [js "long"]) as (o3 & -> & H3).
    unfold primitiveTokens. cbn [Productions.prefix Productions.base Productions.postfix].
    rewrite !advance_advance, !length_app, Nat.add_assoc.
    rewrite advance_advance in H3.
    split; [reflexivity|]. split.
    + apply ahead_option; [destruct o1; tauto|].
      apply ahead_option; [tauto|]. rewrite advance_advance.
      rewrite <- (app_nil_r (option_list o3)).
      apply ahead_option; [destruct o3; tauto|]. apply ahead_nil.
    + split; [exists b; tauto|]. split.
      * intros u ->. destruct H1 as [_ [H|[]]]. now symmetry.
      * intros l ->. destruct H3 as [_ [H|[]]]. now symmetry.
  - destruct o1 as [u|].
    + cbn [option_list length]. rewrite advance_0. unfold error, advance. simpl.
      rewrite Nat.add_1_r. split; [exists u; destruct H1 as [? [H|[]]]; auto|].
      split; [|reflexivity]. simpl in H2. now rewrite Nat.add_1_r in H2.
    + cbn [option_list length]. rewrite !advance_0. split; [reflexivity|].
      cbn [option_list length] in H2. rewrite advance_0 in H2.
      intros t Ht [H|H]; [exact (H1 t Ht (or_introl H))|exact (H2 t Ht H)].
Qed.

Lemma decimal_type_cases tk :
  match Productions.decimal_type tk with
  | Normal (Some p, tk') =>
      tk' = advance tk (length (primitiveTokens p)) /\ ahead tk (primitiveTokens p) /\
      (exists b, Productions.base p = Some b /\ In (type b) [js "float"; js "double"]) /\
      (forall u, Productions.prefix p = Some u -> type u = js "unrestricted") /\
      Productions.postfix p = None
  | Normal (None, tk') =>
      tk' = tk /\
      forall t, source tk !! position tk = Some t ->
        ~ In (type t) [js "unrestricted"; js "float"; js "double"]
  | Throw e =>
      (exists u, source tk !! position tk = Some u /\ type u = js "unrestricted") /\
      (forall t, source tk !! S (position tk) = Some t ->
         ~ In (type t) [js "float"; js "double"]) /\
      e = WebIDLParseError (syntaxError (source tk) (S (position tk)) (current tk)
            (js "Failed to parse float type"))
  | OutOfFuel => False
  end.
Proof.
  unfold Productions.decimal_type.
  destruct (consume_advance tk [js "unrestricted"]) as (o1 & -> & H1).
  destruct (consume_advance (advance tk (length (option_list o1))) [js "float"; js "double"])
    as (o2 & -> & H2).
  destruct o2 as [b|].
  - unfold primitiveTokens. cbn [Productions.prefix Productions.base Productions.postfix].
    rewrite !advance_advance, !length_app, app_nil_r.
    split; [reflexivity|]. split.
    + apply ahead_option; [destruct o1; tauto|].
      rewrite <- (app_nil_r (option_list (Some b))).
      apply ahead_option; [tauto|]. apply ahead_nil.
    + split; [exists b; tauto|]. split; [|reflexivity].
      intros u ->. destruct H1 as [_ [H|[]]]. now symmetry.
  - destruct o1 as [u|].
    + cbn [option_list length]. rewrite advance_0. unfold error, advance. simpl.
      rewrite Nat.add_1_r. split; [exists u; destruct H1 as [? [H|[]]]; auto|].
      split; [|reflexivity]. simpl in H2. now rewrite Nat.add_1_r in H2.
    + cbn [option_list length]. rewrite !advance_0. split; [reflexivity|].
      cbn [option_list length] in H2. rewrite advance_0 in H2.
      intros t Ht [H|H]; [exact (H1 t Ht (or_introl H))|exact (H2 t Ht H)].
Qed.

(** What [primitive_type] does, outcome by outcome. *)
Lemma primitive_type_cases tk :
  match Productions.primitive_type tk with
  | Normal (Some p, tk') =>
      tk' = advance tk (length (primitiveTokens p)) /\ ahead tk (primitiveTokens p) /\
      exists b, Productions.base p = Some b /\
        (In (type b) [js "short"; js "long"] /\
         (forall u, Productions.prefix p = Some u -> type u = js "unsigned") /\
         (forall l, Productions.postfix p = Some l -> type l = js "long") \/
         In (type b) [js "float"; js "double"] /\
         (forall u, Productions.prefix p = Some u -> type u = js "unrestricted") /\
         Productions.postfix p = None \/
         In (type b) [js "boolean"; js "byte"; js "octet"] /\
         Productions.prefix p = None /\ Productions.postfix p = None)
  | Normal (None, tk') =>
      tk' = tk /\
      forall t, source tk !! position tk = Some t ->
        ~ In (type t) [js "unsigned"; js "short"; js "long";
                       js "unrestricted"; js "float"; js "double";
                       js "boolean"; js "byte"; js "octet"]
  | Throw e =>
      exists u, source tk !! position tk = Some u /\
        (type u = js "unsigned" /\
         (forall t, source tk !! S (position tk) = Some t ->
            ~ In (type t) [js "short"; js "long"]) /\
         e = WebIDLParseError (syntaxError (source tk) (S (position tk)) (current tk)
               (js "Failed to parse integer type")) \/
         type u = js "unrestricted" /\
         (forall t, source tk !! S (position tk) = Some t ->
            ~ In (type t) [js "float"; js "double"]) /\
         e = WebIDLParseError (syntaxError (source tk) (S (position tk)) (current tk)
               (js "Failed to parse float type")))
  | OutOfFuel => False
  end.
Proof.
  unfold Productions.primitive_type.
  pose proof (integer_type_cases tk) as Hi.
  destruct (Productions.integer_type tk) as [[[p|] tk1]|e|]; cbn [mbind completion_bind].
  - destruct Hi as (-> & Ha & (b & Hb & Hin) & Hu & Hl).
    split; [reflexivity|]. split; [exact Ha|]. exists b.
    split; [exact Hb|]. left. auto.
  - destruct Hi as (-> & Hn).
    pose proof (decimal_type_cases tk) as Hd.
    destruct (Productions.decimal_type tk) as [[[p|] tk1]|e|]; cbn [mbind completion_bind].
    + destruct Hd as (-> & Ha & (b & Hb & Hin) & Hu & Hl).
      split; [reflexivity|]. split; [exact Ha|]. exists b.
      split; [exact Hb|]. right. left. auto.
    + destruct Hd as (-> & Hn').
      destruct (consume_advance tk [js "boolean"; js "byte"; js "octet"]) as (o & -> & Ho).
      destruct o as [b|].
      * destruct Ho as [Hb Hin]. split; [reflexivity|]. split.
        { apply (ahead_option tk (Some b) []); [exact Hb|apply ahead_nil]. }
        exists b. split; [reflexivity|]. right. right. auto.
      * cbn [option_list length]. rewrite advance_0. split; [reflexivity|].
        intros t Ht Hin. simpl in Hin.
        destruct Hin as [H|[H|[H|[H|[H|[H|Hin]]]]]].
        -- apply (Hn t Ht). left. exact H.
        -- apply (Hn t Ht). right. left. exact H.
        -- apply (Hn t Ht). right. right. left. exact H.
        -- apply (Hn' t Ht). left. exact H.
        -- apply (Hn' t Ht). right. left. exact H.
        -- apply (Hn' t Ht). right. right. left. exact H.
        -- exact (Ho t Ht Hin).
    + destruct Hd as ((u & Hu & Hty) & Hnext & ->). exists u. split; [exact Hu|].
      right. auto.
    + exact Hd.
  - destruct Hi as ((u & Hu & Hty) & Hnext & ->). exists u. split; [exact Hu|].
    left. auto.
  - exact Hi.
Qed.

(** X13: a type that [primitive_type] returns is made of the tokens under
    the cursor, in order and without gaps, and the cursor is moved behind
    them. Its base is one of [short], [long], [float], [double], [boolean],
    [byte] and [octet]; the prefix [unsigned] and the postfix [long] come
    with the bases [short] and [long] only, the prefix [unrestricted] with
    [float] and [double] only. *)
Theorem primitive_type_tokens (tk : Tokeniser) (p : Productions.PrimitiveTokens)
    (tk' : Tokeniser) :
  Productions.primitive_type tk = Normal (Some p, tk') ->
  tk' = advance tk (length (primitiveTokens p)) /\ ahead tk (primitiveTokens p) /\
  exists b, Productions.base p = Some b /\
    (In (type b) [js "short"; js "long"] /\
     (forall u, Productions.prefix p = Some u -> type u = js "unsigned") /\
     (forall l, Productions.postfix p = Some l -> type l = js "long") \/
     In (type b) [js "float"; js "double"] /\
     (forall u, Productions.prefix p = Some u -> type u = js "unrestricted") /\
     Productions.postfix p = None \/
     In (type b) [js "boolean"; js "byte"; js "octet"] /\
     Productions.prefix p = None /\ Productions.postfix p = None).
Proof.
  intros H. pose proof (primitive_type_cases tk) as Hc. rewrite H in Hc. exact Hc.
Qed.

Lemma primitive_type_tokens_witness :
  let tk := mkTokeniser unsignedLongLongTokens 0 None in
  let tk' := mkTokeniser unsignedLongLongTokens 3 None in
  Productions.primitive_type tk = Normal (Some unsignedLongLong, tk') /\
  tk' = advance tk (length (primitiveTokens unsignedLongLong)) /\
  ahead tk (primitiveTokens unsignedLongLong).
Proof.
  intros tk tk'.
  assert (H : Productions.primitive_type tk = Normal (Some unsignedLongLong, tk'))
    by (vm_compute; reflexivity).
  split; [exact H|].
  pose proof (primitive_type_tokens tk unsignedLongLong tk' H) as (H1 & H2 & _).
  exact (conj H1 H2).
Defined.

(** The first token of a returned primitive type is under the cursor and
    is one of the nine keywords. *)
Lemma primitive_type_first tk p tk' :
  Productions.primitive_type tk = Normal (Some p, tk') ->
  exists t, source tk !! position tk = Some t /\
    In (type t) [js "unsigned"; js "short"; js "long";
                 js "unrestricted"; js "float"; js "double";
                 js "boolean"; js "byte"; js "octet"].
Proof.
  intros H. pose proof (primitive_type_cases tk) as Hc. rewrite H in Hc.
  destruct Hc as (_ & Ha & b & Hb & Hs).
  unfold ahead, primitiveTokens in Ha. rewrite Hb in Ha.
  destruct (Productions.prefix p) as [u|] eqn:Hu.
  - exists u. split; [specialize (Ha 0 u eq_refl); now rewrite Nat.add_0_r in Ha|].
    destruct Hs as [(_ & Hpre & _)|[(_ & Hpre & _)|(_ & [=] & _)]];
      rewrite (Hpre u eq_refl); simpl; tauto.
  - exists b. split; [specialize (Ha 0 b eq_refl); now rewrite Nat.add_0_r in Ha|].
    simpl in Hs. simpl. tauto.
Qed.

(** X14: [primitive_type] returns nothing exactly when the token under the
    cursor is none of the nine keywords of the primitive types (or the
    cursor is behind the last token), and then the cursor stays where it
    was. *)
Theorem primitive_type_none (tk : Tokeniser) :
  ((forall t, source tk !! position tk = Some t ->
      ~ In (type t) [js "unsigned"; js "short"; js "long";
                     js "unrestricted"; js "float"; js "double";
                     js "boolean"; js "byte"; js "octet"]) <->
   Productions.primitive_type tk = Normal (None, tk)) /\
  (forall tk', Productions.primitive_type tk = Normal (None, tk') -> tk' = tk).
Proof.
  pose proof (primitive_type_cases tk) as Hc. split; [split|].
  - intros Hn.
    destruct (Productions.primitive_type tk) as [[[p|] tk1]|e|] eqn:E.
    + apply primitive_type_first in E as (t & Ht & Hin). destruct (Hn t Ht Hin).
    + destruct Hc as [-> _]. reflexivity.
    + destruct Hc as (u & Hu & [(Hty & _)|(Hty & _)]);
        destruct (Hn u Hu); rewrite Hty; simpl; tauto.
    + destruct Hc.
  - intros E. rewrite E in Hc. apply Hc.
  - intros tk' E. rewrite E in Hc. apply Hc.
Qed.

(** X15: [primitive_type] throws exactly when the cursor is at [unsigned]
    and neither [short] nor [long] follows, or at [unrestricted] and neither
    [float] nor [double] follows. The syntax error then points behind the
    prefix, with the message [Failed to parse integer type] or
    [Failed to parse float type]. *)
Theorem primitive_type_throws (tk : Tokeniser) (e : exn) :
  Productions.primitive_type tk = Throw e <->
  exists u, source tk !! position tk = Some u /\
    (type u = js "unsigned" /\
     (forall t, source tk !! S (position tk) = Some t ->
        ~ In (type t) [js "short"; js "long"]) /\
     e = WebIDLParseError (syntaxError (source tk) (S (position tk)) (current tk)
           (js "Failed to parse integer type")) \/
     type u = js "unrestricted" /\
     (forall t, source tk !! S (position tk) = Some t ->
        ~ In (type t) [js "float"; js "double"]) /\
     e = WebIDLParseError (syntaxError (source tk) (S (position tk)) (current tk)
           (js "Failed to parse float type"))).
Proof.
  pose proof (primitive_type_cases tk) as Hc. split.
  - intros E. rewrite E in Hc. exact Hc.
  - intros (u & Hu & Hcase).
    destruct (Productions.primitive_type tk) as [[[p|] tk1]|e'|] eqn:E.
    + exfalso. destruct Hc as (_ & Ha & b & Hb & Hs).
      unfold ahead, primitiveTokens in Ha. rewrite Hb in Ha.
      destruct (Productions.prefix p) as [u'|] eqn:Hu'.
      * pose proof (Ha 0 u' eq_refl) as H0. rewrite Nat.add_0_r, Hu in H0.
        injection H0 as <-.
        pose proof (Ha 1 b eq_refl) as H1. rewrite Nat.add_1_r in H1.
        destruct Hs as [(Hin & Hpre & _)|[(Hin & Hpre & _)|(_ & [=] & _)]];
          specialize (Hpre u eq_refl);
          destruct Hcase as [(Hty & Hnext & _)|(Hty & Hnext & _)];
          try (rewrite Hty in Hpre; discriminate Hpre);
          exact (Hnext b H1 Hin).
      * pose proof (Ha 0 b eq_refl) as H0. rewrite Nat.add_0_r, Hu in H0.
        injection H0 as <-.
        destruct Hcase as [(Hty & _)|(Hty & _)]; rewrite Hty in Hs;
          simpl in Hs; intuition discriminate.
    + exfalso. destruct Hc as [_ Hn]. apply (Hn u Hu).
      destruct Hcase as [(Hty & _)|(Hty & _)]; rewrite Hty; simpl; tauto.
    + destruct Hc as (u' & Hu' & Hc). rewrite Hu in Hu'. injection Hu' as <-.
      destruct Hcase as [(Hty & _ & ->)|(Hty & _ & ->)];
        destruct Hc as [(Hty' & _ & ->)|(Hty' & _ & ->)];
        try reflexivity; rewrite Hty in Hty'; discriminate Hty'.
    + destruct Hc.
Qed.

Lemma primitive_type_throws_witness :
  Productions.primitive_type (mkTokeniser unsignedFloatTokens 0 None) =
  Throw (WebIDLParseError (syntaxError unsignedFloatTokens 1 None
           (js "Failed to parse integer type"))).
Proof.
  apply (proj2 (primitive_type_throws (mkTokeniser unsignedFloatTokens 0 None)
                  (WebIDLParseError (syntaxError unsignedFloatTokens 1 None
                     (js "Failed to parse integer type"))))).
  exists (tok "unsigned" "unsigned" "" 1 0). split; [reflexivity|]. left.
  split; [reflexivity|]. split; [|reflexivity].
  intros t Ht. vm_compute in Ht. injection Ht as <-.
  intros [H|[H|[]]]; vm_compute in H; discriminate H.
Defined.

(** ** Comma-separated lists *)
Section ListFacts.
Context {T : Type}.
Variable parser : Tokeniser -> completion (option T * Tokeniser).
Variable set_separator : T -> option TokeniserToken -> T.
Variable get_separator : T -> option TokeniserToken.
Hypothesis get_set : forall x s, get_separator (set_separator x s) = s.

Lemma separated_dangling items : withComma get_separator items -> separated get_separator true items.
Proof.
  intros H k x Hx. apply list_elem_of_lookup_2, list_elem_of_In, H in Hx as (c & -> & Hc).
  auto.
Qed.

Lemma separated_snoc d items x :
  withComma get_separator items -> get_separator x = None -> separated get_separator d (items ++ [x]).
Proof.
  intros H Hx k y Hy. rewrite length_app, Nat.add_1_r.
  destruct (decide (k < length items)) as [Hk|Hk].
  - rewrite lookup_app_l in Hy by exact Hk.
    apply list_elem_of_lookup_2, list_elem_of_In, H in Hy as (c & -> & Hc).
    split; [exact Hc|]. left. lia.
  - rewrite lookup_app_r in Hy by lia.
    destruct (k - length items) as [|n] eqn:E; simpl in Hy; [|now rewrite lookup_nil in Hy].
    injection Hy as <-. rewrite Hx. lia.
Qed.

Lemma withComma_snoc items x c :
  withComma get_separator items -> get_separator x = Some c -> type c = js "," -> withComma get_separator (items ++ [x]).
Proof.
  intros H Hx Hc y Hy. apply in_app_or in Hy as [Hy|[<-|[]]]; [now apply H|eauto].
Qed.

Lemma list_loop_separated fuel d name : forall items tk items' tk',
  withComma get_separator items ->
  Productions.list_loop parser set_separator fuel d name items tk = Normal (items', tk') ->
  separated get_separator d items'.
Proof.
  induction fuel as [|fuel IH]; intros items tk items' tk' Hw; [discriminate|].
  cbn [Productions.list_loop].
  destruct (parser tk) as [[[item|] tk1]|e|]; cbn [mbind completion_bind]; try discriminate.
  - destruct (consume_one_cases tk1 (js ",")) as [(c & -> & _ & Hc & _)|(-> & _)].
    + apply IH. apply (withComma_snoc items _ c); auto.
    + intros [= <- <-]. apply separated_snoc; auto.
  - destruct d; [|discriminate]. intros [= <- <-]. now apply separated_dangling.
Qed.

(** X16: in the list that [list] returns, every item but the last has a
    comma as its separator; the last item has none, unless a dangling comma
    is allowed and the list ends with one. *)
Theorem list_separated (tk : Tokeniser) (allowDangler : bool) (listName : jsstring)
    (items : list T) (tk' : Tokeniser) :
  Productions.list parser set_separator tk allowDangler listName = Normal (items, tk') ->
  separated get_separator allowDangler items.
Proof.
  unfold Productions.list.
  destruct (parser tk) as [[[first|] tk1]|e|]; cbn [mbind completion_bind]; try discriminate.
  - destruct (consume_one_cases tk1 (js ",")) as [(c & -> & _ & Hc & _)|(-> & _)].
    + apply list_loop_separated.
      apply (withComma_snoc [] _ c); auto. intros x [].
    + intros [= <- <-]. apply (separated_snoc _ []); auto. intros x [].
  - intros [= <- <-]. intros k x Hx. now rewrite lookup_nil in Hx.
Qed.

Hypothesis parser_forward : forall tk x tk',
  parser tk = Normal (x, tk') -> source tk' = source tk /\ position tk <= position tk'.
Hypothesis parser_returns : forall tk, parser tk <> OutOfFuel.

Lemma list_loop_returns fuel d name : forall items tk,
  position tk <= length (source tk) -> length (source tk) < fuel + position tk ->
  Productions.list_loop parser set_separator fuel d name items tk <> OutOfFuel.
Proof.
  induction fuel as [|fuel IH]; intros items tk Hle Hlt; [lia|].
  cbn [Productions.list_loop].
  pose proof (parser_returns tk) as Hr. pose proof (parser_forward tk) as Hf.
  destruct (parser tk) as [[[item|] tk1]|e|]; cbn [mbind completion_bind];
    [| |discriminate|congruence].
  - destruct (Hf _ _ eq_refl) as [Hs Hp].
    destruct (consume_one_cases tk1 (js ",")) as [(c & -> & _ & _ & Hc)|(-> & _)];
      [|discriminate].
    apply lookup_lt_Some in Hc. rewrite Hs in Hc. apply IH; simpl; rewrite ?Hs; lia.
  - destruct d; discriminate.
Qed.

(** X17: [list] comes to an end, with a list or with an error, whenever
    the parser of the items does and leaves the cursor where it was or
    further on in the same tokens: every further turn of its loop has
    consumed a comma. *)
Theorem list_returns (tk : Tokeniser) (allowDangler : bool) (listName : jsstring) :
  Productions.list parser set_separator tk allowDangler listName <> OutOfFuel.
Proof.
  unfold Productions.list.
  pose proof (parser_returns tk) as Hr.
  destruct (parser tk) as [[[first|] tk1]|e|]; cbn [mbind completion_bind];
    [| |discriminate|congruence].
  - destruct (consume_one_cases tk1 (js ",")) as [(c & -> & _ & _ & Hc)|(-> & _)];
      [|discriminate].
    apply lookup_lt_Some in Hc. apply list_loop_returns; simpl; lia.
  - discriminate.
Qed.

End ListFacts.

Lemma list_separated_witness :
  let tk := mkTokeniser identifierListTokens 0 None in
  (forall x s, snd (identifierItem_set_separator x s) = s) /\
  Productions.list identifierItem identifierItem_set_separator tk false (js "list")
    = Normal (identifierList, mkTokeniser identifierListTokens 5 None) /\
  separated snd false identifierList.
Proof.
  intros tk.
  assert (H : Productions.list identifierItem identifierItem_set_separator tk false (js "list")
              = Normal (identifierList, mkTokeniser identifierListTokens 5 None))
    by (vm_compute; reflexivity).
  split; [reflexivity|]. split; [exact H|].
  exact (list_separated identifierItem identifierItem_set_separator snd
           (fun x s => eq_refl) tk false (js "list") identifierList
           (mkTokeniser identifierListTokens 5 None) H).
Defined.

Lemma identifierItem_forward tk x tk' :
  identifierItem tk = Normal (x, tk') ->
  source tk' = source tk /\ position tk <= position tk'.
Proof.
  unfold identifierItem.
  destruct (consume_one_cases tk (js "identifier")) as [(c & -> & _)|(-> & _)];
    intros [= <- <-]; simpl; (split; [reflexivity|lia]).
Qed.

Lemma identifierItem_returns tk : identifierItem tk <> OutOfFuel.
Proof.
  unfold identifierItem. destruct (consume tk [js "identifier"]). discriminate.
Qed.

Lemma list_returns_witness :
  (forall tk x tk', identifierItem tk = Normal (x, tk') ->
     source tk' = source tk /\ position tk <= position tk') /\
  (forall tk, identifierItem tk <> OutOfFuel) /\
  Productions.list identifierItem identifierItem_set_separator
    (mkTokeniser identifierListTokens 0 None) false (js "list") <> OutOfFuel.
Proof.
  split; [exact identifierItem_forward|]. split; [exact identifierItem_returns|].
  exact (list_returns identifierItem identifierItem_set_separator
           identifierItem_forward identifierItem_returns
           (mkTokeniser identifierListTokens 0 None) false (js "list")).
Defined.

(** ** Searching from the end *)

Lemma findIndex_cases {T} (p : T -> bool) (l : list T) :
  (Productions.findIndex p l = (-1)%Z /\ forall x, In x l -> p x = false) \/
  (exists k x, Productions.findIndex p l = Z.of_nat k /\ l !! k = Some x /\ p x = true /\
     forall j y, j < k -> l !! j = Some y -> p y = false).
Proof.
  induction l as [|a l IH]; simpl.
  - left. split; [reflexivity|]. intros x [].
  - destruct (p a) eqn:Ha.
    + right. exists 0, a. repeat split; auto. intros j y Hj. lia.
    + destruct IH as [[-> Hn]|(k & x & -> & Hk & Hx & Hlt)].
      * left. split; [reflexivity|]. intros x [<-|Hin]; auto.
      * right. exists (S k), x.
        replace (Z.of_nat k =? -1)%Z with false by (symmetry; apply Z.eqb_neq; lia).
        split; [lia|]. split; [exact Hk|]. split; [exact Hx|].
        intros [|j] y Hj Hy; simpl in Hy; [congruence|]. apply (Hlt j y); [lia|exact Hy].
Qed.

Lemma rev_is_reverse {T} (l : list T) : rev l = reverse l.
Proof. apply rev_alt. Qed.

(** X18: [findLastIndex] gives -1 when no element satisfies the predicate;
    otherwise it gives the index of an element that satisfies it, and no
    element behind that index does. *)
Theorem findLastIndex_spec {T} (array : list T) (predicate : T -> bool) :
  (Productions.findLastIndex array predicate = (-1)%Z /\
   forall x, In x array -> predicate x = false) \/
  (exists k x, Productions.findLastIndex array predicate = Z.of_nat k /\
     array !! k = Some x /\ predicate x = true /\
     forall j y, k < j -> array !! j = Some y -> predicate y = false).
Proof.
  unfold Productions.findLastIndex.
  destruct (findIndex_cases predicate (rev array)) as [[-> Hn]|(k & x & -> & Hk & Hx & Hlt)].
  - left. split; [reflexivity|]. intros x Hin. apply Hn. now apply in_rev in Hin.
  - right. rewrite rev_is_reverse in Hk, Hlt.
    assert (k < length array) as Hlen
      by (apply lookup_lt_Some in Hk; now rewrite length_reverse in Hk).
    rewrite reverse_lookup in Hk by exact Hlen.
    exists (length array - S k), x.
    replace (Z.of_nat k =? -1)%Z with false by (symmetry; apply Z.eqb_neq; lia).
    split; [lia|]. split; [exact Hk|]. split; [exact Hx|].
    intros j y Hj Hy. pose proof (lookup_lt_Some _ _ _ Hy) as Hjl.
    apply (Hlt (length array - S j) y); [lia|].
    rewrite reverse_lookup by lia. replace (length array - S (length array - S j)) with j by lia.
    exact Hy.
Qed.

(** ** Indentation *)

Lemma existsb_lf s : existsb (N.eqb 10) s = true <-> In 10%N s.
Proof.
  rewrite existsb_exists. split.
  - intros (x & Hin & Hx). apply N.eqb_eq in Hx. now subst.
  - intros Hin. exists 10%N. auto.
Qed.

Lemma lastLine_no_lf s : ~ In 10%N s -> Interface.lastLine s = s.
Proof.
  destruct s as [|c s]; [reflexivity|]. intros Hn. simpl.
  destruct (N.eqb_spec c 10) as [->|_]; [destruct Hn; now left|].
  destruct (existsb (N.eqb 10) s) eqn:E; [|reflexivity].
  apply existsb_lf in E. destruct Hn. now right.
Qed.

Lemma lastLine_lf s : Interface.lastLine (10%N :: s) = Interface.lastLine s.
Proof. reflexivity. Qed.

Lemma lastLine_split s :
  exists before, s = before ++ Interface.lastLine s /\
    (before = [] \/ exists b, before = b ++ [10%N]) /\
    ~ In 10%N (Interface.lastLine s).
Proof.
  induction s as [|c s (before & Hs & Hb & Hn)].
  - exists []. simpl. auto.
  - simpl. destruct (N.eqb_spec c 10) as [->|Hc].
    + exists (10%N :: before). split; [simpl; congruence|]. split; [|exact Hn].
      right. destruct Hb as [->|(b & ->)]; [now exists []|now exists (10%N :: b)].
    + destruct (existsb (N.eqb 10) s) eqn:E.
      * exists (c :: before). split; [simpl; congruence|]. split; [|exact Hn].
        right. destruct Hb as [->|(b & ->)]; [|now exists (c :: b)].
        apply existsb_lf in E. simpl in Hs. rewrite Hs in E. contradiction.
      * exists []. split; [reflexivity|]. split; [now left|].
        intros [H|H]; [congruence|]. apply existsb_lf in H. congruence.
Qed.

Lemma takeWhile_split p s :
  exists after, s = Interface.takeWhile p s ++ after /\
    forallb p (Interface.takeWhile p s) = true /\ test p (head after) = false.
Proof.
  induction s as [|c s (after & Hs & Hp & Ha)]; simpl.
  - exists []. auto.
  - destruct (p c) eqn:E.
    + exists after. simpl. rewrite E, Hp. split; [congruence|auto].
    + exists (c :: s). simpl. auto.
Qed.

Lemma takeWhile_all p s : forallb p s = true -> Interface.takeWhile p s = s.
Proof.
  induction s as [|c s IH]; simpl; [reflexivity|].
  intros H. apply andb_true_iff in H as [-> H]. now rewrite IH.
Qed.

(** X19: [getLastIndentation] gives the longest run of white space at the
    start of the last line of its argument: the argument is some text that
    is empty or ends with a line feed, then the indentation, then a rest of
    the line that holds no line feed and does not start with white space. *)
Theorem getLastIndentation_spec (str : jsstring) :
  exists before after,
    str = before ++ Interface.getLastIndentation str ++ after /\
    (before = [] \/ exists b, before = b ++ [10%N]) /\
    ~ In 10%N (Interface.getLastIndentation str ++ after) /\
    forallb Interface.jsWhiteSpace (Interface.getLastIndentation str) = true /\
    test Interface.jsWhiteSpace (head after) = false.
Proof.
  destruct (lastLine_split str) as (before & Hs & Hb & Hn).
  destruct (takeWhile_split Interface.jsWhiteSpace (Interface.lastLine str))
    as (after & Hl & Hw & Ha).
  exists before, after. unfold Interface.getLastIndentation.
  rewrite <- Hl. auto.
Qed.

Lemma getLastIndentation_line w :
  forallb Interface.jsWhiteSpace w = true -> ~ In 10%N w ->
  Interface.getLastIndentation (10%N :: w) = w.
Proof.
  intros Hw Hn. unfold Interface.getLastIndentation.
  rewrite lastLine_lf, lastLine_no_lf by exact Hn. now apply takeWhile_all.
Qed.

Lemma getLastIndentation_clean s :
  forallb Interface.jsWhiteSpace (Interface.getLastIndentation s) = true /\
  ~ In 10%N (Interface.getLastIndentation s).
Proof.
  unfold Interface.getLastIndentation.
  destruct (lastLine_split s) as (before & _ & _ & Hn).
  destruct (takeWhile_split Interface.jsWhiteSpace (Interface.lastLine s))
    as (after & Hl & Hw & _).
  split; [exact Hw|]. intros H. apply Hn. rewrite Hl. apply in_or_app. now left.
Qed.

(** X20: the indentation that the autofixes write is read back as it is:
    after a line feed, [getLastIndentation] of an indentation, and of a
    member indentation, is that indentation. The member indentation is the
    indentation of the parent and one tab, when the parent is indented with
    a tab, and two spaces otherwise. *)
Theorem indentation_read_back (str : jsstring) :
  Interface.getLastIndentation (10%N :: Interface.getLastIndentation str)
    = Interface.getLastIndentation str /\
  Interface.getLastIndentation (10%N :: Productions.getMemberIndentation str)
    = Productions.getMemberIndentation str /\
  (In 9%N (Interface.getLastIndentation str) /\
   Productions.getMemberIndentation str = Interface.getLastIndentation str ++ [9%N] \/
   ~ In 9%N (Interface.getLastIndentation str) /\
   Productions.getMemberIndentation str = Interface.getLastIndentation str ++ [32%N; 32%N]).
Proof.
  destruct (getLastIndentation_clean str) as [Hw Hn].
  split; [now apply getLastIndentation_line|].
  unfold Productions.getMemberIndentation.
  assert (existsb (N.eqb 9) (Interface.getLastIndentation str) = true
          <-> In 9%N (Interface.getLastIndentation str)) as Htab.
  { rewrite existsb_exists. split.
    - intros (x & Hin & Hx). apply N.eqb_eq in Hx. now subst.
    - intros Hin. exists 9%N. auto. }
  destruct (existsb (N.eqb 9) (Interface.getLastIndentation str)) eqn:E.
  - split; [|left; split; [now apply Htab|reflexivity]].
    apply getLastIndentation_line.
    + rewrite forallb_app, Hw. reflexivity.
    + intros H. apply in_app_or in H as [H|[H|[]]]; [contradiction|discriminate].
  - split; [|right; split; [|reflexivity]].
    + apply getLastIndentation_line.
      * rewrite forallb_app, Hw. reflexivity.
      * intros H. apply in_app_or in H as [H|[H|[H|[]]]]; [contradiction|discriminate..].
    + intros H. apply Htab in H. discriminate.
Qed.

(** ** The autofix of the rule [require-exposed] *)

(** X21: under the assumption that the parsers of extended attributes read
    an attribute named [Exposed] from the texts that the autofix hands to
    them, the interface that [autofixAddExposedWindow] returns no longer
    meets the condition of [require-exposed]. Its members and its [partial]
    and name tokens are those of the interface; the names of its extended
    attributes end with the names that the interface had; its base token
    keeps its type, its value and its indentation. *)
Theorem autofix_resolves_require_exposed
    (SimpleExtendedAttribute_parse :
       Tokeniser -> completion (option SimpleExtendedAttribute * Tokeniser))
    (ExtendedAttributes_parse : Tokeniser -> completion (ExtendedAttributes * Tokeniser))
    (def def' : Interface.Interface) :
  (forall tk e tk', newTokeniser (js "Exposed=Window,") = Normal tk ->
     SimpleExtendedAttribute_parse tk = Normal (Some e, tk') -> ea_name e = js "Exposed") ->
  (forall tk p tk', newTokeniser (js "[Exposed=Window]") = Normal tk ->
     ExtendedAttributes_parse tk = Normal (p, tk') ->
     exists e, In e (ea_items p) /\ ea_name e = js "Exposed") ->
  Interface.autofixAddExposedWindow SimpleExtendedAttribute_parse ExtendedAttributes_parse
    def tt = Normal def' ->
  Interface.lacksExposed def' = false /\
  Interface.members def' = Interface.members def /\
  Interface.partial (Interface.tokens def') = Interface.partial (Interface.tokens def) /\
  Interface.name (Interface.tokens def') = Interface.name (Interface.tokens def) /\
  (exists added, added <> [] /\
     map ea_name (ea_items (Interface.extAttrs def'))
     = added ++ map ea_name (ea_items (Interface.extAttrs def))) /\
  (forall b b', Interface.base (Interface.tokens def) = Some b ->
     Interface.base (Interface.tokens def') = Some b' ->
     type b' = type b /\ value b' = value b /\
     Interface.getLastIndentation (trivia b') = Interface.getLastIndentation (trivia b)).
Proof.
  intros Hs He. unfold Interface.autofixAddExposedWindow.
  destruct (ea_items (Interface.extAttrs def)) as [|existing others] eqn:Hitems.
  - destruct (newTokeniser (js "[Exposed=Window]")) as [tk| |] eqn:Htk;
      cbn [mbind completion_bind]; [|intros [=]..].
    destruct (ExtendedAttributes_parse tk) as [[parsed tk']| |] eqn:Hp;
      cbn [mbind completion_bind]; [|intros [=]..].
    destruct (Interface.base (Interface.tokens def)) as [baseTok|]; [|intros [=]].
    destruct (ea_open parsed) as [openTok|]; [|intros [=]].
    intros [= <-]. destruct (He tk parsed tk' eq_refl Hp) as (e & Hin & Hname).
    split; [apply (lacksExposed_named _ e); [exact Hin|exact Hname]|]. simpl.
    split; [reflexivity|]. split; [reflexivity|]. split; [reflexivity|]. split.
    + exists (map ea_name (ea_items parsed)). rewrite app_nil_r. split; [|reflexivity].
      destruct (ea_items parsed); [destruct Hin|intros [=]].
    + intros b b' [= <-] [= <-]. simpl. split; [reflexivity|]. split; [reflexivity|].
      destruct (getLastIndentation_clean (trivia baseTok)) as [Hw Hn].
      now apply getLastIndentation_line.
  - destruct (newTokeniser (js "Exposed=Window,")) as [tk| |] eqn:Htk;
      cbn [mbind completion_bind]; [|intros [=]..].
    destruct (SimpleExtendedAttribute_parse tk) as [[[exposed|] tk']| |] eqn:Hp;
      cbn [mbind completion_bind]; [|intros [=]..].
    destruct (consume tk' [js ","]) as [separator tk''].
    intros [= <-]. pose proof (Hs tk exposed tk' eq_refl Hp) as Hname.
    split; [apply (lacksExposed_named _ (mkExtAttr (ea_name exposed) (ea_tokens_name exposed)
                                           separator)); [left; reflexivity|exact Hname]|].
    simpl. split; [reflexivity|]. split; [reflexivity|]. split; [reflexivity|]. split.
    + exists [ea_name exposed]. split; [intros [=]|]. simpl. f_equal. f_equal.
      now destruct (test _ _).
    + intros b b' Hb Hb'. rewrite Hb in Hb'. injection Hb' as <-. auto.
Qed.

Lemma autofix_resolves_require_exposed_witness :
  (forall tk e tk', newTokeniser (js "Exposed=Window,") = Normal tk ->
     nameEqualsValue tk = Normal (Some e, tk') -> ea_name e = js "Exposed") /\
  (forall tk p tk', newTokeniser (js "[Exposed=Window]") = Normal tk ->
     oneBracketedAttribute tk = Normal (p, tk') ->
     exists e, In e (ea_items p) /\ ea_name e = js "Exposed") /\
  Interface.autofixAddExposedWindow nameEqualsValue oneBracketedAttribute
    secureInterface tt = Normal exposedInterface /\
  Interface.lacksExposed exposedInterface = false /\
  map ea_name (ea_items (Interface.extAttrs exposedInterface))
    = [js "Exposed"; js "SecureContext"].
Proof.
  assert (H1 : forall tk e tk', newTokeniser (js "Exposed=Window,") = Normal tk ->
            nameEqualsValue tk = Normal (Some e, tk') -> ea_name e = js "Exposed").
  { intros tk e tk' Htk Hp. vm_compute in Htk. injection Htk as <-.
    vm_compute in Hp. injection Hp as <- _. reflexivity. }
  assert (H2 : forall tk p tk', newTokeniser (js "[Exposed=Window]") = Normal tk ->
            oneBracketedAttribute tk = Normal (p, tk') ->
            exists e, In e (ea_items p) /\ ea_name e = js "Exposed").
  { intros tk p tk' Htk Hp. vm_compute in Htk. injection Htk as <-.
    vm_compute in Hp. injection Hp as <- _.
    eexists. split; [left; reflexivity|reflexivity]. }
  assert (H3 : Interface.autofixAddExposedWindow nameEqualsValue oneBracketedAttribute
                 secureInterface tt = Normal exposedInterface) by (vm_compute; reflexivity).
  split; [exact H1|]. split; [exact H2|]. split; [exact H3|].
  split; [|reflexivity].
  exact (proj1 (autofix_resolves_require_exposed nameEqualsValue oneBracketedAttribute
                  secureInterface exposedInterface H1 H2 H3)).
Defined.

(** ** Operations and the members that start with a keyword *)
Section OperationParseFacts.
Context {Argument : Type}.
Variable Argument_parse : Tokeniser -> completion (option Argument * Tokeniser).
Variable Argument_set_separator : Argument -> option TokeniserToken -> Argument.
Variable ExtendedAttributes_parse :
  Tokeniser -> completion (ExtendedAttributes * Tokeniser).
Variable Type_parse : Tokeniser -> jsstring -> completion (option IdlType * Tokeniser).
Variable voidType : TokeniserToken -> IdlType.

(** What a successful [Operation.parse] went through. *)
Lemma operation_parse_inv tk special regular o tk' :
  OperationParse.parse Argument_parse Argument_set_separator Type_parse voidType
    tk special regular = Normal (o, tk') ->
  exists op, o = Some op /\
    ((exists s t, special = Some s /\ value s = js "stringifier" /\
        source tk !! position tk = Some t /\ type t = js ";" /\
        Operation.tokens op = Operation.mkTokens special None None None (Some t) /\
        Operation.idlType op = None /\ Operation.arguments op = [] /\
        tk' = advance tk 1) \/
     (exists tk0 ty tk1 p c t,
        source tk0 = source tk /\
        (Operation.special (Operation.tokens op) = special \/
         special = None /\ regular = None /\
         exists g, Operation.special (Operation.tokens op) = Some g /\
           In (type g) [js "getter"; js "setter"; js "deleter"]) /\
        Productions.return_type Type_parse voidType tk0 (js "return-type")
          = Normal (Some ty, tk1) /\
        Operation.idlType op = Some ty /\
        (forall n, Operation.name (Operation.tokens op) = Some n ->
           source tk1 !! position tk1 = Some n /\
           In (type n) [js "identifier"; js "includes"]) /\
        Operation.open (Operation.tokens op) = Some p /\ type p = js "(" /\
        Operation.close (Operation.tokens op) = Some c /\ type c = js ")" /\
        Operation.termination (Operation.tokens op) = Some t /\ type t = js ";" /\
        source tk' !! (position tk' - 2) = Some c /\
        source tk' !! (position tk' - 1) = Some t)).
Proof.
  unfold OperationParse.parse.
  match goal with
  | |- (if _ then _ else ?r) = _ -> _ =>
      let f := eval pattern tk in r in
      match f with ?g _ => pose (rest := g) end
  end.
  assert (Hrest : forall tk0 : Tokeniser, source tk0 = source tk ->
            rest tk0 = Normal (o, tk') ->
            exists op, o = Some op /\
              exists tk00 ty tk1 p c t,
                source tk00 = source tk /\
                (Operation.special (Operation.tokens op) = special \/
                 special = None /\ regular = None /\
                 exists g, Operation.special (Operation.tokens op) = Some g /\
                   In (type g) [js "getter"; js "setter"; js "deleter"]) /\
                Productions.return_type Type_parse voidType tk00 (js "return-type")
                  = Normal (Some ty, tk1) /\
                Operation.idlType op = Some ty /\
                (forall n, Operation.name (Operation.tokens op) = Some n ->
                   source tk1 !! position tk1 = Some n /\
                   In (type n) [js "identifier"; js "includes"]) /\
                Operation.open (Operation.tokens op) = Some p /\ type p = js "(" /\
                Operation.close (Operation.tokens op) = Some c /\ type c = js ")" /\
                Operation.termination (Operation.tokens op) = Some t /\ type t = js ";" /\
                source tk' !! (position tk' - 2) = Some c /\
                source tk' !! (position tk' - 1) = Some t).
  { intros tk0 Hsrc. unfold rest. cbv beta.
    assert (exists sp tka,
      (if negb (bool_decide (is_Some special)) && negb (bool_decide (is_Some regular))
       then consume tk0 [js "getter"; js "setter"; js "deleter"]
       else (special, tk0)) = (sp, tka) /\ source tka = source tk /\
      (sp = special \/
       special = None /\ regular = None /\
       exists g, sp = Some g /\ In (type g) [js "getter"; js "setter"; js "deleter"]))
      as (sp & tka & -> & Hsa & Hsp).
    { destruct (negb (bool_decide (is_Some special))
                && negb (bool_decide (is_Some regular))) eqn:G.
      - apply andb_true_iff in G as [G1 G2].
        apply negb_true_iff, bool_decide_eq_false in G1.
        apply negb_true_iff, bool_decide_eq_false in G2.
        assert (special = None) as -> by (destruct special; [destruct G1; eauto|reflexivity]).
        assert (regular = None) as -> by (destruct regular; [destruct G2; eauto|reflexivity]).
        destruct (consume_cases tk0 [js "getter"; js "setter"; js "deleter"])
          as [(g & -> & Hg & Hin)|(-> & _)].
        + eexists _, _. split; [reflexivity|]. split; [exact Hsrc|].
          right. split; [reflexivity|]. split; [reflexivity|]. exists g. auto.
        + eexists _, _. split; [reflexivity|]. auto.
      - eexists _, _. split; [reflexivity|]. auto. }
    destruct (Productions.return_type Type_parse voidType tka (js "return-type"))
      as [[[ty|] tk1]| |] eqn:Hty; cbn [mbind completion_bind Attribute.orError];
      [|intros [=]..].
    destruct (consume_advance tk1 [js "identifier"; js "includes"]) as (n & -> & Hn).
    set (tk2 := advance tk1 (length (option_list n))).
    destruct (consume_one_cases tk2 (js "(")) as [(p & -> & _ & Hp & _)|(-> & _)];
      cbn [mbind completion_bind Attribute.orError]; [|intros [=]].
    destruct (OperationParse.argument_list Argument_parse Argument_set_separator _)
      as [[args tk3]| |]; cbn [mbind completion_bind]; [|intros [=]..].
    destruct (consume_one_cases tk3 (js ")")) as [(c & -> & _ & Hc & Hlc)|(-> & _)];
      cbn [mbind completion_bind Attribute.orError]; [|intros [=]].
    destruct (consume_one_cases (mkTokeniser (source tk3) (S (position tk3)) (current tk3))
                (js ";")) as [(t & -> & _ & Ht & Hlt)|(-> & _)];
      cbn [mbind completion_bind Attribute.orError]; [|intros [=]].
    intros [= <- <-]. eexists. split; [reflexivity|].
    exists tka, ty, tk1, p, c, t. simpl. simpl in Hlt. rewrite !Nat.sub_0_r.
    split; [exact Hsa|]. split; [exact Hsp|]. split; [exact Hty|].
    split; [reflexivity|]. split; [intros n' ->; exact Hn|].
    repeat (split; [first [reflexivity|assumption]|]). assumption. }
  destruct special as [s|].
  - destruct (jsstring_eqb (value s) (js "stringifier")) eqn:Hv; [|intros H].
    + destruct (consume_one_cases tk (js ";")) as [(t & -> & _ & Ht & Hl)|(-> & _)].
      * intros [= <- <-]. eexists. split; [reflexivity|]. left.
        exists s, t. apply jsstring_eqb_eq in Hv. unfold advance. rewrite Nat.add_1_r.
        simpl. auto 10.
      * intros H. destruct (Hrest tk eq_refl H) as (op & -> & Hop). eauto.
    + destruct (Hrest tk eq_refl H) as (op & -> & Hop). eauto.
  - intros H. destruct (Hrest tk eq_refl H) as (op & -> & Hop). eauto.
Qed.

(** X22: [Operation.parse] never returns nothing. The operation it returns
    is either the bare [stringifier] followed by a semicolon, without a type
    and without arguments, or it has a return type, the tokens [(] and [)]
    and a semicolon, of which the last two are the tokens right before the
    returned cursor; its name token, if there is one, is an identifier or
    the keyword [includes]; its special token is the one the caller gave or,
    when the caller gave neither a special nor a regular token, a consumed
    [getter], [setter] or [deleter]. *)
Theorem operation_parse_shape (tk : Tokeniser) (special regular : option TokeniserToken)
    (o : option (Operation.Operation Argument)) (tk' : Tokeniser) :
  OperationParse.parse Argument_parse Argument_set_separator Type_parse voidType
    tk special regular = Normal (o, tk') ->
  exists op, o = Some op /\
    (Operation.idlType op = None ->
     exists s t, special = Some s /\ value s = js "stringifier" /\
       source tk !! position tk = Some t /\ type t = js ";" /\
       Operation.tokens op = Operation.mkTokens special None None None (Some t) /\
       Operation.arguments op = [] /\ tk' = advance tk 1) /\
    (is_Some (Operation.idlType op) ->
     (exists p c t,
        Operation.open (Operation.tokens op) = Some p /\ type p = js "(" /\
        Operation.close (Operation.tokens op) = Some c /\ type c = js ")" /\
        Operation.termination (Operation.tokens op) = Some t /\ type t = js ";" /\
        source tk' !! (position tk' - 2) = Some c /\
        source tk' !! (position tk' - 1) = Some t) /\
     (forall n, Operation.name (Operation.tokens op) = Some n ->
        In (type n) [js "identifier"; js "includes"]) /\
     (Operation.special (Operation.tokens op) = special \/
      special = None /\ regular = None /\
      exists g, Operation.special (Operation.tokens op) = Some g /\
        In (type g) [js "getter"; js "setter"; js "deleter"])).
Proof.
  intros H. apply operation_parse_inv in H as (op & -> & Hop). exists op.
  split; [reflexivity|].
  destruct Hop as [(s & t & Hs & Hv & Ht & Hty & Htok & Hid & Ha & Htk)|
                   (tk0 & ty & tk1 & p & c & t & _ & Hsp & _ & Hid & Hn & Hrest)].
  - split; [intros _; exists s, t; auto 10|]. rewrite Hid. intros [? [=]].
  - split; [rewrite Hid; intros [=]|]. intros _.
    split; [exists p, c, t; exact Hrest|]. split; [|exact Hsp].
    intros n Hname. exact (proj2 (Hn n Hname)).
Qed.

(** The members that start with a keyword: an attribute, else an
    operation. *)
Lemma memberAfter_cases s msg tk :
  let opts := Attribute.mkOptions (Some s) false false in
  match OperationParse.memberAfter Argument_parse Argument_set_separator
          ExtendedAttributes_parse Type_parse voidType s msg tk with
  | Normal (r, tk') =>
      (exists a, r = Some (inl a) /\
         Attribute.parse ExtendedAttributes_parse Type_parse tk opts = Normal (Some a, tk')) \/
      (exists op, r = Some (inr op) /\
         Attribute.parse ExtendedAttributes_parse Type_parse tk opts = Normal (None, tk) /\
         OperationParse.parse Argument_parse Argument_set_separator Type_parse voidType
           tk (Some s) None = Normal (Some op, tk'))
  | Throw e =>
      Attribute.parse ExtendedAttributes_parse Type_parse tk opts = Throw e \/
      Attribute.parse ExtendedAttributes_parse Type_parse tk opts = Normal (None, tk) /\
      OperationParse.parse Argument_parse Argument_set_separator Type_parse voidType
        tk (Some s) None = Throw e
  | OutOfFuel =>
      Attribute.parse ExtendedAttributes_parse Type_parse tk opts = OutOfFuel \/
      Attribute.parse ExtendedAttributes_parse Type_parse tk opts = Normal (None, tk) /\
      OperationParse.parse Argument_parse Argument_set_separator Type_parse voidType
        tk (Some s) None = OutOfFuel
  end.
Proof.
  intros opts. unfold OperationParse.memberAfter. fold opts.
  destruct (Attribute.parse ExtendedAttributes_parse Type_parse tk opts)
    as [[[a|] tk1]|e|] eqn:Ha; cbn [mbind completion_bind]; [eauto| |auto..].
  assert (tk1 = tk) as -> by exact (attribute_parse_none _ _ _ _ _ Ha).
  destruct (OperationParse.parse Argument_parse Argument_set_separator Type_parse voidType
              tk (Some s) None) as [[o tk2]|e|] eqn:Ho; cbn [mbind completion_bind];
    [|auto..].
  apply operation_parse_inv in Ho as Hop. destruct Hop as (op & -> & _). eauto.
Qed.

(** X23: [stringifier] returns nothing only when the cursor is not at the
    keyword [stringifier], and then leaves the cursor where it was. After
    the keyword it returns the attribute or, failing that, the operation
    that follows; every error it throws is thrown by [Attribute.parse] or by
    [Operation.parse], called right behind the keyword with the keyword as
    special token: its own error [Unterminated stringifier] is never
    reached. *)
Theorem stringifier_outcome (tk : Tokeniser) :
  (forall tk', OperationParse.stringifier Argument_parse Argument_set_separator
                 ExtendedAttributes_parse Type_parse voidType tk = Normal (None, tk') ->
     tk' = tk /\ probe tk (js "stringifier") = false) /\
  (forall e, OperationParse.stringifier Argument_parse Argument_set_separator
               ExtendedAttributes_parse Type_parse voidType tk = Throw e ->
     exists s, source tk !! position tk = Some s /\ type s = js "stringifier" /\
       (Attribute.parse ExtendedAttributes_parse Type_parse (advance tk 1)
          (Attribute.mkOptions (Some s) false false) = Throw e \/
        Attribute.parse ExtendedAttributes_parse Type_parse (advance tk 1)
          (Attribute.mkOptions (Some s) false false) = Normal (None, advance tk 1) /\
        OperationParse.parse Argument_parse Argument_set_separator Type_parse voidType
          (advance tk 1) (Some s) None = Throw e)).
Proof.
  unfold OperationParse.stringifier.
  destruct (consume_one_cases tk (js "stringifier")) as [(s & -> & _ & Hty & Hl)|(-> & P)].
  - replace (mkTokeniser (source tk) (S (position tk)) (current tk)) with (advance tk 1)
      by (unfold advance; now rewrite Nat.add_1_r).
    pose proof (memberAfter_cases s (js "Unterminated stringifier") (advance tk 1)) as Hc.
    cbv zeta in Hc.
    destruct (OperationParse.memberAfter _ _ _ _ _ s _ (advance tk 1)) as [[r tk1]|e0|].
    + split; [|intros e [=]]. intros tk' [= -> ->].
      destruct Hc as [(a & [=] & _)|(op & [=] & _)].
    + split; [intros tk' [=]|]. intros e [= <-]. exists s. auto.
    + split; [intros tk' [=]|intros e [=]].
  - split; [|intros e [=]]. intros tk' [= <-]. auto.
Qed.

(** X24: [static_member] returns nothing only when the cursor is not at
    the keyword [static], and then leaves the cursor where it was. After the
    keyword, every error it throws is thrown by [Attribute.parse] or by
    [Operation.parse]: its own error [No body in static member] is never
    reached. *)
Theorem static_member_outcome (tk : Tokeniser) :
  (forall tk', OperationParse.static_member Argument_parse Argument_set_separator
                 ExtendedAttributes_parse Type_parse voidType tk = Normal (None, tk') ->
     tk' = tk /\ probe tk (js "static") = false) /\
  (forall e, OperationParse.static_member Argument_parse Argument_set_separator
               ExtendedAttributes_parse Type_parse voidType tk = Throw e ->
     exists s, source tk !! position tk = Some s /\ type s = js "static" /\
       (Attribute.parse ExtendedAttributes_parse Type_parse (advance tk 1)
          (Attribute.mkOptions (Some s) false false) = Throw e \/
        Attribute.parse ExtendedAttributes_parse Type_parse (advance tk 1)
          (Attribute.mkOptions (Some s) false false) = Normal (None, advance tk 1) /\
        OperationParse.parse Argument_parse Argument_set_separator Type_parse voidType
          (advance tk 1) (Some s) None = Throw e)).
Proof.
  unfold OperationParse.static_member.
  destruct (consume_one_cases tk (js "static")) as [(s & -> & _ & Hty & Hl)|(-> & P)].
  - replace (mkTokeniser (source tk) (S (position tk)) (current tk)) with (advance tk 1)
      by (unfold advance; now rewrite Nat.add_1_r).
    pose proof (memberAfter_cases s (js "No body in static member") (advance tk 1)) as Hc.
    cbv zeta in Hc.
    destruct (OperationParse.memberAfter _ _ _ _ _ s _ (advance tk 1)) as [[r tk1]|e0|].
    + split; [|intros e [=]]. intros tk' [= -> ->].
      destruct Hc as [(a & [=] & _)|(op & [=] & _)].
    + split; [intros tk' [=]|]. intros e [= <-]. exists s. auto.
    + split; [intros tk' [=]|intros e [=]].
  - split; [|intros e [=]]. intros tk' [= <-]. auto.
Qed.

End OperationParseFacts.

Lemma operation_parse_shape_witness :
  let tk := mkTokeniser operationTokens 0 None in
  let tk' := mkTokeniser operationTokens 8 None in
  OperationParse.parse identifierItem identifierItem_set_separator longTypeOnly voidTypeOf
    tk None None = Normal (Some parsedOperation, tk') /\
  exists op, Some parsedOperation = Some op /\
    (is_Some (Operation.idlType op) ->
     forall n, Operation.name (Operation.tokens op) = Some n ->
       In (type n) [js "identifier"; js "includes"]).
Proof.
  intros tk tk'.
  assert (H : OperationParse.parse identifierItem identifierItem_set_separator longTypeOnly
                voidTypeOf tk None None = Normal (Some parsedOperation, tk'))
    by (vm_compute; reflexivity).
  split; [exact H|].
  destruct (operation_parse_shape identifierItem identifierItem_set_separator longTypeOnly
              voidTypeOf tk None None (Some parsedOperation) tk' H) as (op & Hop & _ & Hfull).
  exists op. split; [exact Hop|]. intros Hty. exact (proj1 (proj2 (Hfull Hty))).
Defined.

Section ParsedOperations.
Context {Argument : Type}.
Variable Argument_parse : Tokeniser -> completion (option Argument * Tokeniser).
Variable Argument_set_separator : Argument -> option TokeniserToken -> Argument.
Variable Type_parse : Tokeniser -> jsstring -> completion (option IdlType * Tokeniser).
Variable voidType : TokeniserToken -> IdlType.
Hypothesis Type_parse_source : forall tk typeName r tk',
  Type_parse tk typeName = Normal (r, tk') -> source tk' = source tk.

Lemma return_type_source tk typeName r tk' :
  Productions.return_type Type_parse voidType tk typeName = Normal (r, tk') ->
  source tk' = source tk.
Proof.
  unfold Productions.return_type.
  destruct (Type_parse tk _) as [[[ty|] tk1]| |] eqn:E; cbn [mbind completion_bind];
    [| |intros [=]..].
  - intros [= <- <-]. exact (Type_parse_source _ _ _ _ E).
  - apply Type_parse_source in E.
    destruct (consume_one_cases tk1 (js "void")) as [(v & -> & _)|(-> & _)];
      intros [= <- <-]; exact E.
Qed.

(** X25: on the tokens of an input, and with a parser of types that hands
    back the same tokens, an operation that [Operation.parse] returns meets
    the condition of the rule [incomplete-op] exactly when it has no name
    token and its special is empty or [static]: a name token never stands
    for the empty name. *)
Theorem parsed_operation_incomplete (I : jsstring) (tk : Tokeniser)
    (special regular : option TokeniserToken)
    (op : Operation.Operation Argument) (tk' : Tokeniser) :
  tokenise I = Normal (source tk) ->
  OperationParse.parse Argument_parse Argument_set_separator Type_parse voidType
    tk special regular = Normal (Some op, tk') ->
  (Operation.incomplete op = true <->
   Operation.name (Operation.tokens op) = None /\
   (Operation.get_special op = [] \/ Operation.get_special op = js "static")).
Proof.
  intros HI H. rewrite incomplete_iff.
  assert (Operation.get_name op = [] <-> Operation.name (Operation.tokens op) = None) as ->;
    [|reflexivity].
  unfold Operation.get_name.
  destruct (Operation.name (Operation.tokens op)) as [n|] eqn:Hname; [|tauto].
  split; [|intros [=]]. intros Hempty. exfalso.
  apply operation_parse_inv in H as (op' & [= <-] & Hop).
  destruct Hop as [(s & t & _ & _ & _ & _ & Htok & _)|
                   (tk0 & ty & tk1 & p & c & t & Hs0 & _ & Hty & _ & Hn & _)].
  - rewrite Htok in Hname. discriminate Hname.
  - destruct (Hn n Hname) as [Hl Hin].
    apply return_type_source in Hty. rewrite Hty, Hs0 in Hl.
    apply tokenise_described in HI as (front & trailing & Hsrc & Hpos & _).
    rewrite Hsrc in Hl. apply list_elem_of_lookup_2, list_elem_of_In, in_app_or in Hl.
    assert (type n = js "identifier" \/ type n = js "includes") as Hkind
      by (simpl in Hin; intuition).
    destruct Hl as [Hl|[<-|[]]].
    + destruct (lexeme_In I front n Hpos Hl) as [i Hlex].
      exact (lexeme_name I i n Hlex Hkind Hempty).
    + simpl in Hkind. destruct Hkind as [Hk|Hk]; vm_compute in Hk; discriminate Hk.
Qed.

End ParsedOperations.

Lemma longTypeOnly_source tk typeName r tk' :
  longTypeOnly tk typeName = Normal (r, tk') -> source tk' = source tk.
Proof.
  unfold longTypeOnly.
  destruct (consume_one_cases tk (js "long")) as [(t & -> & _)|(-> & _)];
    intros [= <- <-]; reflexivity.
Qed.

Lemma parsed_operation_incomplete_witness :
  let tk := mkTokeniser staticOperationTokens 1 None in
  let tk' := mkTokeniser staticOperationTokens 5 None in
  (forall tk typeName r tk',
     longTypeOnly tk typeName = Normal (r, tk') -> source tk' = source tk) /\
  tokenise (js "static long ();") = Normal (source tk) /\
  OperationParse.parse identifierItem identifierItem_set_separator longTypeOnly voidTypeOf
    tk (staticOperationTokens !! 0) None = Normal (Some staticOperation, tk') /\
  Operation.incomplete staticOperation = true.
Proof.
  intros tk tk'.
  assert (HI : tokenise (js "static long ();") = Normal (source tk))
    by (vm_compute; reflexivity).
  assert (H : OperationParse.parse identifierItem identifierItem_set_separator longTypeOnly
                voidTypeOf tk (staticOperationTokens !! 0) None
              = Normal (Some staticOperation, tk')) by (vm_compute; reflexivity).
  split; [exact longTypeOnly_source|]. split; [exact HI|]. split; [exact H|].
  apply (proj2 (parsed_operation_incomplete identifierItem identifierItem_set_separator
                  longTypeOnly voidTypeOf longTypeOnly_source (js "static long ();") tk
                  (staticOperationTokens !! 0) None staticOperation tk' HI H)).
  split; [reflexivity|]. right. reflexivity.
Defined.

(** ** What the typedef analysis reports *)

Lemma soundCache_set def v defs :
  soundCache defs ->
  (forall r, v = Some r -> namesDictionary defs r) ->
  soundCache (Helpers.set_typedefIncludesDictionary def v defs).
Proof.
  intros Hc Hv id r. simpl. destruct (decide (id = def_id def)) as [->|Hne].
  - rewrite lookup_insert_eq. intros [= ->]. exact (Hv r eq_refl).
  - rewrite lookup_insert_ne by congruence. apply Hc.
Qed.

Lemma namesDictionary_unique defs defs' r :
  unique defs' = unique defs -> namesDictionary defs r -> namesDictionary defs' r.
Proof. unfold namesDictionary. intros ->. tauto. Qed.

Lemma soundCache_names defs defs' :
  unique defs' = unique defs -> soundCache defs' ->
  forall id r, typedefIncludesDictionary (cache defs') !! id = Some (Some r) ->
    namesDictionary defs r.
Proof.
  intros Hu Hc id r H. apply (namesDictionary_unique defs'); [now symmetry|].
  exact (Hc id r H).
Qed.

(** The statement that is carried through the recursion. *)
Lemma forSubtypes_sound recur l : forall defs r defs',
  (forall t d r' d', In t l -> soundCache d -> recur t d = Normal (r', d') ->
     soundCache d' /\ unique d' = unique d /\
     forall x, r' = Some x -> namesDictionary d x) ->
  soundCache defs ->
  Helpers.forSubtypes recur l defs = Normal (r, defs') ->
  soundCache defs' /\ unique defs' = unique defs /\
  forall x, r = Some x -> namesDictionary defs x.
Proof.
  induction l as [|t l IH]; intros defs r defs' Hrec Hc H; simpl in H.
  - injection H as <- <-. split; [exact Hc|]. split; [reflexivity|]. intros x [=].
  - destruct (recur t defs) as [[r1 d1]| |] eqn:E; cbn [mbind completion_bind] in H;
      [|discriminate H..].
    destruct (Hrec t defs r1 d1 (or_introl eq_refl) Hc E) as (Hc1 & Hu1 & Hr1).
    destruct r1 as [r1|].
    + destruct (union t); injection H as <- <-;
        (split; [exact Hc1|]; split; [exact Hu1|]); intros x [= <-];
        [exact (Hr1 r1 eq_refl)|exact (Hr1 r1 eq_refl)].
    + destruct (IH d1 r defs') as (Hc2 & Hu2 & Hr2); [|exact Hc1|exact H|].
      * intros t' d r' d' Hin. apply Hrec. now right.
      * split; [exact Hc2|]. split; [congruence|].
        intros x Hx. apply (namesDictionary_unique d1); [now symmetry|]. exact (Hr2 x Hx).
Qed.

Lemma idlTypeIncludesDictionary_rec_sound fuel : forall ty defs u r defs',
  soundCache defs ->
  Helpers.idlTypeIncludesDictionary_rec fuel ty defs u = Normal (r, defs') ->
  soundCache defs' /\ unique defs' = unique defs /\
  forall x, r = Some x -> namesDictionary defs x.
Proof.
  induction fuel as [|fuel IH]; intros ty defs u r defs' Hc H; [discriminate H|].
  simpl in H.
  assert (Hloop : forall d r0 d0, soundCache d ->
            Helpers.forSubtypes (fun t d1 => Helpers.idlTypeIncludesDictionary_rec fuel t d1 false)
              (subtype ty) d = Normal (r0, d0) ->
            soundCache d0 /\ unique d0 = unique d /\
            forall x, r0 = Some x -> namesDictionary d x).
  { intros d r0 d0 Hd. apply forSubtypes_sound; [|exact Hd].
    intros t d1 r' d' _ Hd1. apply IH. exact Hd1. }
  destruct (negb (union ty)); [|eapply Hloop; [exact Hc|exact H]].
  destruct (Helpers.unique_get defs (idlType ty)) as [def|] eqn:Hget.
  2:{ injection H as <- <-. split; [exact Hc|]. split; [reflexivity|]. intros x [=]. }
  assert (Hdef : exists name, unique defs !! name = Some def).
  { unfold Helpers.unique_get in Hget. destruct (idlType ty) as [name|]; [|discriminate Hget].
    eauto. }
  assert (Hafter : forall d r0 d0, soundCache d -> unique d = unique defs ->
            (if jsstring_eqb (def_type def) (js "dictionary") && (u || negb (nullable ty))
             then Normal (Some (mkIdlTypeDictionary ty def), d)
             else Helpers.forSubtypes
                    (fun t d1 => Helpers.idlTypeIncludesDictionary_rec fuel t d1 false)
                    (subtype ty) d) = Normal (r0, d0) ->
            soundCache d0 /\ unique d0 = unique d /\
            forall x, r0 = Some x -> namesDictionary d x).
  { intros d r0 d0 Hd Hu Ha.
    destruct (jsstring_eqb (def_type def) (js "dictionary") && _) eqn:G;
      [|eapply Hloop; [exact Hd|exact Ha]].
    injection Ha as <- <-. split; [exact Hd|]. split; [reflexivity|].
    intros x [= <-]. apply andb_true_iff in G as [G _]. apply jsstring_eqb_eq in G.
    split; [exact G|]. simpl. rewrite Hu. exact Hdef. }
  destruct (jsstring_eqb (def_type def) (js "typedef"));
    [|eapply Hafter; [exact Hc|reflexivity|exact H]].
  destruct (typedefIncludesDictionary (cache defs) !! def_id def) as [cached|] eqn:Hcache.
  { injection H as <- <-. split; [exact Hc|]. split; [reflexivity|].
    intros x ->. exact (Hc _ _ Hcache). }
  destruct (def_idlType def) as [target|]; [|discriminate H].
  destruct (Helpers.idlTypeIncludesDictionary_rec fuel target _ false)
    as [[r1 d1]| |] eqn:E; cbn [mbind completion_bind] in H; [|discriminate H..].
  apply IH in E as (Hc1 & Hu1 & Hr1).
  2:{ apply soundCache_set; [exact Hc|]. intros x [=]. }
  simpl in Hu1.
  assert (Hr1' : forall x, r1 = Some x -> namesDictionary defs x).
  { intros x Hx. apply (namesDictionary_unique
                          (Helpers.set_typedefIncludesDictionary def None defs));
      [reflexivity|]. exact (Hr1 x Hx). }
  assert (Hc2 : soundCache (Helpers.set_typedefIncludesDictionary def r1 d1)).
  { apply soundCache_set; [exact Hc1|]. intros x Hx.
    apply (namesDictionary_unique defs); [exact Hu1|]. exact (Hr1' x Hx). }
  destruct r1 as [r1|].
  - injection H as <- <-. split; [exact Hc2|]. split; [exact Hu1|].
    intros x [= <-]. exact (Hr1' r1 eq_refl).
  - destruct (Hafter _ r defs' Hc2 Hu1 H) as (Hc3 & Hu3 & Hr3).
    split; [exact Hc3|]. split; [simpl in Hu3; congruence|].
    intros x Hx. apply (namesDictionary_unique
                          (Helpers.set_typedefIncludesDictionary def None d1));
      [simpl; now symmetry|]. exact (Hr3 x Hx).
Qed.

(** X26: what [idlTypeIncludesDictionary] reports is a dictionary of the
    index: when every result in the typedef cache names a definition of
    the index whose type is [dictionary], so does the result of the call,
    and so does every result in the cache that the call leaves behind; the
    index itself is left as it was. *)
Theorem included_dictionary_is_dictionary (ty : IdlType) (defs : Definitions)
    (useNullableInner : bool) (r : option IdlTypeDictionary) (defs' : Definitions) :
  soundCache defs ->
  Helpers.idlTypeIncludesDictionary ty defs useNullableInner = Normal (r, defs') ->
  (forall x, r = Some x -> namesDictionary defs x) /\
  soundCache defs' /\ unique defs' = unique defs.
Proof.
  intros Hc H. apply idlTypeIncludesDictionary_rec_sound in H as (H1 & H2 & H3); auto.
Qed.

Lemma included_dictionary_is_dictionary_witness :
  soundCache plainDefinitions /\
  exists r defs',
    Helpers.idlTypeIncludesDictionary (namedType 13 "T") plainDefinitions false
      = Normal (Some r, defs') /\
    dictionary r = plainDictionary /\ namesDictionary plainDefinitions r.
Proof.
  assert (Hc : soundCache plainDefinitions).
  { intros id r H. simpl in H. rewrite lookup_empty in H. discriminate H. }
  assert (E : exists r defs',
            Helpers.idlTypeIncludesDictionary (namedType 13 "T") plainDefinitions false
              = Normal (Some r, defs') /\ dictionary r = plainDictionary).
  { eexists _, _. split; [vm_compute; reflexivity|reflexivity]. }
  destruct E as (r & defs' & E & Hd).
  split; [exact Hc|]. exists r, defs'. split; [exact E|]. split; [exact Hd|].
  exact (proj1 (included_dictionary_is_dictionary (namedType 13 "T") plainDefinitions false
                  (Some r) defs' Hc E) r eq_refl).
Defined.

(** ** The rules of [Interface.validate] about constructors *)

Lemma filter_bool_In {A} (f : A -> bool) (l : list A) (x : A) :
  In x (filter (fun a => f a) l) <-> In x l /\ f x = true.
Proof.
  rewrite <- !list_elem_of_In, list_elem_of_filter, Is_true_true. tauto.
Qed.

Lemma filter_bool_none {A} (f : A -> bool) (l : list A) :
  (forall x, In x l -> f x = false) -> filter (fun a => f a) l = [].
Proof.
  induction l as [|a l IH]; intros H; [reflexivity|].
  rewrite filter_cons_False.
  - apply IH. intros x Hx. apply H. now right.
  - rewrite (H a (or_introl eq_refl)). exact id.
Qed.

Lemma filter_bool_all {A} (f : A -> bool) (l : list A) :
  (forall x, In x l -> f x = true) -> filter (fun a => f a) l = l.
Proof.
  induction l as [|a l IH]; intros H; [reflexivity|].
  rewrite filter_cons_True.
  - f_equal. apply IH. intros x Hx. apply H. now right.
  - rewrite (H a (or_introl eq_refl)). exact I.
Qed.

Lemma other_rule {N} (rule : jsstring) (l : list (Diagnostic N)) :
  (forall d, In d l -> ruleName d <> rule) ->
  forall d, In d l -> jsstring_eqb (ruleName d) rule = false.
Proof.
  intros H d Hd. destruct (jsstring_eqb (ruleName d) rule) eqn:E; [|reflexivity].
  apply jsstring_eqb_eq in E. destruct (H d Hd E).
Qed.

Section InterfaceRules.
Variable SimpleExtendedAttribute_parse :
  Tokeniser -> completion (option SimpleExtendedAttribute * Tokeniser).
Variable ExtendedAttributes_parse :
  Tokeniser -> completion (ExtendedAttributes * Tokeniser).
Variable autofixConstructor :
  Interface.Interface -> SimpleExtendedAttribute -> unit -> completion Interface.Interface.
Variable ExtendedAttributes_validate :
  Definitions -> ExtendedAttributes -> list (Diagnostic Interface.Interface).
Variable Container_validate : Definitions -> Interface.Interface -> list (Diagnostic Interface.Interface).
Variable checkInterfaceMemberDuplication :
  Definitions -> Interface.Interface -> list (Diagnostic Interface.Interface).
Variable defs : Definitions.
Variable this : Interface.Interface.

(** X27: provided the validators that [Interface.validate] delegates to
    yield no [constructor-member] of their own, [Interface.validate] yields
    the diagnostics of kind [constructor-member] one for one for the
    extended attributes named [Constructor]: each is bound to the name token
    of its attribute and carries the autofix [autofixConstructor] of the
    interface and that attribute. The diagnostics of that kind, in the order
    in which they are yielded, are exactly one per attribute named
    [Constructor], in the order of the attributes. *)
Theorem interface_constructor_member
    (tok : option TokeniserToken)
    (thunk : option (unit -> completion Interface.Interface)) :
  (forall d, In d (ExtendedAttributes_validate defs (Interface.extAttrs this)) ->
     ruleName d <> js "constructor-member") ->
  (forall d, In d (Container_validate defs this) -> ruleName d <> js "constructor-member") ->
  (forall d, In d (checkInterfaceMemberDuplication defs this) ->
     ruleName d <> js "constructor-member") ->
  ((exists d, In d (Interface.validate SimpleExtendedAttribute_parse ExtendedAttributes_parse
                      autofixConstructor ExtendedAttributes_validate Container_validate
                      checkInterfaceMemberDuplication defs this) /\
      ruleName d = js "constructor-member" /\ diag_token d = tok /\ autofix d = thunk) <->
   (exists extAttr, In extAttr (ea_items (Interface.extAttrs this)) /\
      ea_name extAttr = js "Constructor" /\
      tok = Some (ea_tokens_name extAttr) /\
      thunk = Some (autofixConstructor this extAttr))) /\
  filter (fun d => jsstring_eqb (ruleName d) (js "constructor-member"))
    (Interface.validate SimpleExtendedAttribute_parse ExtendedAttributes_parse
       autofixConstructor ExtendedAttributes_validate Container_validate
       checkInterfaceMemberDuplication defs this) =
  map (fun extAttr =>
         validationError (Some (ea_tokens_name extAttr)) (js "constructor-member")
           Interface.constructorMessage (Some (autofixConstructor this extAttr)))
      (filter (fun extAttr => Interface.named "Constructor" extAttr)
         (ea_items (Interface.extAttrs this))).
Proof.
  intros HE HC HD. split; [split|].
  - intros (d & Hin & Hrule & Htok & Hfix). unfold Interface.validate in Hin.
    rewrite !in_app_iff in Hin. destruct Hin as [Hin|[Hin|[Hin|[Hin|[Hin|Hin]]]]].
    + exfalso. exact (HE _ Hin Hrule).
    + destruct (Interface.lacksExposed this); [|destruct Hin].
      destruct Hin as [<-|[]]. discriminate Hrule.
    + apply in_map_iff in Hin as (x & <- & Hx). apply filter_bool_In in Hx as [Hx Hn].
      apply named_iff in Hn. exists x. simpl in Htok, Hfix. auto.
    + destruct (existsb _ _); [|destruct Hin].
      rewrite in_app_iff in Hin. destruct Hin as [Hin|Hin];
        apply in_map_iff in Hin as (x & <- & _); discriminate Hrule.
    + exfalso. exact (HC _ Hin Hrule).
    + destruct (negb _); [|destruct Hin]. exfalso. exact (HD _ Hin Hrule).
  - intros (x & Hx & Hn & -> & ->).
    exists (validationError (Some (ea_tokens_name x)) (js "constructor-member")
              Interface.constructorMessage (Some (autofixConstructor this x))).
    split; [|auto]. unfold Interface.validate.
    apply in_or_app. right. apply in_or_app. right. apply in_or_app. left.
    apply in_map_iff. exists x. split; [reflexivity|].
    apply filter_bool_In. split; [exact Hx|]. now apply named_iff.
  - unfold Interface.validate. rewrite !filter_app.
    rewrite (filter_bool_none _ (ExtendedAttributes_validate _ _))
      by (apply other_rule; exact HE).
    rewrite (filter_bool_none _ (Container_validate _ _)) by (apply other_rule; exact HC).
    rewrite (filter_bool_none _ (if negb _ then _ else _)).
    2:{ destruct (negb _); [apply other_rule; exact HD|intros x []]. }
    rewrite (filter_bool_none _ (if Interface.lacksExposed this then _ else _)).
    2:{ destruct (Interface.lacksExposed this); [|intros x []].
        intros x [<-|[]]. reflexivity. }
    rewrite (filter_bool_none _ (if existsb _ _ then _ else _)).
    2:{ destruct (existsb _ _); [|intros x []].
        intros x Hx. apply in_app_or in Hx as [Hx|Hx];
          apply in_map_iff in Hx as (y & <- & _); reflexivity. }
    rewrite filter_bool_all.
    2:{ intros x Hx. apply in_map_iff in Hx as (y & <- & _). reflexivity. }
    simpl. now rewrite app_nil_r.
Qed.

(** X28: provided the validators that [Interface.validate] delegates to
    yield no [no-constructible-global] of their own, [Interface.validate]
    yields a diagnostic of kind [no-constructible-global] bound to a token
    exactly when an extended attribute of the interface is named [Global]
    and the token is the name token of an extended attribute named
    [NamedConstructor] or the base token of a member of type
    [constructor]; these diagnostics carry no autofix. *)
Theorem interface_global_not_constructible (tok : option TokeniserToken) :
  (forall d, In d (ExtendedAttributes_validate defs (Interface.extAttrs this)) ->
     ruleName d <> js "no-constructible-global") ->
  (forall d, In d (Container_validate defs this) ->
     ruleName d <> js "no-constructible-global") ->
  (forall d, In d (checkInterfaceMemberDuplication defs this) ->
     ruleName d <> js "no-constructible-global") ->
  ((exists d, In d (Interface.validate SimpleExtendedAttribute_parse ExtendedAttributes_parse
                      autofixConstructor ExtendedAttributes_validate Container_validate
                      checkInterfaceMemberDuplication defs this) /\
      ruleName d = js "no-constructible-global" /\ diag_token d = tok) <->
   (exists g, In g (ea_items (Interface.extAttrs this)) /\ ea_name g = js "Global") /\
   ((exists extAttr, In extAttr (ea_items (Interface.extAttrs this)) /\
       ea_name extAttr = js "NamedConstructor" /\ tok = Some (ea_tokens_name extAttr)) \/
    (exists member, In member (Interface.members this) /\
       member_type member = js "constructor" /\ tok = member_tokens_base member))) /\
  (forall d, In d (Interface.validate SimpleExtendedAttribute_parse ExtendedAttributes_parse
                     autofixConstructor ExtendedAttributes_validate Container_validate
                     checkInterfaceMemberDuplication defs this) ->
     ruleName d = js "no-constructible-global" -> autofix d = None).
Proof.
  intros HE HC HD.
  assert (Hglobal : existsb (Interface.named "Global") (ea_items (Interface.extAttrs this)) = true
                    <-> exists g, In g (ea_items (Interface.extAttrs this)) /\
                                  ea_name g = js "Global").
  { rewrite existsb_exists. split; intros (g & Hg & Hn); exists g;
      (split; [exact Hg|]); now apply named_iff. }
  split; [split|].
  - intros (d & Hin & Hrule & Htok). unfold Interface.validate in Hin.
    rewrite !in_app_iff in Hin. destruct Hin as [Hin|[Hin|[Hin|[Hin|[Hin|Hin]]]]].
    + exfalso. exact (HE _ Hin Hrule).
    + destruct (Interface.lacksExposed this); [|destruct Hin].
      destruct Hin as [<-|[]]. discriminate Hrule.
    + apply in_map_iff in Hin as (x & <- & _). discriminate Hrule.
    + destruct (existsb _ _) eqn:G; [|destruct Hin].
      split; [now apply Hglobal|].
      rewrite in_app_iff in Hin. destruct Hin as [Hin|Hin];
        apply in_map_iff in Hin as (x & <- & Hx); apply filter_bool_In in Hx as [Hx Hn].
      * left. exists x. apply named_iff in Hn. simpl in Htok. auto.
      * right. exists x. apply jsstring_eqb_eq in Hn. simpl in Htok. auto.
    + exfalso. exact (HC _ Hin Hrule).
    + destruct (negb _); [|destruct Hin]. exfalso. exact (HD _ Hin Hrule).
  - intros [Hg Hwhich]. apply Hglobal in Hg.
    destruct Hwhich as [(x & Hx & Hn & ->)|(m & Hm & Hn & ->)].
    + exists (validationError (Some (ea_tokens_name x)) (js "no-constructible-global")
                (js "Interfaces marked as `[Global]` cannot have named constructors.") None).
      split; [|auto]. unfold Interface.validate. rewrite Hg.
      do 3 (apply in_or_app; right). apply in_or_app. left. apply in_or_app. left.
      apply in_map_iff. exists x. split; [reflexivity|].
      apply filter_bool_In. split; [exact Hx|]. now apply named_iff.
    + exists (validationError (member_tokens_base m) (js "no-constructible-global")
                (js "Interfaces marked as `[Global]` cannot have constructors.") None).
      split; [|auto]. unfold Interface.validate. rewrite Hg.
      do 3 (apply in_or_app; right). apply in_or_app. left. apply in_or_app. right.
      apply in_map_iff. exists m. split; [reflexivity|].
      apply filter_bool_In. split; [exact Hm|]. now apply jsstring_eqb_eq.
  - intros d Hin Hrule. unfold Interface.validate in Hin.
    rewrite !in_app_iff in Hin. destruct Hin as [Hin|[Hin|[Hin|[Hin|[Hin|Hin]]]]].
    + exfalso. exact (HE _ Hin Hrule).
    + destruct (Interface.lacksExposed this); [|destruct Hin].
      destruct Hin as [<-|[]]. discriminate Hrule.
    + apply in_map_iff in Hin as (x & <- & _). discriminate Hrule.
    + destruct (existsb _ _); [|destruct Hin].
      rewrite in_app_iff in Hin. destruct Hin as [Hin|Hin];
        apply in_map_iff in Hin as (x & <- & _); reflexivity.
    + exfalso. exact (HC _ Hin Hrule).
    + destruct (negb _); [|destruct Hin]. exfalso. exact (HD _ Hin Hrule).
Qed.

End InterfaceRules.

Lemma interface_constructor_member_witness :
  (exists d,
     In d (Interface.validate noSimpleAttribute oneBracketedAttribute noAutofix
             yieldNothing yieldNothing yieldNothing noDefinitions constructorInterface) /\
     ruleName d = js "constructor-member" /\
     diag_token d = constructorInterfaceTokens !! 1 /\
     autofix d = option_map (noAutofix constructorInterface)
                   (head (ea_items (Interface.extAttrs constructorInterface)))) /\
  map diag_token
    (filter (fun d => jsstring_eqb (ruleName d) (js "constructor-member"))
       (Interface.validate noSimpleAttribute oneBracketedAttribute noAutofix
          yieldNothing yieldNothing yieldNothing noDefinitions twoConstructorsInterface))
  = [twoConstructorsTokens !! 1; twoConstructorsTokens !! 3].
Proof.
  split.
  - apply (proj2 (proj1 (interface_constructor_member noSimpleAttribute
                    oneBracketedAttribute noAutofix
                    yieldNothing yieldNothing yieldNothing noDefinitions constructorInterface
                    (constructorInterfaceTokens !! 1)
                    (option_map (noAutofix constructorInterface)
                       (head (ea_items (Interface.extAttrs constructorInterface))))
                    (fun _ H => False_ind _ H) (fun _ H => False_ind _ H)
                    (fun _ H => False_ind _ H)))).
    eexists. split; [left; reflexivity|]. split; [reflexivity|]. split; reflexivity.
  - rewrite (proj2 (interface_constructor_member noSimpleAttribute
                      oneBracketedAttribute noAutofix
                      yieldNothing yieldNothing yieldNothing noDefinitions
                      twoConstructorsInterface None None
                      (fun _ H => False_ind _ H) (fun _ H => False_ind _ H)
                      (fun _ H => False_ind _ H))).
    reflexivity.
Defined.

Lemma interface_global_not_constructible_witness :
  exists d,
    In d (Interface.validate noSimpleAttribute oneBracketedAttribute noAutofix
            yieldNothing yieldNothing yieldNothing noDefinitions globalInterface) /\
    ruleName d = js "no-constructible-global" /\
    diag_token d = globalInterfaceTokens !! 3.
Proof.
  apply (proj2 (proj1 (interface_global_not_constructible noSimpleAttribute
                         oneBracketedAttribute noAutofix
                         yieldNothing yieldNothing yieldNothing noDefinitions globalInterface
                         (globalInterfaceTokens !! 3)
                         (fun _ H => False_ind _ H) (fun _ H => False_ind _ H)
                         (fun _ H => False_ind _ H)))).
  split.
  - eexists. split; [left; reflexivity|reflexivity].
  - left. eexists. split; [right; left; reflexivity|]. split; reflexivity.
Defined.

(** ** The required-field analysis on a first call *)

(** A call leaves the index and the entries that the cache holds as they
    are; it only adds entries. *)
Lemma dictionaryIncludesRequiredField_rec_frame fuel : forall dict defs r defs',
  Helpers.dictionaryIncludesRequiredField_rec fuel dict defs = Normal (r, defs') ->
  unique defs' = unique defs /\
  typedefIncludesDictionary (cache defs') = typedefIncludesDictionary (cache defs) /\
  forall id v, dictionaryIncludesRequiredField (cache defs) !! id = Some v ->
               dictionaryIncludesRequiredField (cache defs') !! id = Some v.
Proof.
  induction fuel as [|fuel IH]; intros dict defs r defs' H; [discriminate H|].
  rewrite dictionaryIncludesRequiredField_rec_S in H.
  destruct (dictionaryIncludesRequiredField (cache defs) !! def_id dict) as [cached|] eqn:Hc.
  { injection H as <- <-. auto. }
  cbv zeta in H.
  assert (Hset : forall v d,
            unique d = unique defs ->
            typedefIncludesDictionary (cache d) = typedefIncludesDictionary (cache defs) ->
            (forall id w, dictionaryIncludesRequiredField (cache defs) !! id = Some w ->
                          dictionaryIncludesRequiredField (cache d) !! id = Some w) ->
            unique (Helpers.set_dictionaryIncludesRequiredField dict v d) = unique defs /\
            typedefIncludesDictionary
              (cache (Helpers.set_dictionaryIncludesRequiredField dict v d))
              = typedefIncludesDictionary (cache defs) /\
            forall id w, dictionaryIncludesRequiredField (cache defs) !! id = Some w ->
              dictionaryIncludesRequiredField
                (cache (Helpers.set_dictionaryIncludesRequiredField dict v d)) !! id = Some w).
  { intros v d Hu Ht Hk. simpl. split; [exact Hu|]. split; [exact Ht|].
    intros id w Hw. destruct (decide (id = def_id dict)) as [->|Hne]; [congruence|].
    rewrite lookup_insert_ne by congruence. exact (Hk id w Hw). }
  assert (Hown : forall d,
            unique d = unique defs ->
            typedefIncludesDictionary (cache d) = typedefIncludesDictionary (cache defs) ->
            (forall id w, dictionaryIncludesRequiredField (cache defs) !! id = Some w ->
                          dictionaryIncludesRequiredField (cache d) !! id = Some w) ->
            match members dict with
            | Some members0 =>
                Normal (Some (existsb required members0),
                        Helpers.set_dictionaryIncludesRequiredField dict
                          (Some (existsb required members0)) d)
            | None => Throw TypeError
            end = Normal (r, defs') ->
            unique defs' = unique defs /\
            typedefIncludesDictionary (cache defs') = typedefIncludesDictionary (cache defs) /\
            forall id v, dictionaryIncludesRequiredField (cache defs) !! id = Some v ->
                         dictionaryIncludesRequiredField (cache defs') !! id = Some v).
  { intros d Hu Ht Hk Ho. destruct (members dict); [|discriminate Ho].
    injection Ho as <- <-. now apply Hset. }
  pose proof (Hset None defs eq_refl eq_refl (fun _ _ Hw => Hw)) as (Hu1 & Ht1 & Hk1).
  destruct (Helpers.truthy_string (inheritance dict)) as [parent|];
    [|exact (Hown _ Hu1 Ht1 Hk1 H)].
  destruct (unique _ !! parent) as [superdict|]; [|injection H as <- <-; auto].
  destruct (Helpers.dictionaryIncludesRequiredField_rec fuel superdict _)
    as [[r1 d1]| |] eqn:E; cbn [mbind completion_bind] in H; [|discriminate H..].
  apply IH in E as (Hu2 & Ht2 & Hk2).
  assert (Hu3 : unique d1 = unique defs) by congruence.
  assert (Ht3 : typedefIncludesDictionary (cache d1) = typedefIncludesDictionary (cache defs))
    by congruence.
  assert (Hk3 : forall id w, dictionaryIncludesRequiredField (cache defs) !! id = Some w ->
                             dictionaryIncludesRequiredField (cache d1) !! id = Some w)
    by (intros id w Hw; apply Hk2, Hk1, Hw).
  destruct r1 as [[|]|]; [injection H as <- <-; auto|exact (Hown d1 Hu3 Ht3 Hk3 H)..].
Qed.

(** X29: on a dictionary that has no entry in the cache yet,
    [dictionaryIncludesRequiredField] answers with a boolean, and leaves the
    index and the typedef cache as they are. The answer [false] means that
    no member of the dictionary itself is required; it is stored, and the
    next call gives it again. The answer [true] is stored when it comes from
    the members of the dictionary itself; when it comes from the inherited
    dictionary or from an unknown one, the entry is left undefined. *)
Theorem required_field_first_call (dict : Def) (defs : Definitions)
    (r : option bool) (defs' : Definitions) :
  dictionaryIncludesRequiredField (cache defs) !! def_id dict = None ->
  Helpers.dictionaryIncludesRequiredField dict defs = Normal (r, defs') ->
  exists b, r = Some b /\
    unique defs' = unique defs /\
    typedefIncludesDictionary (cache defs') = typedefIncludesDictionary (cache defs) /\
    (dictionaryIncludesRequiredField (cache defs') !! def_id dict = Some (Some b) /\
     (exists fields, members dict = Some fields /\ existsb required fields = b) \/
     b = true /\ dictionaryIncludesRequiredField (cache defs') !! def_id dict = Some None /\
     is_Some (Helpers.truthy_string (inheritance dict))) /\
    (b = false ->
     Helpers.dictionaryIncludesRequiredField dict defs' = Normal (Some false, defs')).
Proof.
  intros Hc H. unfold Helpers.dictionaryIncludesRequiredField in H.
  replace (size (Helpers.identities defs) + 2) with (S (size (Helpers.identities defs) + 1))
    in H by lia.
  rewrite dictionaryIncludesRequiredField_rec_S, Hc in H. cbv zeta in H.
  assert (Hsecond : forall d,
            dictionaryIncludesRequiredField (cache d) !! def_id dict = Some (Some false) ->
            Helpers.dictionaryIncludesRequiredField dict d = Normal (Some false, d)).
  { intros d Hd. unfold Helpers.dictionaryIncludesRequiredField.
    replace (size (Helpers.identities d) + 2) with (S (size (Helpers.identities d) + 1))
      by lia.
    now rewrite dictionaryIncludesRequiredField_rec_S, Hd. }
  assert (Hown : forall d,
            unique d = unique defs ->
            typedefIncludesDictionary (cache d) = typedefIncludesDictionary (cache defs) ->
            match members dict with
            | Some members0 =>
                Normal (Some (existsb required members0),
                        Helpers.set_dictionaryIncludesRequiredField dict
                          (Some (existsb required members0)) d)
            | None => Throw TypeError
            end = Normal (r, defs') ->
            exists b, r = Some b /\
              unique defs' = unique defs /\
              typedefIncludesDictionary (cache defs')
                = typedefIncludesDictionary (cache defs) /\
              (dictionaryIncludesRequiredField (cache defs') !! def_id dict = Some (Some b) /\
               (exists fields, members dict = Some fields /\ existsb required fields = b) \/
               b = true /\
               dictionaryIncludesRequiredField (cache defs') !! def_id dict = Some None /\
               is_Some (Helpers.truthy_string (inheritance dict))) /\
              (b = false ->
               Helpers.dictionaryIncludesRequiredField dict defs'
                 = Normal (Some false, defs'))).
  { intros d Hu Ht Ho. destruct (members dict) as [fields|]; [|discriminate Ho].
    injection Ho as <- <-. exists (existsb required fields).
    split; [reflexivity|]. split; [exact Hu|]. split; [exact Ht|].
    assert (dictionaryIncludesRequiredField
              (cache (Helpers.set_dictionaryIncludesRequiredField dict
                        (Some (existsb required fields)) d)) !! def_id dict
            = Some (Some (existsb required fields))) as Hentry
      by (simpl; apply lookup_insert_eq).
    split; [left; split; [exact Hentry|eauto]|].
    intros Hb. apply Hsecond. now rewrite Hentry, Hb. }
  destruct (Helpers.truthy_string (inheritance dict)) as [parent|] eqn:Hp;
    [|exact (Hown (Helpers.set_dictionaryIncludesRequiredField dict None defs)
                eq_refl eq_refl H)].
  assert (Hearly : forall d,
            unique d = unique defs ->
            typedefIncludesDictionary (cache d) = typedefIncludesDictionary (cache defs) ->
            dictionaryIncludesRequiredField (cache d) !! def_id dict = Some None ->
            exists b, Some true = Some b /\
              unique d = unique defs /\
              typedefIncludesDictionary (cache d) = typedefIncludesDictionary (cache defs) /\
              (dictionaryIncludesRequiredField (cache d) !! def_id dict = Some (Some b) /\
               (exists fields, members dict = Some fields /\ existsb required fields = b) \/
               b = true /\
               dictionaryIncludesRequiredField (cache d) !! def_id dict = Some None /\
               is_Some (Some parent)) /\
              (b = false ->
               Helpers.dictionaryIncludesRequiredField dict d = Normal (Some false, d))).
  { intros d Hu Ht Hd. exists true. split; [reflexivity|]. split; [exact Hu|].
    split; [exact Ht|]. split; [right; eauto|]. intros [=]. }
  destruct (unique _ !! parent) as [superdict|].
  2:{ injection H as <- <-.
      apply (Hearly (Helpers.set_dictionaryIncludesRequiredField dict None defs));
        [reflexivity..|]. simpl. apply lookup_insert_eq. }
  destruct (Helpers.dictionaryIncludesRequiredField_rec _ superdict _)
    as [[r1 d1]| |] eqn:E; cbn [mbind completion_bind] in H; [|discriminate H..].
  apply dictionaryIncludesRequiredField_rec_frame in E as (Hu1 & Ht1 & Hk1).
  simpl in Hu1, Ht1.
  destruct r1 as [[|]|]; [|exact (Hown d1 Hu1 Ht1 H)..].
  injection H as <- <-. apply (Hearly d1); [exact Hu1|exact Ht1|].
  apply Hk1. simpl. apply lookup_insert_eq.
Qed.

Lemma required_field_first_call_witness :
  dictionaryIncludesRequiredField (cache orphanDefinitions) !! def_id orphanDictionary = None /\
  exists defs',
    Helpers.dictionaryIncludesRequiredField orphanDictionary orphanDefinitions
      = Normal (Some true, defs') /\
    dictionaryIncludesRequiredField (cache defs') !! def_id orphanDictionary = Some None.
Proof.
  assert (Hc : dictionaryIncludesRequiredField (cache orphanDefinitions)
                 !! def_id orphanDictionary = None) by (vm_compute; reflexivity).
  assert (E : exists defs',
            Helpers.dictionaryIncludesRequiredField orphanDictionary orphanDefinitions
              = Normal (Some true, defs') /\
            dictionaryIncludesRequiredField (cache defs') !! def_id orphanDictionary
              = Some None).
  { eexists. split; vm_compute; reflexivity. }
  destruct E as (defs' & E & Hentry).
  split; [exact Hc|]. exists defs'. split; [exact E|].
  destruct (required_field_first_call orphanDictionary orphanDefinitions (Some true) defs'
              Hc E) as (b & Hb & _ & _ & [[Hs _]|(_ & Hn & _)] & _).
  - rewrite Hentry in Hs. discriminate Hs.
  - exact Hn.
Defined.

(** ** The cursor on the tokens of an input *)

(** A token before [eof] is not of type [eof]. *)
Lemma lexeme_not_eof (I : jsstring) (i : nat) (t : TokeniserToken) :
  lexeme I i t -> type t <> js "eof".
Proof.
  intros Hl He. destruct (lexeme_kinds I i t Hl) as (_ & _ & [Hk|[Hk|Hk]]);
    rewrite He in Hk; vm_compute in Hk.
  - repeat (destruct Hk as [Hk|Hk]; [discriminate Hk|]). exact Hk.
  - discriminate Hk.
  - discriminate Hk.
Qed.

(** X30: on the tokens of an input, the token of type [eof] is the last one
    and the only one; so a [consume] whose candidates do not name [eof],
    started on a token, leaves the cursor on a token: the parsers never read
    behind the end of the token vector. *)
Theorem cursor_stays_on_a_token (I : jsstring) (tk : Tokeniser)
    (candidates : list jsstring) :
  tokenise I = Normal (source tk) ->
  (forall k t, source tk !! k = Some t ->
     (type t = js "eof" <-> S k = length (source tk))) /\
  (position tk < length (source tk) -> ~ In (js "eof") candidates ->
   position (consume tk candidates).2 < length (source (consume tk candidates).2)).
Proof.
  intros H. apply tokenise_described in H as (front & trailing & Hsrc & Hpos & _).
  assert (Heof : forall k t, source tk !! k = Some t ->
            (type t = js "eof" <-> S k = length (source tk))).
  { intros k t Hk. rewrite Hsrc in Hk |- *. rewrite length_app, Nat.add_1_r.
    destruct (decide (k < length front)) as [Hlt|Hge].
    - rewrite lookup_app_l in Hk by exact Hlt. split; [|lia].
      intros He. exfalso. exact (lexeme_not_eof I _ t (Hpos k t Hk) He).
    - rewrite lookup_app_r in Hk by lia.
      destruct (k - length front) as [|n] eqn:E; simpl in Hk;
        [|now rewrite lookup_nil in Hk].
      injection Hk as <-. split; [lia|reflexivity]. }
  split; [exact Heof|]. intros Hlt Hn.
  destruct (consume_cases tk candidates) as [(t & -> & Ht & Hin)|(-> & _)]; [|exact Hlt].
  simpl. destruct (decide (S (position tk) = length (source tk))) as [Hlast|Hne]; [|lia].
  exfalso. apply Hn. apply (Heof _ _ Ht) in Hlast. now rewrite <- Hlast.
Qed.

Lemma cursor_stays_on_a_token_witness :
  let tk := mkTokeniser operationTokens 7 None in
  tokenise (js "long f(a, b);") = Normal (source tk) /\
  position tk < length (source tk) /\
  position (consume tk [js ";"; js ","]).2 < length (source (consume tk [js ";"; js ","]).2).
Proof.
  intros tk.
  assert (H : tokenise (js "long f(a, b);") = Normal (source tk))
    by (vm_compute; reflexivity).
  assert (Hlt : position tk < length (source tk)) by (vm_compute; lia).
  split; [exact H|]. split; [exact Hlt|].
  apply (proj2 (cursor_stays_on_a_token (js "long f(a, b);") tk [js ";"; js ","] H) Hlt).
  intros [E|[E|[]]]; vm_compute in E; discriminate E.
Defined.

(** ** Scenarios, run on the model *)
Module Scenarios.

(** [interface Foo { };]: keywords and punctuation get their own type. *)
Example interface_tokens :
  tokenise (js "interface Foo { };") =
  Normal [tok "interface" "interface" "" 1 0; tok "identifier" "Foo" " " 1 1;
          tok "{" "{" " " 1 2; tok "}" "}" " " 1 3; tok ";" ";" "" 1 4;
          mkToken (js "eof") [] [] None None].
Proof. vm_compute. reflexivity. Qed.

(** A comment alone: the vector is the [eof] token, which holds the comment
    as trivia. *)
Example comment_only :
  tokenise (js "//comment" ++ [10%N]) =
  Normal [mkToken (js "eof") [] (js "//comment" ++ [10%N]) None None].
Proof. vm_compute. reflexivity. Qed.

(** Numbers, the ellipsis and a lone dot; lines are counted in the trivia. *)
Example numbers_and_dots :
  tokenise (js "-1.5e3 0x1F" ++ [10%N] ++ js "... . -a") =
  Normal [tok "decimal" "-1.5e3" "" 1 0; tok "integer" "0x1F" " " 1 1;
          mkToken (js "...") (js "...") [10%N] (Some 2%Z) (Some 2%Z);
          tok "other" "." " " 2 3; tok "identifier" "-a" " " 2 4;
          mkToken (js "eof") [] [] None None].
Proof. vm_compute. reflexivity. Qed.

Example toString_is_reserved :
  exists e, tokenise (js "a toString") = Throw (WebIDLParseError e) /\
            bareMessage e = js "toString is a reserved identifier and must not be used.".
Proof. eexists. split; vm_compute; reflexivity. Qed.

(** [dictionary D { required long x; };] and [typedef D T;] *)
Example required_field_found :
  exists defs', Helpers.dictionaryIncludesRequiredField plainDictionary plainDefinitions
                = Normal (Some true, defs').
Proof. eexists. vm_compute. reflexivity. Qed.

Example indentation_of_last_line :
  Interface.getLastIndentation (js "x" ++ [10%N] ++ js "  " ++ [9%N] ++ js "y")
  = js "  " ++ [9%N].
Proof. vm_compute. reflexivity. Qed.

End Scenarios.
